(** * The scoring core of the fuzzer: a shallow embedding and its properties

    The development follows the Go sources
      - [pkg/fuzzer/time_stats.go]          (module [TimeStats])
      - [pkg/fuzzer/kernel_log_matcher.go]  (modules [KernelLogMatcher] and, for
                                             its part in package queue,
                                             [WeightedQueue])
      - [pkg/fuzzer/scoring.go]             (modules [ScoreTracker], [WeightedSelector])
      - [pkg/flatrpc/scoring_extensions.go] (module [ScoreMetrics])
      - [pkg/fuzzer/fuzzer.go] and the smash job, for what they hand to the
        scoring                             (module [Fuzzer])

    Conventions of the embedding.
      - [float64] is read as a real number ([R]): rounding, infinities and NaN
        are not represented.  Comparisons of floats are decided with
        [decide (x < y)%R].
      - [int64] and [uint64] are integers ([Z]) whose arithmetic wraps around
        ([Go.wrap_int64], [Go.wrap_uint64]); [int] values that count the
        elements of a slice are natural numbers or their image in [Z].
      - slices are lists; Go maps are [gmap]s.  The iteration order of a Go
        map is not specified by the language, so every loop over a map takes
        the order of the visit as an argument.
      - locks are not modelled: every method is one atomic state transition,
        written as a function from the receiver to its next value.
      - a run-time panic is the result [None]; objects that are shared
        through pointers live in a heap, a [gmap] from addresses.  Running
        out of memory is a fatal error of the runtime and no panic; it is
        not modelled: an allocation of a size that the runtime accepts
        succeeds.
      - package [regexp] is modelled for the expressions of the pattern
        table (module [Regexp]); for other expressions it is an interface
        ([Regexp.Pkg]). *)

From Stdlib Require Import Reals Lra Lia ZArith Ascii String.
From stdpp Require Import gmap strings list sorting pretty.

#[global] Instance Rlt_decision : RelDecision Rlt := Rlt_dec.
#[global] Instance Rle_decision : RelDecision Rle := Rle_dec.
#[global] Instance R_eq_decision : EqDecision R := Req_dec_T.

(** ** Primitives of the Go language used by the sources *)

Module Go.

Definition wrap_uint64 (z : Z) : Z := (z mod 2 ^ 64)%Z.

Definition wrap_int64 (z : Z) : Z := ((z + 2 ^ 63) mod 2 ^ 64 - 2 ^ 63)%Z.

(** [copy(dst, src)]: the first [min (len dst) (len src)] elements of [dst]
    are overwritten with those of [src]; the builtin behaves as if [src] had
    been read in full before [dst] is written (overlap is allowed). *)
Definition copy {A} (dst src : list A) : list A :=
  let k := min (length dst) (length src) in
  take k src ++ drop k dst.

(** [math.Min] on reals. *)
Definition Min (x y : R) : R := Rmin x y.

(** The conversion [int(x)] of a [float64] within the range of [int]: the
    fraction is discarded (truncation towards zero). *)
Definition int (x : R) : Z :=
  if decide (0 <= x)%R then Int_part x else (- Int_part (- x))%Z.

(** The bound [maxAlloc] of the runtime on the size of an allocation: 2^48
    bytes on the 64-bit platforms with 48 address bits, linux/amd64 among
    them. *)
Definition maxAlloc : Z := 2 ^ 48.

(** [make([]T, 0, cap)] for elements of [size] bytes panics on a capacity
    that is negative or needs more than [maxAlloc] bytes.  (Within these
    bounds the allocation is taken to succeed: running out of memory is a
    fatal error of the runtime and no panic, and it is not modelled.) *)
Definition makePanics (size cap : Z) : Prop :=
  (cap < 0 ∨ maxAlloc < size * cap)%Z.

End Go.

(** ** pkg/fuzzer/time_stats.go *)

Module TimeStats.

Record t := mk {
  samples : list Z;      (* []uint64 *)
  mean : R;
  variance : R;
  stdDev : R;
  count : Z;             (* int64 *)
  needRecalc : bool;
  maxSamples : Z         (* int; its only assignment is the 10000 of NewTimeStats *)
}.

Definition NewTimeStats : t :=
  {| samples := []; mean := 0; variance := 0; stdDev := 0;
     count := 0; needRecalc := true; maxSamples := 10000 |}.

(** [AddSample]: append, count, mark dirty; then, when the slice is longer
    than [maxSamples], [copy(samples, samples[maxSamples/2:])] followed by
    [samples = samples[:maxSamples/2]]. *)
Definition AddSample (ts : t) (execTime : Z) : t :=
  let appended := samples ts ++ [execTime] in
  let half := Z.to_nat (maxSamples ts `quot` 2) in
  let kept :=
    if decide (maxSamples ts < Z.of_nat (length appended))%Z
    then take half (Go.copy appended (drop half appended))
    else appended in
  {| samples := kept; mean := mean ts; variance := variance ts;
     stdDev := stdDev ts; count := Go.wrap_int64 (count ts + 1);
     needRecalc := true; maxSamples := maxSamples ts |}.

(** The two loops of [recalculateStats]. *)
Definition sumLoop (l : list Z) : Z :=
  fold_left (λ sum sample, Go.wrap_uint64 (sum + sample)) l 0%Z.

Definition varianceLoop (m : R) (l : list Z) : R :=
  fold_left (λ varianceSum sample,
               let diff := (IZR sample - m)%R in (varianceSum + diff * diff)%R)
            l 0%R.

Definition recalculateStats (ts : t) : t :=
  match samples ts with
  | [] => ts
  | _ =>
    let n := INR (length (samples ts)) in
    let mean' := (IZR (sumLoop (samples ts)) / n)%R in
    let variance' := (varianceLoop mean' (samples ts) / n)%R in
    {| samples := samples ts; mean := mean'; variance := variance';
       stdDev := sqrt variance'; count := count ts;
       needRecalc := false; maxSamples := maxSamples ts |}
  end.

(** [CalculateAnomalyScore] returns the score together with the receiver,
    which the lazy recomputation may have updated. *)
Definition CalculateAnomalyScore (ts : t) (execTime : Z) : R * t :=
  if decide (count ts < 10)%Z then (0%R, ts)
  else
    let ts1 := if needRecalc ts then recalculateStats ts else ts in
    if decide (stdDev ts1 = 0%R) then (0%R, ts1)
    else
      let zScore := (Rabs (IZR execTime - mean ts1) / stdDev ts1)%R in
      let anomalyScore := Go.Min (zScore / 2) 1 in
      (anomalyScore, ts1).

Definition GetStats (ts : t) : (R * R * Z) * t :=
  let ts1 := if needRecalc ts then recalculateStats ts else ts in
  ((mean ts1, stdDev ts1, count ts1), ts1).

(** The fields are private to the package: a client holds a value made by
    [NewTimeStats] and calls the methods on it, in some sequence. *)
Inductive call :=
  | CallAddSample (execTime : Z)
  | CallCalculateAnomalyScore (execTime : Z)
  | CallGetStats.

Definition step (ts : t) (c : call) : t :=
  match c with
  | CallAddSample x => AddSample ts x
  | CallCalculateAnomalyScore x => (CalculateAnomalyScore ts x).2
  | CallGetStats => (GetStats ts).2
  end.

Definition run (calls : list call) : t := fold_left step calls NewTimeStats.

(** How many samples the calls have added. *)
Fixpoint added (calls : list call) : nat :=
  match calls with
  | [] => O
  | CallAddSample _ :: calls' => S (added calls')
  | _ :: calls' => added calls'
  end.

End TimeStats.

(** ** The fragment of Go's [regexp] and [strings] used by the log matcher *)

Module Regexp.

(** Regular expressions over bytes.  [AnyNotNL] is the [.] of Go's syntax,
    which matches every character but the line feed. *)
Inductive re :=
  | Fail'
  | Eps
  | Byte (c : ascii)
  | AnyNotNL
  | Cat (r1 r2 : re)
  | Alt (r1 r2 : re)
  | Star (r : re).

Fixpoint nullable (r : re) : bool :=
  match r with
  | Fail' => false
  | Eps => true
  | Byte _ => false
  | AnyNotNL => false
  | Cat r1 r2 => nullable r1 && nullable r2
  | Alt r1 r2 => nullable r1 || nullable r2
  | Star _ => true
  end.

Definition cat (r1 r2 : re) : re :=
  match r1, r2 with
  | Fail', _ => Fail'
  | _, Fail' => Fail'
  | Eps, _ => r2
  | _, Eps => r1
  | _, _ => Cat r1 r2
  end.

Definition alt (r1 r2 : re) : re :=
  match r1, r2 with
  | Fail', _ => r2
  | _, Fail' => r1
  | _, _ => Alt r1 r2
  end.

Definition newline : ascii := ascii_of_nat 10.

(** The derivative of [r] by the byte [c]. *)
Fixpoint deriv (c : ascii) (r : re) : re :=
  match r with
  | Fail' => Fail'
  | Eps => Fail'
  | Byte a => if Ascii.eqb a c then Eps else Fail'
  | AnyNotNL => if Ascii.eqb c newline then Fail' else Eps
  | Cat r1 r2 =>
      if nullable r1
      then alt (cat (deriv c r1) r2) (deriv c r2)
      else cat (deriv c r1) r2
  | Alt r1 r2 => alt (deriv c r1) (deriv c r2)
  | Star r1 => cat (deriv c r1) (Star r1)
  end.

(** Some prefix of [s] is matched by [r]. *)
Fixpoint matchPrefix (r : re) (s : string) : bool :=
  nullable r ||
  match s with
  | EmptyString => false
  | String c s' => matchPrefix (deriv c r) s'
  end.

(** Some substring of [s] is matched by [r]: the search of an expression
    that is not anchored. *)
Fixpoint search (r : re) (s : string) : bool :=
  matchPrefix r s ||
  match s with
  | EmptyString => false
  | String _ s' => search r s'
  end.

(** A compiled expression, the [*regexp.Regexp] of Go.  The sources use it
    through [MatchString] alone, so that an expression outside the fragment
    translated below is known by the strings it matches. *)
Inductive t :=
  | Fragment (r : re)
  | Matcher (m : string → bool).

(** [Regexp.MatchString]. *)
Definition MatchString (r : t) (s : string) : bool :=
  match r with
  | Fragment r => search r s
  | Matcher m => m s
  end.

(** Characters with a meaning in the syntax of regular expressions. *)
Definition isMeta (c : ascii) : bool :=
  bool_decide (c ∈ list_ascii_of_string "\.+*?()|[]{}^$").

Definition isASCII (c : ascii) : bool := bool_decide (nat_of_ascii c < 128)%nat.

(** Reading an expression gives its translation, or the error of
    [regexp.Compile], or finds the expression beyond the fragment that is
    translated. *)
Inductive parsed (A : Type) : Type :=
  | Parsed (a : A)
  | Rejected
  | Beyond.

Arguments Parsed {A} a.
Arguments Rejected {A}.
Arguments Beyond {A}.

(** The fragment: ASCII characters without a meaning in the syntax, the
    postfix [*] on such a character, and [.*].  On strings of bytes [.*]
    is the same for bytes and for characters, which a single [.] is not:
    a single [.] is beyond the fragment.  The atoms of an expression are
    collected last atom first.  An expression is read from the left, as
    [regexp.Compile] reads it, and what comes first decides. *)
Fixpoint parseAtoms (s : string) (acc : list re) : parsed (list re) :=
  match s with
  | EmptyString => Parsed acc
  | String c rest =>
      if negb (isASCII c) then Beyond
      else if Ascii.eqb c "." then
        match rest with
        | String "*"%char rest' => parseAtoms rest' (Star AnyNotNL :: acc)
        | _ => Beyond
        end
      else if Ascii.eqb c "*" then
        match acc with
        | [] => Rejected                (* missing argument to repetition operator *)
        | Star _ :: _ => Rejected       (* invalid nested repetition operator *)
        | a :: acc' => parseAtoms rest (Star a :: acc')
        end
      else if isMeta c then Beyond
      else parseAtoms rest (Byte c :: acc)
  end.

(** [regexp.Compile] on the fragment.  An expression of more than 1000
    bytes is left beyond it: the limits that [regexp.Compile] puts on the
    size of an expression are far above. *)
Definition parse (expr : string) : parsed re :=
  if decide (1000 < String.length expr)%nat then Beyond
  else
    match parseAtoms expr [] with
    | Parsed atoms => Parsed (fold_left (λ r a, cat a r) atoms Eps)
    | Rejected => Rejected
    | Beyond => Beyond
    end.

(** Package [regexp] belongs to Go's standard library and not to the
    sources.  Beyond the fragment it is taken as an interface: the answer
    of [regexp.Compile] to an expression is an error ([None]) or a compiled
    expression, given by the strings it matches. *)
Class Pkg := {
  compileBeyond : string → option (string → bool)
}.

(** [regexp.Compile]: [None] is the error result. *)
Definition Compile `{!Pkg} (expr : string) : option t :=
  match parse expr with
  | Parsed r => Some (Fragment r)
  | Rejected => None
  | Beyond => Matcher <$> compileBeyond expr
  end.

End Regexp.

Module Strings.

(** The UTF-8 encodings of the characters that [unicode.IsSpace] accepts. *)
Definition bytes (l : list nat) : string :=
  string_of_list_ascii (map ascii_of_nat l).

Definition spaces : list string :=
  map bytes
    [ [9]; [10]; [11]; [12]; [13]; [32];              (* \t \n \v \f \r ' ' *)
      [194; 133]; [194; 160];                          (* U+0085 U+00A0 *)
      [225; 154; 128];                                 (* U+1680 *)
      [226; 128; 128]; [226; 128; 129]; [226; 128; 130]; [226; 128; 131];
      [226; 128; 132]; [226; 128; 133]; [226; 128; 134]; [226; 128; 135];
      [226; 128; 136]; [226; 128; 137]; [226; 128; 138]; (* U+2000 .. U+200A *)
      [226; 128; 168]; [226; 128; 169]; [226; 128; 175]; (* U+2028 U+2029 U+202F *)
      [226; 129; 159]; [227; 128; 128] ].              (* U+205F U+3000 *)

(** The length of the space character that [s] starts with, if any. *)
Definition leadingSpace (sp : list string) (s : string) : option nat :=
  String.length <$> head (filter (λ p, bool_decide (String.prefix p s = true)) sp).

Fixpoint trimLeft (sp : list string) (fuel : nat) (s : string) : string :=
  match fuel with
  | O => s
  | S fuel' =>
      match leadingSpace sp s with
      | Some k => trimLeft sp fuel' (string_of_list_ascii (drop k (list_ascii_of_string s)))
      | None => s
      end
  end.

Definition revString (s : string) : string :=
  string_of_list_ascii (rev (list_ascii_of_string s)).

(** [strings.TrimSpace]: all leading and trailing white space removed. *)
Definition TrimSpace (s : string) : string :=
  let l := trimLeft spaces (String.length s) s in
  revString (trimLeft (map revString spaces) (String.length l) (revString l)).

(** [strings.Contains]. *)
Fixpoint Contains (s substr : string) : bool :=
  if String.prefix substr s then true
  else match s with
       | EmptyString => false
       | String _ s' => Contains s' substr
       end.

(** The loop of [strings.Split] for a separator of one byte: [cur] holds
    the bytes of the present piece, last first. *)
Fixpoint splitLoop (sep : ascii) (s : string) (cur : list ascii) : list string :=
  match s with
  | EmptyString => [string_of_list_ascii (rev cur)]
  | String c s' =>
      if Ascii.eqb c sep
      then string_of_list_ascii (rev cur) :: splitLoop sep s' []
      else splitLoop sep s' (c :: cur)
  end.

(** [strings.Split(s, sep)] for a separator [sep] of one byte. *)
Definition Split (s : string) (sep : ascii) : list string := splitLoop sep s [].

End Strings.

(** ** pkg/fuzzer/kernel_log_matcher.go *)

Module KernelLogMatcher.

Record LogPattern := mkPattern {
  Pattern : Regexp.t;
  Score : R;
  Description : string
}.

(** The receiver: its only data field is the slice of patterns. *)
Record t := mk { patterns : list LogPattern }.

(** The literal table of [initializePatterns]. *)
Definition table : list (string * R * string) :=
  [ ("KASAN:.*", 1.0%R, "KASAN memory error");
    ("AddressSanitizer:.*", 1.0%R, "AddressSanitizer error");
    ("kernel BUG at.*", 0.9%R, "Kernel BUG");
    ("Kernel panic.*", 0.9%R, "Kernel panic");
    ("Oops:.*", 0.8%R, "Kernel Oops");
    ("general protection fault.*", 0.8%R, "General protection fault");
    ("page fault.*", 0.7%R, "Page fault");
    ("double fault.*", 0.9%R, "Double fault");
    ("stack segment.*", 0.8%R, "Stack segment fault");
    ("possible deadlock.*", 0.7%R, "Possible deadlock");
    ("lockdep.*", 0.6%R, "Lockdep warning");
    ("sleeping function called from invalid context.*", 0.6%R, "Invalid sleep context");
    ("rcu_.*stall.*", 0.6%R, "RCU stall");
    ("RCU.*", 0.5%R, "RCU related");
    ("WARNING:.*", 0.5%R, "Kernel warning");
    ("WARN_ON.*", 0.5%R, "WARN_ON triggered");
    ("memory leak.*", 0.6%R, "Memory leak");
    ("refcount_t.*", 0.6%R, "Reference count error");
    ("EXT4-fs error.*", 0.4%R, "EXT4 filesystem error");
    ("XFS.*error.*", 0.4%R, "XFS filesystem error");
    ("net.*warning.*", 0.3%R, "Network warning");
    ("TCP.*error.*", 0.3%R, "TCP error");
    ("device.*error.*", 0.3%R, "Device error");
    ("driver.*warning.*", 0.2%R, "Driver warning");
    ("ERROR:.*", 0.4%R, "General error");
    ("error.*", 0.2%R, "Generic error") ].

(** The loop of [initializePatterns]: an entry whose expression does not
    compile is skipped.  The expressions of the table are all in the
    fragment of [Regexp.parse], where [regexp.Compile] is [Regexp.parse]
    whatever it answers beyond the fragment. *)
Definition initializePatterns : list LogPattern :=
  fold_left
    (λ acc p,
       match Regexp.parse p.1.1 with
       | Regexp.Parsed regex =>
           acc ++ [mkPattern (Regexp.Fragment regex) p.1.2 p.2]
       | _ => acc
       end)
    table [].

Definition NewKernelLogMatcher : t := mk initializePatterns.

(** The loop variables of [CalculateScore]. *)
Record acc := mkAcc { maxScore : R; matchedPatterns : gmap string bool }.

(** One pattern against one (trimmed, non-empty) line. *)
Definition patternStep (log : string) (a : acc) (pattern : LogPattern) : acc :=
  if Regexp.MatchString (Pattern pattern) log then
    let key := Description pattern in
    if negb (default false (matchedPatterns a !! key)) then
      mkAcc (if decide (maxScore a < Score pattern)%R then Score pattern else maxScore a)
            (<[key := true]> (matchedPatterns a))
    else a
  else a.

Definition lineStep (klm : t) (a : acc) (log : string) : acc :=
  let log := Strings.TrimSpace log in
  if decide (log = "") then a
  else fold_left (patternStep log) (patterns klm) a.

Definition CalculateScore (klm : t) (logs : list string) : R :=
  match logs with
  | [] => 0%R
  | _ =>
    let a := fold_left (lineStep klm) logs (mkAcc 0%R ∅) in
    let n := size (matchedPatterns a) in
    let bonusScore :=
      if decide (1 < n)%nat then (IZR (Z.of_nat n - 1) * 0.1)%R else 0%R in
    let totalScore := (maxScore a + bonusScore)%R in
    if decide (1.0 < totalScore)%R then 1.0%R else totalScore
  end.

End KernelLogMatcher.

(** ** What the sources take from the Go runtime and from package [signal] *)

(** [for k, v := range m] visits every entry of the map once, in an order
    that the language leaves open.  An instance of [MapRange] fixes one such
    order for every map. *)
Class MapRange := {
  range : ∀ {V : Type}, gmap string V → list (string * V);
  range_perm : ∀ {V : Type} (m : gmap string V), range m ≡ₚ map_to_list m
}.

(** Modelled from the spec: package [pkg/signal] is imported by
    [pkg/fuzzer/scoring.go] but its source is not part of the sources at hand.
    The spec describes a coverage signal as an unordered set of opaque signal
    elements, possibly empty, and its signature as a canonical, comparable
    representation of that set.  A signal is therefore a finite set of
    [uint64] elements (the nil signal is the empty set); [ToRaw] lists the
    elements, each once, in some order, and [String] is a function of the
    set. *)
Module Signal.

Definition Empty (s : gset Z) : bool := bool_decide (s = ∅).

Definition Len (s : gset Z) : nat := size s.

Class Pkg := {
  ToRaw : gset Z → list Z;
  ToRaw_perm : ∀ s, ToRaw s ≡ₚ elements s;
  String : gset Z → string
}.

End Signal.

(** ** pkg/fuzzer/scoring.go: the score tracker *)

Module ScoreTracker.

Record ScoreConfig := mkConfig {
  CoverageWeight : R;
  RarityWeight : R;
  KernelLogWeight : R;
  TimeAnomalyWeight : R;
  Enabled : bool
}.

Definition DefaultScoreConfig : ScoreConfig :=
  {| CoverageWeight := 0.4; RarityWeight := 0.3; KernelLogWeight := 0.2;
     TimeAnomalyWeight := 0.1; Enabled := true |}.

(** [Timestamp] is a [time.Time]; it is represented by the number of
    nanoseconds since the zero time, so that the unset value is [0]. *)
Record ProgScore := mkScore {
  Total : R;
  Coverage : R;
  Rarity : R;
  KernelLog : R;
  TimeAnomaly : R;
  Timestamp : Z
}.

Record ExecutionResult := mkResult {
  Signal : gset Z;
  ExecTime : Z;                 (* uint64 *)
  KernelLogs : list string;
  Crashed : bool;
  Error : string
}.

Record t := mk {
  scores : gmap string ProgScore;
  pcHitCounts : gmap Z Z;       (* map[uint64]int64 *)
  pathFrequency : gmap string Z; (* map[string]int64 *)
  execTimeStats : TimeStats.t;
  logMatcher : KernelLogMatcher.t;
  config : ScoreConfig
}.

Definition NewScoreTracker (config : option ScoreConfig) : t :=
  {| scores := ∅; pcHitCounts := ∅; pathFrequency := ∅;
     execTimeStats := TimeStats.NewTimeStats;
     logMatcher := KernelLogMatcher.NewKernelLogMatcher;
     config := default DefaultScoreConfig config |}.

(** Reading a Go map of counters: a missing key reads as zero. *)
Definition counter {K} `{Countable K} (m : gmap K Z) (k : K) : Z :=
  default 0%Z (m !! k).

(** The score of a tracker that is switched off. *)
Definition neutral : ProgScore :=
  {| Total := 0.5; Coverage := 0; Rarity := 0; KernelLog := 0;
     TimeAnomaly := 0; Timestamp := 0 |}.

(** The loop of [calculateCoverageScore] over the raw signal: the variables
    are [newCoverage] and the hit counters. *)
Definition coverageStep (a : nat * gmap Z Z) (pc : Z) : nat * gmap Z Z :=
  (if decide (counter a.2 pc = 0%Z) then S a.1 else a.1,
   <[pc := Go.wrap_int64 (counter a.2 pc + 1)]> a.2).

Definition coverageLoop (raw : list Z) (counts : gmap Z Z) : nat * gmap Z Z :=
  fold_left coverageStep raw (O, counts).

Definition with_pcHitCounts (st : t) (m : gmap Z Z) : t :=
  {| scores := scores st; pcHitCounts := m; pathFrequency := pathFrequency st;
     execTimeStats := execTimeStats st; logMatcher := logMatcher st;
     config := config st |}.

Definition with_execTimeStats (st : t) (ts : TimeStats.t) : t :=
  {| scores := scores st; pcHitCounts := pcHitCounts st;
     pathFrequency := pathFrequency st; execTimeStats := ts;
     logMatcher := logMatcher st; config := config st |}.

Section WithSignal.
Context `{!Signal.Pkg}.

Definition calculateCoverageScore (st : t) (result : ExecutionResult) : R * t :=
  if Signal.Empty (Signal result) then (0%R, st)
  else
    let totalCoverage := Signal.Len (Signal result) in
    let loop := coverageLoop (Signal.ToRaw (Signal result)) (pcHitCounts st) in
    let newCoverage := loop.1 in
    let st' := with_pcHitCounts st loop.2 in
    if decide (totalCoverage = O) then (0%R, st')
    else
      let newCoverageRatio := (INR newCoverage / INR totalCoverage)%R in
      let score := (ln (1 + newCoverageRatio * exp 1) / ln (1 + exp 1))%R in
      (Go.Min score 1, st').

(** [math.Log] of a negative number is NaN; [ln] of the reals is used here,
    and frequencies are counters that start at zero. *)
Definition calculateRarityScore (st : t) (result : ExecutionResult) : R :=
  if Signal.Empty (Signal result) then 0%R
  else
    let signalKey := Signal.String (Signal result) in
    let frequency := counter (pathFrequency st) signalKey in
    if decide (frequency = 0%Z) then 1%R
    else
      let score := (1 / (1 + ln (IZR frequency)))%R in
      Go.Min score 1.

Definition calculateKernelLogScore (st : t) (result : ExecutionResult) : R :=
  match KernelLogs result with
  | [] => 0%R
  | _ => KernelLogMatcher.CalculateScore (logMatcher st) (KernelLogs result)
  end.

Definition calculateTimeAnomalyScore (st : t) (result : ExecutionResult) : R * t :=
  if decide (ExecTime result = 0%Z) then (0%R, st)
  else
    let r := TimeStats.CalculateAnomalyScore (execTimeStats st) (ExecTime result) in
    (r.1, with_execTimeStats st r.2).

Definition updateStatistics (st : t) (result : ExecutionResult) : t :=
  let freq :=
    if Signal.Empty (Signal result) then pathFrequency st
    else
      let signalKey := Signal.String (Signal result) in
      <[signalKey := Go.wrap_int64 (counter (pathFrequency st) signalKey + 1)]>
        (pathFrequency st) in
  let stats :=
    if decide (0 < ExecTime result)%Z
    then TimeStats.AddSample (execTimeStats st) (ExecTime result)
    else execTimeStats st in
  {| scores := scores st; pcHitCounts := pcHitCounts st; pathFrequency := freq;
     execTimeStats := stats; logMatcher := logMatcher st; config := config st |}.

(** [UpdateScore]: [progHash] is the value of [prog.Hash()] and [now] the
    value of [time.Now()] in this call. *)
Definition UpdateScore (st : t) (progHash : string) (now : Z)
    (execResult : ExecutionResult) : ProgScore * t :=
  if negb (Enabled (config st)) then (neutral, st)
  else
    let c := calculateCoverageScore st execResult in
    let coverageScore := c.1 in
    let rarityScore := calculateRarityScore c.2 execResult in
    let kernelLogScore := calculateKernelLogScore c.2 execResult in
    let a := calculateTimeAnomalyScore c.2 execResult in
    let timeAnomalyScore := a.1 in
    let totalScore :=
      (CoverageWeight (config st) * coverageScore +
       RarityWeight (config st) * rarityScore +
       KernelLogWeight (config st) * kernelLogScore +
       TimeAnomalyWeight (config st) * timeAnomalyScore)%R in
    let score :=
      {| Total := totalScore; Coverage := coverageScore; Rarity := rarityScore;
         KernelLog := kernelLogScore; TimeAnomaly := timeAnomalyScore;
         Timestamp := now |} in
    let st1 :=
      {| scores := <[progHash := score]> (scores a.2);
         pcHitCounts := pcHitCounts a.2; pathFrequency := pathFrequency a.2;
         execTimeStats := execTimeStats a.2; logMatcher := logMatcher a.2;
         config := config a.2 |} in
    (score, updateStatistics st1 execResult).

End WithSignal.

Definition GetScore (st : t) (progHash : string) : ProgScore :=
  match scores st !! progHash with
  | Some score => score
  | None => neutral
  end.

(** The local type [progScore] of [GetTopScoredProgs]. *)
Record progScore := mkPS { hash : string; score : R }.

(** The body of the inner loop: [progs[i]] and [progs[j]] are exchanged when
    the first has the smaller score.  Both indices are below [len(progs)]
    in every iteration of the loops. *)
Definition exchange (i : nat) (progs : list progScore) (j : nat) : list progScore :=
  match progs !! i, progs !! j with
  | Some a, Some b =>
      if decide (score a < score b)%R then <[j := a]> (<[i := b]> progs) else progs
  | _, _ => progs
  end.

Definition innerLoop (progs : list progScore) (i : nat) : list progScore :=
  fold_left (exchange i) (seq (i + 1) (length progs - (i + 1))) progs.

Definition sortLoop (progs : list progScore) : list progScore :=
  fold_left innerLoop (seq 0 (length progs - 1)) progs.

Section WithRange.
Context `{!MapRange}.

(** [GetTopScoredProgs]: [None] is the run-time panic of
    [make([]string, 0, limit)]; an element of type [string] has 16 bytes. *)
Definition GetTopScoredProgs (st : t) (limit : Z) : option (list string) :=
  let progs := map (λ e, mkPS e.1 (Total e.2)) (range (scores st)) in
  let progs := sortLoop progs in
  if decide (Go.makePanics 16 limit) then None
  else Some (map hash (take (Z.to_nat limit) progs)).

End WithRange.

End ScoreTracker.

(** ** pkg/fuzzer/scoring.go: the weighted selector *)

Module WeightedSelector.

Record t := mk {
  weights : gmap string R;
  cumulativeWeights : list R;
  progHashes : list string;
  needRebuild : bool
}.

Definition NewWeightedSelector : t :=
  {| weights := ∅; cumulativeWeights := []; progHashes := [];
     needRebuild := true |}.

Definition UpdateWeight (ws : t) (progHash : string) (weight : R) : t :=
  {| weights := <[progHash := weight]> (weights ws);
     cumulativeWeights := cumulativeWeights ws; progHashes := progHashes ws;
     needRebuild := true |}.

(** The variables of the loop of [rebuildWeightTable]. *)
Record table := mkTable { cumulative : R; cums : list R; hashes : list string }.

Definition rebuildStep (tb : table) (e : string * R) : table :=
  if decide (0 < e.2)%R then
    let c := (cumulative tb + e.2)%R in
    mkTable c (cums tb ++ [c]) (hashes tb ++ [e.1])
  else tb.

Definition rebuildLoop (visit : list (string * R)) : table :=
  fold_left rebuildStep visit (mkTable 0 [] []).

(** The binary search of [SelectWeighted].  [fuel] bounds the number of
    iterations; [right - left] of them are enough, since every iteration
    makes that difference smaller.  [None] stands for an index out of range
    (or for the fuel running out). *)
Fixpoint searchLoop (fuel : nat) (cw : list R) (target : R) (left right : nat)
    : option nat :=
  if decide (left < right)%nat then
    match fuel with
    | O => None
    | S fuel' =>
        let mid := ((left + right) / 2)%nat in
        match cw !! mid with
        | None => None
        | Some c =>
            if decide (c < target)%R
            then searchLoop fuel' cw target (mid + 1)%nat right
            else searchLoop fuel' cw target left mid
        end
    end
  else Some left.

Section WithRange.
Context `{!MapRange}.

Definition rebuildWeightTable (ws : t) : t :=
  let tb := rebuildLoop (range (weights ws)) in
  {| weights := weights ws; cumulativeWeights := cums tb;
     progHashes := hashes tb; needRebuild := false |}.

(** [SelectWeighted] returns the selected hash ([None] for a run-time panic
    on an index out of range) and the receiver, which may have been rebuilt. *)
Definition SelectWeighted (ws : t) (rnd : R) : option string * t :=
  let ws := if needRebuild ws then rebuildWeightTable ws else ws in
  match last (cumulativeWeights ws) with
  | None => (Some "", ws)
  | Some total =>
      let target := (rnd * total)%R in
      let n := length (cumulativeWeights ws) in
      let found :=
        left ← searchLoop (n - 1) (cumulativeWeights ws) target 0 (n - 1);
        progHashes ws !! left in
      (found, ws)
  end.

End WithRange.

(** The derived arrays belong to the weights: they are stale and marked so,
    or they are what a rebuild of the present weights yields for one order
    of the visit. *)
Definition consistent (ws : t) : Prop :=
  needRebuild ws = true ∨
  ∃ visit, visit ≡ₚ map_to_list (weights ws) ∧
           cumulativeWeights ws = cums (rebuildLoop visit) ∧
           progHashes ws = hashes (rebuildLoop visit).

(** The sum of the weights above zero. *)
Definition Rsum (l : list R) : R := foldr Rplus 0%R l.

Definition positiveTotal (m : gmap string R) : R :=
  Rsum (filter (λ w, (0 < w)%R) (map_to_list m).*2).

End WeightedSelector.

(** ** pkg/flatrpc/scoring_extensions.go: the metrics *)

Module ScoreMetrics.

(** The running averages are quotients whose divisor is a counter.  IEEE 754
    yields an infinity or NaN for a zero divisor, and such a value stays
    outside the numbers under the additions and multiplications below.
    An average is therefore an [option R], [None] for a value that is not a
    number. *)
Definition fdiv (x : option R) (y : R) : option R :=
  x' ← x; if decide (y = 0%R) then None else Some (x' / y)%R.

Definition fmul (x : option R) (y : R) : option R := (λ x', x' * y)%R <$> x.

Definition fadd (x : option R) (y : R) : option R := (λ x', x' + y)%R <$> x.

Record t := mk {
  TotalRequests : Z;                 (* int64 *)
  ScoreSelectedRequests : Z;         (* int64 *)
  AverageScore : option R;
  MaxScore : R;
  MinScore : R;
  AvgCoverageScore : option R;
  AvgRarityScore : option R;
  AvgKernelLogScore : option R;
  AvgTimeAnomalyScore : option R;
  TotalScoreCalculationTime : Z;     (* int64 *)
  TotalSmashJobs : Z;
  TotalSmashMutations : Z;
  SuccessfulMutations : Z;
  AverageSmashBaseScore : option R;
  LastUpdated : Z
}.

Definition NewScoreMetrics (now : Z) : t :=
  {| TotalRequests := 0; ScoreSelectedRequests := 0; AverageScore := Some 0%R;
     MaxScore := 0; MinScore := 1; AvgCoverageScore := Some 0%R;
     AvgRarityScore := Some 0%R; AvgKernelLogScore := Some 0%R;
     AvgTimeAnomalyScore := Some 0%R; TotalScoreCalculationTime := 0;
     TotalSmashJobs := 0; TotalSmashMutations := 0; SuccessfulMutations := 0;
     AverageSmashBaseScore := Some 0%R; LastUpdated := now |}.

(** The incremental mean [(avg*(count-1) + x) / count]. *)
Definition runningMean (avg : option R) (count x : R) : option R :=
  fdiv (fadd (fmul avg (count - 1)) x) count.

Definition UpdateMetrics (sm : t) (score : R) (scoreSelected : bool)
    (calculationTime now : Z) : t :=
  let total := Go.wrap_int64 (TotalRequests sm + 1) in
  let selected :=
    if scoreSelected then Go.wrap_int64 (ScoreSelectedRequests sm + 1)
    else ScoreSelectedRequests sm in
  let first := bool_decide (total = 1%Z) in
  {| TotalRequests := total; ScoreSelectedRequests := selected;
     AverageScore :=
       if first then Some score
       else fdiv (fadd (fmul (AverageScore sm) (IZR (Go.wrap_int64 (total - 1)))) score)
                 (IZR total);
     MaxScore :=
       if first then score
       else if decide (MaxScore sm < score)%R then score else MaxScore sm;
     MinScore :=
       if first then score
       else if decide (score < MinScore sm)%R then score else MinScore sm;
     AvgCoverageScore := AvgCoverageScore sm;
     AvgRarityScore := AvgRarityScore sm;
     AvgKernelLogScore := AvgKernelLogScore sm;
     AvgTimeAnomalyScore := AvgTimeAnomalyScore sm;
     TotalScoreCalculationTime :=
       Go.wrap_int64 (TotalScoreCalculationTime sm + calculationTime);
     TotalSmashJobs := TotalSmashJobs sm;
     TotalSmashMutations := TotalSmashMutations sm;
     SuccessfulMutations := SuccessfulMutations sm;
     AverageSmashBaseScore := AverageSmashBaseScore sm;
     LastUpdated := now |}.

Definition setAverages (sm : t) (coverage rarity kernelLog timeAnomaly : option R) : t :=
  {| TotalRequests := TotalRequests sm;
     ScoreSelectedRequests := ScoreSelectedRequests sm;
     AverageScore := AverageScore sm;
     MaxScore := MaxScore sm;
     MinScore := MinScore sm;
     AvgCoverageScore := coverage;
     AvgRarityScore := rarity;
     AvgKernelLogScore := kernelLog;
     AvgTimeAnomalyScore := timeAnomaly;
     TotalScoreCalculationTime := TotalScoreCalculationTime sm;
     TotalSmashJobs := TotalSmashJobs sm;
     TotalSmashMutations := TotalSmashMutations sm;
     SuccessfulMutations := SuccessfulMutations sm;
     AverageSmashBaseScore := AverageSmashBaseScore sm;
     LastUpdated := LastUpdated sm |}.

Definition UpdateDimensionScores (sm : t)
    (coverage rarity kernelLog timeAnomaly : R) : t :=
  if decide (TotalRequests sm = 1%Z) then
    setAverages sm (Some coverage) (Some rarity) (Some kernelLog) (Some timeAnomaly)
  else
    let count := IZR (TotalRequests sm) in
    setAverages sm
      (runningMean (AvgCoverageScore sm) count coverage)
      (runningMean (AvgRarityScore sm) count rarity)
      (runningMean (AvgKernelLogScore sm) count kernelLog)
      (runningMean (AvgTimeAnomalyScore sm) count timeAnomaly).

Definition GetScoreSelectionRatio (sm : t) : R :=
  if decide (TotalRequests sm = 0%Z) then 0%R
  else (IZR (ScoreSelectedRequests sm) / IZR (TotalRequests sm))%R.

Definition GetAverageCalculationTime (sm : t) : R :=
  if decide (TotalRequests sm = 0%Z) then 0%R
  else (IZR (TotalScoreCalculationTime sm) / IZR (TotalRequests sm))%R.

(** [UpdateSmashStats]: the two [int] arguments are within [int64] (the
    type [int] has 64 bits), so that their conversion changes nothing;
    [now] is the value of [time.Now()]. *)
Definition UpdateSmashStats (sm : t) (successfulMutations totalMutations : Z)
    (baseScore : R) (now : Z) : t :=
  let jobs := Go.wrap_int64 (TotalSmashJobs sm + 1) in
  {| TotalRequests := TotalRequests sm;
     ScoreSelectedRequests := ScoreSelectedRequests sm;
     AverageScore := AverageScore sm;
     MaxScore := MaxScore sm;
     MinScore := MinScore sm;
     AvgCoverageScore := AvgCoverageScore sm;
     AvgRarityScore := AvgRarityScore sm;
     AvgKernelLogScore := AvgKernelLogScore sm;
     AvgTimeAnomalyScore := AvgTimeAnomalyScore sm;
     TotalScoreCalculationTime := TotalScoreCalculationTime sm;
     TotalSmashJobs := jobs;
     TotalSmashMutations := Go.wrap_int64 (TotalSmashMutations sm + totalMutations);
     SuccessfulMutations :=
       Go.wrap_int64 (SuccessfulMutations sm + successfulMutations);
     AverageSmashBaseScore :=
       if decide (jobs = 1%Z) then Some baseScore
       else runningMean (AverageSmashBaseScore sm) (IZR jobs) baseScore;
     LastUpdated := now |}.

Definition GetSmashSuccessRate (sm : t) : R :=
  if decide (TotalSmashMutations sm = 0%Z) then 0%R
  else (IZR (SuccessfulMutations sm) / IZR (TotalSmashMutations sm))%R.

Definition GetAverageSmashMutationsPerJob (sm : t) : R :=
  if decide (TotalSmashJobs sm = 0%Z) then 0%R
  else (IZR (TotalSmashMutations sm) / IZR (TotalSmashJobs sm))%R.

End ScoreMetrics.

(** ** Notions used to state the properties *)

Module Stats.

Definition sumZ (l : list Z) : Z := foldr Z.add 0%Z l.

(** The mean that [recalculateStats] stores: the sum is taken in [uint64]. *)
Definition meanOf (l : list Z) : R :=
  (IZR (sumZ l mod 2 ^ 64) / INR (length l))%R.

Definition sumSq (m : R) (l : list Z) : R :=
  foldr (λ x acc, ((IZR x - m) * (IZR x - m) + acc)%R) 0%R l.

(** The standard deviation of the samples around their stored mean. *)
Definition stdDevOf (l : list Z) : R :=
  sqrt (sumSq (meanOf l) l / INR (length l)).

(** What every sequence of calls on a [TimeStats] keeps true. *)
Definition inv (ts : TimeStats.t) : Prop :=
  TimeStats.maxSamples ts = 10000%Z ∧
  (0 <= TimeStats.stdDev ts)%R ∧
  (TimeStats.count ts ≠ 0%Z → TimeStats.samples ts ≠ []) ∧
  (TimeStats.needRecalc ts = false →
     TimeStats.samples ts ≠ [] ∧
     TimeStats.mean ts = meanOf (TimeStats.samples ts) ∧
     TimeStats.stdDev ts = stdDevOf (TimeStats.samples ts)).

(** The full buffer of a fresh [TimeStats] after the 10000 samples
    [1, 2, ..., 10000]. *)
Definition fullBuffer : TimeStats.t :=
  TimeStats.run (TimeStats.CallAddSample <$> seqZ 1 10000).

End Stats.

(** Implementations of the two interfaces, for the examples: the visit of
    a map in the order of [map_to_list], and a signal package that lists the
    elements in the order of [elements] and prints them, separated by
    commas, as the signature. *)
Module Instances.

Definition rangeDefault : MapRange :=
  {| range := λ V m, map_to_list m;
     range_perm := λ V m, Permutation_refl (map_to_list m) |}.

Definition signalDefault : Signal.Pkg :=
  {| Signal.ToRaw := elements;
     Signal.ToRaw_perm := λ s, Permutation_refl (elements s);
     Signal.String := λ s, String.concat "," (pretty <$> elements s) |}.

(** An example of an answer of [regexp.Compile] beyond the fragment: the
    expression [x+], which matches the strings that contain an [x].  It
    serves as an example only. *)
Definition regexpPlus : Regexp.Pkg :=
  {| Regexp.compileBeyond := λ expr,
       if String.eqb expr "x+" then Some (λ s, Strings.Contains s "x")
       else None |}.

End Instances.

(** Sequences of [UpdateScore] calls on one tracker.  The configuration can
    be replaced between two calls ([Fuzzer.UpdateScoreConfig] of
    [pkg/fuzzer/fuzzer.go] assigns [scoreTracker.config]), so every call
    comes with the configuration in force when it is made. *)
Module TrackerRuns.

Record call := mkCall {
  callConfig : ScoreTracker.ScoreConfig;
  callHash : string;
  callNow : Z;
  callResult : ScoreTracker.ExecutionResult
}.

Definition with_config (st : ScoreTracker.t) (cfg : ScoreTracker.ScoreConfig)
    : ScoreTracker.t :=
  {| ScoreTracker.scores := ScoreTracker.scores st;
     ScoreTracker.pcHitCounts := ScoreTracker.pcHitCounts st;
     ScoreTracker.pathFrequency := ScoreTracker.pathFrequency st;
     ScoreTracker.execTimeStats := ScoreTracker.execTimeStats st;
     ScoreTracker.logMatcher := ScoreTracker.logMatcher st;
     ScoreTracker.config := cfg |}.

Definition step `{!Signal.Pkg} (st : ScoreTracker.t) (c : call) : ScoreTracker.t :=
  (ScoreTracker.UpdateScore (with_config st (callConfig c))
     (callHash c) (callNow c) (callResult c)).2.

Definition run `{!Signal.Pkg} (calls : list call) : ScoreTracker.t :=
  fold_left step calls (ScoreTracker.NewScoreTracker None).

(** In how many of the enabled calls the element [pc] occurs in the signal. *)
Definition occurrences (pc : Z) (calls : list call) : nat :=
  length (filter (λ c, ScoreTracker.Enabled (callConfig c) = true ∧
                       pc ∈ ScoreTracker.Signal (callResult c)) calls).

(** The elements of a signal whose hit counter is zero. *)
Definition newElements (st : ScoreTracker.t) (s : gset Z) : list Z :=
  filter (λ pc, ScoreTracker.counter (ScoreTracker.pcHitCounts st) pc = 0%Z)
         (elements s).

End TrackerRuns.

(** Inputs of the examples. *)
Module Examples.

Definition configOff : ScoreTracker.ScoreConfig :=
  {| ScoreTracker.CoverageWeight := 0.4; ScoreTracker.RarityWeight := 0.3;
     ScoreTracker.KernelLogWeight := 0.2; ScoreTracker.TimeAnomalyWeight := 0.1;
     ScoreTracker.Enabled := false |}.

(** An outcome that carries the signal [s] and nothing else. *)
Definition outcome (s : gset Z) : ScoreTracker.ExecutionResult :=
  {| ScoreTracker.Signal := s; ScoreTracker.ExecTime := 0;
     ScoreTracker.KernelLogs := []; ScoreTracker.Crashed := false;
     ScoreTracker.Error := "" |}.

Definition callOf (hash : string) (s : gset Z) : TrackerRuns.call :=
  TrackerRuns.mkCall ScoreTracker.DefaultScoreConfig hash 0 (outcome s).

End Examples.

(** Lists in descending order of score. *)
Module Order.

Definition descending (l : list ScoreTracker.progScore) : Prop :=
  ∀ i j a b, (i < j)%nat → l !! i = Some a → l !! j = Some b →
             (ScoreTracker.score b <= ScoreTracker.score a)%R.

(** The entries of the score cache as [progScore] values. *)
Definition entries (st : ScoreTracker.t) : list ScoreTracker.progScore :=
  map (λ e, ScoreTracker.mkPS e.1 (ScoreTracker.Total e.2))
      (map_to_list (ScoreTracker.scores st)).

(** The state of the inner loop of [GetTopScoredProgs] before the
    iteration [j], for the outer index [i] and the list [l0] at its start. *)
Definition innerInv (i : nat) (l0 : list ScoreTracker.progScore) (j : nat)
    (l : list ScoreTracker.progScore) : Prop :=
  length l = length l0 ∧ l ≡ₚ l0 ∧
  (∀ k, (k < i)%nat → l !! k = l0 !! k) ∧
  (∀ k b, (i ≤ k)%nat → l !! k = Some b →
          ∃ k', (i ≤ k')%nat ∧ l0 !! k' = Some b) ∧
  (∀ k a b, (i < k < j)%nat → l !! i = Some a → l !! k = Some b →
            (ScoreTracker.score b <= ScoreTracker.score a)%R).

(** The state of the outer loop before the iteration [i]: every position
    below [i] holds an entry that no later position exceeds. *)
Definition outerInv (l0 : list ScoreTracker.progScore) (i : nat)
    (l : list ScoreTracker.progScore) : Prop :=
  length l = length l0 ∧ l ≡ₚ l0 ∧
  (∀ k k' a b, (k < i)%nat → (k < k')%nat → l !! k = Some a → l !! k' = Some b →
               (ScoreTracker.score b <= ScoreTracker.score a)%R).

End Order.

(** The roulette wheel that a rebuild lays out. *)
Module Wheel.

(** The entries that a rebuild keeps, in the order of the visit. *)
Definition positive (visit : list (string * R)) : list (string * R) :=
  filter (λ e, (0 < e.2)%R) visit.

(** The running sums [c + w1, c + w1 + w2, ...]. *)
Fixpoint prefixSums (c : R) (ws : list R) : list R :=
  match ws with
  | [] => []
  | w :: ws' => (c + w)%R :: prefixSums (c + w) ws'
  end.

(** The derived arrays are those of the visit [visit] of the weights. *)
Definition laidOut (ws : WeightedSelector.t) (visit : list (string * R)) : Prop :=
  visit ≡ₚ map_to_list (WeightedSelector.weights ws) ∧
  WeightedSelector.cumulativeWeights ws = prefixSums 0 (positive visit).*2 ∧
  WeightedSelector.progHashes ws = (positive visit).*1.

End Wheel.

(** The samples that a sequence of calls on a [TimeStats] has added, oldest
    first. *)
Module History.

Fixpoint addedSamples (calls : list TimeStats.call) : list Z :=
  match calls with
  | [] => []
  | TimeStats.CallAddSample x :: calls' => x :: addedSamples calls'
  | _ :: calls' => addedSamples calls'
  end.

End History.

(** ** pkg/fuzzer/kernel_log_matcher.go: the other methods of the matcher *)

Module LogMatcherMore.

(** The loop variables of [GetMatchedPatterns]. *)
Record found := mkFound { matched : list string; matchedSet : gmap string bool }.

Definition foundStep (log : string) (a : found)
    (pattern : KernelLogMatcher.LogPattern) : found :=
  if Regexp.MatchString (KernelLogMatcher.Pattern pattern) log then
    if negb (default false
               (matchedSet a !! KernelLogMatcher.Description pattern)) then
      mkFound (matched a ++ [KernelLogMatcher.Description pattern])
              (<[KernelLogMatcher.Description pattern := true]> (matchedSet a))
    else a
  else a.

Definition foundLine (klm : KernelLogMatcher.t) (a : found) (log : string) : found :=
  let log := Strings.TrimSpace log in
  if decide (log = "") then a
  else fold_left (foundStep log) (KernelLogMatcher.patterns klm) a.

Definition GetMatchedPatterns (klm : KernelLogMatcher.t) (logs : list string)
    : list string :=
  matched (fold_left (foundLine klm) logs (mkFound [] ∅)).

(** [AddCustomPattern] returns whether it failed, and the receiver. *)
Definition AddCustomPattern `{!Regexp.Pkg} (klm : KernelLogMatcher.t)
    (regex : string) (score : R) (description : string)
    : bool * KernelLogMatcher.t :=
  match Regexp.Compile regex with
  | None => (true, klm)
  | Some pattern =>
      (false,
       KernelLogMatcher.mk
         (KernelLogMatcher.patterns klm ++
          [KernelLogMatcher.mkPattern pattern score description]))
  end.

(** A line that is left after trimming. *)
Definition nonBlank (log : string) : Prop := Strings.TrimSpace log ≠ "".

(** The description [d] belongs to a pattern that matches a line of the logs. *)
Definition hits (klm : KernelLogMatcher.t) (logs : list string) (d : string) : Prop :=
  ∃ log pattern,
    log ∈ logs ∧ nonBlank log ∧ pattern ∈ KernelLogMatcher.patterns klm ∧
    KernelLogMatcher.Description pattern = d ∧
    Regexp.MatchString (KernelLogMatcher.Pattern pattern) (Strings.TrimSpace log) = true.

(** What the variables of [GetMatchedPatterns] keep true: the list has no
    repetition, the map marks exactly its elements, and marks them [true]. *)
Definition foundInv (a : found) : Prop :=
  NoDup (matched a) ∧
  (∀ d, default false (matchedSet a !! d) = true ↔ d ∈ matched a) ∧
  size (matchedSet a) = length (matched a) ∧
  (∀ d v, matchedSet a !! d = Some v → v = true).

(** The variables of [CalculateScore] and of [GetMatchedPatterns] after the
    same lines, for a table whose severities lie between [lo] and [hi]. *)
Definition linked (lo hi : R) (a : KernelLogMatcher.acc) (f : found) : Prop :=
  KernelLogMatcher.matchedPatterns a = matchedSet f ∧
  (matched f = [] → KernelLogMatcher.maxScore a = 0%R) ∧
  (matched f ≠ [] → (lo <= KernelLogMatcher.maxScore a <= hi)%R).

(** The variables of [CalculateScore] for a table and for the same table
    with one more pattern, of description [d], at its end. *)
Definition dominated (d : string) (a a' : KernelLogMatcher.acc) : Prop :=
  (KernelLogMatcher.maxScore a <= KernelLogMatcher.maxScore a')%R ∧
  KernelLogMatcher.matchedPatterns a !! d = None ∧
  (KernelLogMatcher.matchedPatterns a' = KernelLogMatcher.matchedPatterns a ∨
   KernelLogMatcher.matchedPatterns a' =
     <[d := true]> (KernelLogMatcher.matchedPatterns a)).

End LogMatcherMore.

(** How often the earlier enabled calls of a run have met a signature. *)
Module Sightings.

Definition sightings `{!Signal.Pkg} (key : string)
    (calls : list TrackerRuns.call) : nat :=
  length (filter
            (λ c, ScoreTracker.Enabled (TrackerRuns.callConfig c) = true ∧
                  ScoreTracker.Signal (TrackerRuns.callResult c) ≠ ∅ ∧
                  Signal.String (ScoreTracker.Signal (TrackerRuns.callResult c)) = key)
            calls).

(** Weights that a configuration is expected to carry. *)
Definition validWeights (cfg : ScoreTracker.ScoreConfig) : Prop :=
  (0 <= ScoreTracker.CoverageWeight cfg)%R ∧ (0 <= ScoreTracker.RarityWeight cfg)%R ∧
  (0 <= ScoreTracker.KernelLogWeight cfg)%R ∧
  (0 <= ScoreTracker.TimeAnomalyWeight cfg)%R ∧
  (ScoreTracker.CoverageWeight cfg + ScoreTracker.RarityWeight cfg +
   ScoreTracker.KernelLogWeight cfg + ScoreTracker.TimeAnomalyWeight cfg = 1)%R.

End Sightings.

(** Sequences of calls on a weighted selector, from a new one. *)
Module SelectorRuns.

Inductive call :=
  | CallUpdateWeight (progHash : string) (weight : R)
  | CallSelectWeighted (rnd : R).

Definition step `{!MapRange} (ws : WeightedSelector.t) (c : call)
    : WeightedSelector.t :=
  match c with
  | CallUpdateWeight progHash weight =>
      WeightedSelector.UpdateWeight ws progHash weight
  | CallSelectWeighted rnd => (WeightedSelector.SelectWeighted ws rnd).2
  end.

Definition run `{!MapRange} (calls : list call) : WeightedSelector.t :=
  fold_left step calls WeightedSelector.NewWeightedSelector.

(** The weight that the calls have given last to every identity. *)
Definition latest (calls : list call) : gmap string R :=
  fold_left (λ m c, match c with
                    | CallUpdateWeight progHash weight => <[progHash := weight]> m
                    | CallSelectWeighted _ => m
                    end) calls ∅.

End SelectorRuns.

(** The metrics as the fuzzer keeps them: [processResult] records every
    result with [UpdateMetrics] and then [UpdateDimensionScores], and a
    smash job that has run mutations reports them with [UpdateSmashStats]. *)
Module MetricsRuns.

Record result := mkResult {
  total : R; coverage : R; rarity : R; kernelLog : R; timeAnomaly : R;
  scoreSelected : bool; calculationTime : Z; now : Z
}.

Record smash := mkSmash {
  successfulMutations : Z; totalMutations : Z; baseScore : R; finished : Z
}.

Inductive event :=
  | Result (r : result)
  | Smash (j : smash).

Definition record (sm : ScoreMetrics.t) (r : result) : ScoreMetrics.t :=
  ScoreMetrics.UpdateDimensionScores
    (ScoreMetrics.UpdateMetrics sm (total r) (scoreSelected r)
       (calculationTime r) (now r))
    (coverage r) (rarity r) (kernelLog r) (timeAnomaly r).

Definition report (sm : ScoreMetrics.t) (j : smash) : ScoreMetrics.t :=
  ScoreMetrics.UpdateSmashStats sm (successfulMutations j) (totalMutations j)
    (baseScore j) (finished j).

Definition step (sm : ScoreMetrics.t) (e : event) : ScoreMetrics.t :=
  match e with
  | Result r => record sm r
  | Smash j => report sm j
  end.

Definition run (es : list event) : ScoreMetrics.t :=
  fold_left step es (ScoreMetrics.NewScoreMetrics 0).

Fixpoint results (es : list event) : list result :=
  match es with
  | [] => []
  | Result r :: es' => r :: results es'
  | Smash _ :: es' => results es'
  end.

Fixpoint smashes (es : list event) : list smash :=
  match es with
  | [] => []
  | Result _ :: es' => smashes es'
  | Smash j :: es' => j :: smashes es'
  end.

(** What a smash job hands over: it has run at least one mutation and has
    counted no more successes than mutations. *)
Definition plausible (j : smash) : Prop :=
  (0 ≤ successfulMutations j ≤ totalMutations j)%Z ∧ (1 ≤ totalMutations j)%Z.

(** The arithmetic mean of a list of numbers. *)
Definition mean (l : list R) : R :=
  (WeightedSelector.Rsum l / INR (length l))%R.

Definition selected (rs : list result) : nat :=
  length (filter (λ r, scoreSelected r = true) rs).

End MetricsRuns.

(** ** pkg/fuzzer/kernel_log_matcher.go, package queue: the weighted queue *)

(** The queue holds pointers to requests, and so may its callers: a
    request is an object of a heap, a pointer an address of it, and the nil
    pointer an address that the heap does not hold.  Reading or writing
    through such a pointer is a run-time panic, [None] below. *)
Module WeightedQueue.

Record ScoreDetails := mkDetails {
  Coverage : R; Rarity : R; KernelLog : R; TimeAnomaly : R; Total : R
}.

(** [Request] is the address of the embedded [*Request], [scoreDetails] the
    field [ScoreDetails]. *)
Record ScoringRequest := mkRequest {
  Request : Z;
  Score : R;
  ScoreTimestamp : Z;
  ScoreSelected : bool;
  scoreDetails : option ScoreDetails
}.

Notation ptr := positive (only parsing).

Notation heap := (gmap ptr ScoringRequest) (only parsing).

(** The object that [NewScoringRequest] allocates; [now] is the value of
    [time.Now()]. *)
Definition NewScoringRequest (req : Z) (score : R) (details : option ScoreDetails)
    (now : Z) : ScoringRequest :=
  {| Request := req; Score := score; ScoreTimestamp := now;
     ScoreSelected := false; scoreDetails := details |}.

Record t := mk {
  requests : list ptr;
  weights : list R;
  totalWeight : R
}.

Definition NewWeightedQueue : t :=
  {| requests := []; weights := []; totalWeight := 0 |}.

Definition SubmitScored (h : heap) (wq : t) (req : ptr) : option t :=
  r ← h !! req;
  let weight := if decide (Score r <= 0)%R then 0.01%R else Score r in
  Some {| requests := requests wq ++ [req];
          weights := weights wq ++ [weight];
          totalWeight := totalWeight wq + weight |}.

(** [removeAt]: the two [copy] calls and the re-slicing delete the element
    at [index] of either slice. *)
Definition removeAt (wq : t) (index : Z) : option t :=
  if decide (index < 0 ∨ Z.of_nat (length (requests wq)) ≤ index)%Z then Some wq
  else
    w ← weights wq !! Z.to_nat index;
    Some {| requests := delete (Z.to_nat index) (requests wq);
            weights := delete (Z.to_nat index) (weights wq);
            totalWeight := totalWeight wq - w |}.

(** The loop of [NextWeighted] over the weights from the index [i] on:
    the first index at which the cumulative weight reaches the target. *)
Fixpoint pick (ws : list R) (cumulative target : R) (i : nat) : option nat :=
  match ws with
  | [] => None
  | weight :: ws' =>
      let cumulative := (cumulative + weight)%R in
      if decide (target <= cumulative)%R then Some i
      else pick ws' cumulative target (S i)
  end.

Definition markSelected (r : ScoringRequest) : ScoringRequest :=
  {| Request := Request r; Score := Score r; ScoreTimestamp := ScoreTimestamp r;
     ScoreSelected := true; scoreDetails := scoreDetails r |}.

(** The statements [req := wq.requests[i]; wq.removeAt(i);
    req.ScoreSelected = true; return req]. *)
Definition selectAt (h : heap) (wq : t) (i : nat) : option (option ptr * heap * t) :=
  req ← requests wq !! i;
  wq' ← removeAt wq (Z.of_nat i);
  r ← h !! req;
  Some (Some req, <[req := markSelected r]> h, wq').

(** [NextWeighted] returns the selected pointer ([None] for [nil]), the
    heap and the queue after the call. *)
Definition NextWeighted (h : heap) (wq : t) (rnd : R)
    : option (option ptr * heap * t) :=
  if decide (length (requests wq) = 0%nat ∨ (totalWeight wq <= 0)%R)
  then Some (None, h, wq)
  else
    let target := (rnd * totalWeight wq)%R in
    match pick (weights wq) 0 target 0 with
    | Some i => selectAt h wq i
    | None =>
        if decide (0 < length (requests wq))%nat
        then selectAt h wq (length (requests wq) - 1)
        else Some (None, h, wq)
    end.

Definition Len (wq : t) : Z := Z.of_nat (length (requests wq)).

Definition Clear (wq : t) : t :=
  {| requests := []; weights := []; totalWeight := 0 |}.

(** The body of the inner loop of [GetTopScored] on the copy of the
    requests. *)
Definition exchange (h : heap) (i : nat) (requests : list ptr) (j : nat)
    : option (list ptr) :=
  a ← requests !! i;
  b ← requests !! j;
  ra ← h !! a;
  rb ← h !! b;
  if decide (Score ra < Score rb)%R
  then Some (<[j := a]> (<[i := b]> requests))
  else Some requests.

Definition innerLoop (h : heap) (requests : list ptr) (i : nat) : option (list ptr) :=
  fold_left (λ acc j, l ← acc; exchange h i l j)
            (seq (i + 1) (length requests - (i + 1))) (Some requests).

Definition sortLoop (h : heap) (requests : list ptr) : option (list ptr) :=
  fold_left (λ acc i, l ← acc; innerLoop h l i)
            (seq 0 (length requests - 1)) (Some requests).

(** [GetTopScored]: the result [nil] is the empty list. *)
Definition GetTopScored (h : heap) (wq : t) (n : Z) : option (list ptr) :=
  if decide ((n ≤ 0)%Z ∨ length (requests wq) = 0%nat) then Some []
  else
    sorted ← sortLoop h (requests wq);
    let n := if decide (Z.of_nat (length sorted) < n)%Z
             then Z.of_nat (length sorted) else n in
    Some (take (Z.to_nat n) sorted).

Definition GetAverageScore (h : heap) (wq : t) : option R :=
  if decide (length (requests wq) = 0%nat) then Some 0%R
  else
    total ← fold_left (λ acc req, total ← acc; r ← h !! req;
                                  Some (total + Score r)%R)
                      (requests wq) (Some 0%R);
    Some (total / INR (length (requests wq)))%R.

End WeightedQueue.

(** Sequences of calls on a weighted queue, from a new one. *)
Module QueueRuns.

(** The slices of the queue belong together. *)
Definition wf (wq : WeightedQueue.t) : Prop :=
  length (WeightedQueue.weights wq) = length (WeightedQueue.requests wq) ∧
  Forall (λ w, 0 < w)%R (WeightedQueue.weights wq) ∧
  WeightedQueue.totalWeight wq = WeightedSelector.Rsum (WeightedQueue.weights wq).

(** No request of the queue is nil. *)
Definition valid (h : WeightedQueue.heap) (wq : WeightedQueue.t) : Prop :=
  Forall (λ req, is_Some (h !! req)) (WeightedQueue.requests wq).

(** The present score of a request. *)
Definition score (h : WeightedQueue.heap) (req : WeightedQueue.ptr) : R :=
  from_option WeightedQueue.Score 0%R (h !! req).

(** [CallWrite] is a write to a request by another holder of its pointer. *)
Inductive call :=
  | CallSubmitScored (req : WeightedQueue.ptr)
  | CallNextWeighted (rnd : R)
  | CallClear
  | CallWrite (req : WeightedQueue.ptr) (r : WeightedQueue.ScoringRequest).

Definition step (s : WeightedQueue.heap * WeightedQueue.t) (c : call)
    : option (WeightedQueue.heap * WeightedQueue.t) :=
  match c with
  | CallSubmitScored req =>
      wq ← WeightedQueue.SubmitScored s.1 s.2 req; Some (s.1, wq)
  | CallNextWeighted rnd =>
      out ← WeightedQueue.NextWeighted s.1 s.2 rnd; Some (out.1.2, out.2)
  | CallClear => Some (s.1, WeightedQueue.Clear s.2)
  | CallWrite req r => _ ← s.1 !! req; Some (<[req := r]> s.1, s.2)
  end.

Definition run (h0 : WeightedQueue.heap) (calls : list call)
    : option (WeightedQueue.heap * WeightedQueue.t) :=
  fold_left (λ acc c, s ← acc; step s c) calls
            (Some (h0, WeightedQueue.NewWeightedQueue)).

(** The pointers that the calls pass are pointers to requests. *)
Definition known (h0 : WeightedQueue.heap) (c : call) : Prop :=
  match c with
  | CallSubmitScored req | CallWrite req _ => is_Some (h0 !! req)
  | _ => True
  end.

(** One call of [NextWeighted] for every number of [rnds], with the
    pointers returned. *)
Fixpoint drain (h : WeightedQueue.heap) (wq : WeightedQueue.t) (rnds : list R)
    : option (list (option WeightedQueue.ptr) * WeightedQueue.heap * WeightedQueue.t) :=
  match rnds with
  | [] => Some ([], h, wq)
  | rnd :: rnds' =>
      out ← WeightedQueue.NextWeighted h wq rnd;
      rest ← drain out.1.2 out.2 rnds';
      Some (out.1.1 :: rest.1.1, rest.1.2, rest.2)
  end.

(** The index of the request that [NextWeighted] takes from a queue that
    is not empty: where the loop stops, or else the last one. *)
Definition nextIndex (wq : WeightedQueue.t) (rnd : R) : nat :=
  match WeightedQueue.pick (WeightedQueue.weights wq) 0
          (rnd * WeightedQueue.totalWeight wq) 0 with
  | Some i => i
  | None => length (WeightedQueue.requests wq) - 1
  end.

Definition descending (h : WeightedQueue.heap) (l : list WeightedQueue.ptr) : Prop :=
  ∀ i j a b, (i < j)%nat → l !! i = Some a → l !! j = Some b →
             (score h b <= score h a)%R.

(** The state of the inner loop of [GetTopScored] before the iteration [j],
    for the outer index [i] and the list [l0] at its start. *)
Definition innerInv (h : WeightedQueue.heap) (i : nat) (l0 : list WeightedQueue.ptr)
    (j : nat) (l : list WeightedQueue.ptr) : Prop :=
  length l = length l0 ∧ l ≡ₚ l0 ∧
  (∀ k, (k < i)%nat → l !! k = l0 !! k) ∧
  (∀ k b, (i ≤ k)%nat → l !! k = Some b →
          ∃ k', (i ≤ k')%nat ∧ l0 !! k' = Some b) ∧
  (∀ k a b, (i < k < j)%nat → l !! i = Some a → l !! k = Some b →
            (score h b <= score h a)%R).

(** The state of the outer loop before the iteration [i]. *)
Definition outerInv (h : WeightedQueue.heap) (l0 : list WeightedQueue.ptr) (i : nat)
    (l : list WeightedQueue.ptr) : Prop :=
  length l = length l0 ∧ l ≡ₚ l0 ∧
  (∀ k k' a b, (k < i)%nat → (k < k')%nat → l !! k = Some a → l !! k' = Some b →
               (score h b <= score h a)%R).

End QueueRuns.

(** A heap of two requests, of scores 0.5 and 0, and the queue that holds
    both. *)
Module QueueExamples.

Definition heap2 : WeightedQueue.heap :=
  {[ 1%positive := WeightedQueue.NewScoringRequest 0 0.5 None 0;
     2%positive := WeightedQueue.NewScoringRequest 0 0 None 0 ]}.

Definition queue2 : WeightedQueue.t :=
  {| WeightedQueue.requests := [1%positive; 2%positive];
     WeightedQueue.weights := [0.5%R; 0.01%R];
     WeightedQueue.totalWeight := 0 + 0.5 + 0.01 |}.

End QueueExamples.

(** ** pkg/fuzzer/fuzzer.go and the smash job: what they hand to the scoring *)

Module Fuzzer.

(** The loop of [calculateProgScore] that collects the kernel log lines of
    the output of an execution. *)
Definition isLogLine (line : string) : bool :=
  negb (String.eqb line "") &&
  (Strings.Contains line "KASAN" || Strings.Contains line "WARNING" ||
   Strings.Contains line "ERROR" || Strings.Contains line "Oops" ||
   Strings.Contains line "panic").

Definition collectStep (logs : list string) (line : string) : list string :=
  let line := Strings.TrimSpace line in
  if isLogLine line then logs ++ [line] else logs.

(** The field [KernelLogs] that [calculateProgScore] builds from the output
    [res.Output]; [info] tells whether [res.Info] is there (not nil), and
    the byte 10 is the line feed. *)
Definition kernelLogs (info : bool) (output : string) : list string :=
  if info && negb (String.eqb output "")
  then fold_left collectStep (Strings.Split output (ascii_of_nat 10)) []
  else [].

(** The start of the method [run] of [smashJob]: the base score of the
    program and the number of iterations of the loop.  [enabled] is
    [fuzzer.Config.ScoreConfig.Enabled]. *)
Definition baseScore (enabled : bool) (st : ScoreTracker.t) (hash : string) : R :=
  if enabled then ScoreTracker.Total (ScoreTracker.GetScore st hash) else 0.5%R.

Definition iters (enabled : bool) (baseScore : R) : Z :=
  if enabled then Go.int (15 + baseScore * 35) else 25%Z.

End Fuzzer.

(** * Properties *)

(** ** Time statistics *)

Section TimeStatsFacts.
Import TimeStats Stats.

Lemma copy_tail {A} (s : list A) (h : nat) :
  Go.copy s (drop h s) = drop h s ++ drop (length s - h) s.
Proof.
  unfold Go.copy. rewrite length_drop.
  replace (length s `min` (length s - h)) with (length s - h) by lia.
  f_equal. apply take_ge. rewrite length_drop. lia.
Qed.

(** What a compacting [AddSample] keeps: the positions [h .. 2h-1] of the
    slice after the append, where [h = maxSamples/2]. *)
Lemma AddSample_compacts (ts : t) (x : Z) :
  let h := Z.to_nat (maxSamples ts `quot` 2) in
  (0 ≤ maxSamples ts)%Z →
  (maxSamples ts < Z.of_nat (length (samples ts ++ [x])))%Z →
  samples (AddSample ts x) = take h (drop h (samples ts ++ [x])).
Proof.
  intros h Hpos Hlen. unfold AddSample. cbn [samples].
  rewrite decide_True by done. fold h.
  rewrite copy_tail. apply take_app_le.
  rewrite length_drop.
  assert (2 * Z.of_nat h <= maxSamples ts)%Z.
  { unfold h. rewrite Z2Nat.id by (apply Z.quot_pos; lia).
    pose proof (Z.quot_rem' (maxSamples ts) 2).
    pose proof (Z.rem_nonneg (maxSamples ts) 2). lia. }
  lia.
Qed.

(** When the buffer was full, the kept samples are old ones only: the
    result is the same whatever sample has just been appended. *)
Lemma AddSample_full_buffer (ts : t) (x : Z) :
  let h := Z.to_nat (maxSamples ts `quot` 2) in
  Z.of_nat (length (samples ts)) = maxSamples ts →
  samples (AddSample ts x) = take h (drop h (samples ts)).
Proof.
  intros h Hfull.
  rewrite AddSample_compacts by (rewrite ?length_app; simpl; lia).
  fold h.
  assert (2 * Z.of_nat h <= maxSamples ts)%Z.
  { unfold h. rewrite Z2Nat.id by (apply Z.quot_pos; lia).
    pose proof (Z.quot_rem' (maxSamples ts) 2).
    pose proof (Z.rem_nonneg (maxSamples ts) 2). lia. }
  rewrite drop_app_le by lia.
  apply take_app_le. rewrite length_drop. lia.
Qed.

Lemma samples_adds (l : list Z) (ts : t) :
  (Z.of_nat (length (samples ts) + length l) ≤ maxSamples ts)%Z →
  samples (fold_left step (CallAddSample <$> l) ts) = samples ts ++ l.
Proof.
  revert ts. induction l as [|x l IH]; intros ts Hlen; simpl.
  - by rewrite app_nil_r.
  - simpl in Hlen.
    assert (Hs : samples (AddSample ts x) = samples ts ++ [x]).
    { unfold AddSample. cbn [samples]. rewrite decide_False; [done|].
      rewrite length_app. simpl. lia. }
    rewrite IH.
    + rewrite Hs. by rewrite <- app_assoc.
    + rewrite Hs, length_app. simpl.
      replace (maxSamples (AddSample ts x)) with (maxSamples ts) by done. lia.
Qed.

Lemma maxSamples_steps (cs : list call) (ts : t) :
  maxSamples (fold_left step cs ts) = maxSamples ts.
Proof.
  revert ts. induction cs as [|c cs IH]; intros ts; [done|].
  simpl. rewrite IH. destruct c; simpl; try done.
  - unfold CalculateAnomalyScore. repeat case_decide; simpl; try done;
      destruct (needRecalc ts); try done;
      unfold recalculateStats; by destruct (samples ts).
  - destruct (needRecalc ts); try done.
    unfold recalculateStats; by destruct (samples ts).
Qed.

(** C6.  [AddSample] on a full buffer (10000 samples, the capacity set by
    [NewTimeStats]) triggers the compaction, and the buffer that results
    holds the old samples 5001 .. 10000: the sample 10001 that the call
    has appended is dropped together with the oldest half, so what is
    retained is not the newest half (the samples 5002 .. 10001). *)
Theorem AddSample_drops_appended_sample :
  Z.of_nat (length (samples fullBuffer)) = maxSamples fullBuffer ∧
  samples (AddSample fullBuffer 10001) = seqZ 5001 5000 ∧
  (10001%Z ∉ samples (AddSample fullBuffer 10001)) ∧
  samples (AddSample fullBuffer 10001) ≠ seqZ 5002 5000.
Proof.
  assert (Hs : samples fullBuffer = seqZ 1 10000).
  { unfold fullBuffer, run. rewrite samples_adds.
    - reflexivity.
    - rewrite length_seqZ. cbn [samples maxSamples NewTimeStats length]. lia. }
  assert (Hm : maxSamples fullBuffer = 10000%Z).
  { unfold fullBuffer, run. rewrite maxSamples_steps. reflexivity. }
  assert (Hfull : Z.of_nat (length (samples fullBuffer)) = maxSamples fullBuffer).
  { rewrite Hm, Hs, length_seqZ. lia. }
  assert (Hk : samples (AddSample fullBuffer 10001) = seqZ 5001 5000).
  { rewrite AddSample_full_buffer by exact Hfull.
    rewrite Hm, Hs. change (10000 `quot` 2)%Z with 5000%Z.
    change 10000%Z with (5000 + 5000)%Z. rewrite seqZ_app by lia.
    rewrite drop_app_length' by (rewrite length_seqZ; reflexivity).
    apply take_ge. rewrite length_seqZ. lia. }
  split; [exact Hfull|]. split; [exact Hk|]. split.
  - rewrite Hk, elem_of_seqZ. lia.
  - rewrite Hk. intros Heq.
    assert (H1 : seqZ 5001 5000 !! O = Some 5001%Z) by (rewrite lookup_seqZ; lia).
    rewrite Heq, lookup_seqZ in H1. lia.
Qed.

Lemma wrap_int64_add_l (a b : Z) :
  Go.wrap_int64 (Go.wrap_int64 a + b) = Go.wrap_int64 (a + b).
Proof.
  unfold Go.wrap_int64.
  replace ((a + 2 ^ 63) `mod` 2 ^ 64 - 2 ^ 63 + b + 2 ^ 63)%Z
    with ((a + 2 ^ 63) `mod` 2 ^ 64 + b)%Z by lia.
  rewrite Zplus_mod_idemp_l. f_equal. f_equal. lia.
Qed.

Lemma wrap_int64_small (a : Z) :
  (- 2 ^ 63 ≤ a < 2 ^ 63)%Z → Go.wrap_int64 a = a.
Proof. intros. unfold Go.wrap_int64. rewrite Z.mod_small; lia. Qed.

Lemma sumLoop_spec (l : list Z) : sumLoop l = (Stats.sumZ l `mod` 2 ^ 64)%Z.
Proof.
  unfold sumLoop.
  assert (G : ∀ a, fold_left (λ sum sample, Go.wrap_uint64 (sum + sample)) l
                     (a `mod` 2 ^ 64)%Z = ((a + Stats.sumZ l) `mod` 2 ^ 64)%Z).
  { induction l as [|x l IH]; intros a; simpl.
    - by rewrite Z.add_0_r.
    - unfold Go.wrap_uint64 at 2. rewrite Zplus_mod_idemp_l, IH.
      f_equal. lia. }
  specialize (G 0%Z). by rewrite Z.mod_0_l in G by lia.
Qed.

Lemma varianceLoop_spec (m : R) (l : list Z) :
  varianceLoop m l = Stats.sumSq m l.
Proof.
  unfold varianceLoop.
  assert (G : ∀ a, fold_left
            (λ varianceSum sample,
               let diff := (IZR sample - m)%R in (varianceSum + diff * diff)%R)
            l a = (a + Stats.sumSq m l)%R).
  { induction l as [|x l IH]; intros a; simpl; [lra|]. rewrite IH. lra. }
  rewrite G. lra.
Qed.

Lemma sumSq_nonneg (m : R) (l : list Z) : (0 <= Stats.sumSq m l)%R.
Proof.
  induction l as [|x l IH]; simpl; [lra|].
  pose proof (Rle_0_sqr (IZR x - m)) as Hsq. unfold Rsqr in Hsq. lra.
Qed.

Lemma recalculateStats_spec (ts : t) :
  samples ts ≠ [] →
  mean (recalculateStats ts) = Stats.meanOf (samples ts) ∧
  stdDev (recalculateStats ts) = Stats.stdDevOf (samples ts) ∧
  needRecalc (recalculateStats ts) = false ∧
  samples (recalculateStats ts) = samples ts ∧
  count (recalculateStats ts) = count ts ∧
  maxSamples (recalculateStats ts) = maxSamples ts.
Proof.
  intros Hne. unfold recalculateStats.
  destruct (samples ts) as [|x l] eqn:E; [done|]. cbn [mean stdDev needRecalc samples count maxSamples].
  rewrite <- E. unfold Stats.stdDevOf, Stats.meanOf.
  by rewrite sumLoop_spec, varianceLoop_spec.
Qed.

Lemma stdDevOf_nonneg (l : list Z) : (0 <= Stats.stdDevOf l)%R.
Proof. apply sqrt_pos. Qed.

Lemma inv_lazy (ts : t) :
  inv ts → inv (if needRecalc ts then recalculateStats ts else ts).
Proof.
  intros Hinv. pose proof Hinv as (Hm & Hsd & Hc & Hclean).
  destruct (needRecalc ts) eqn:Hd; [|exact Hinv].
  destruct (decide (samples ts = [])) as [Hnil|Hne].
  - assert (Hid : recalculateStats ts = ts).
    { unfold recalculateStats. by rewrite Hnil. }
    rewrite Hid. done.
  - destruct (recalculateStats_spec ts Hne) as (Hmean & Hdev & Hclean' & Hs & Hcnt & Hmax).
    split_and!.
    + by rewrite Hmax.
    + rewrite Hdev. apply stdDevOf_nonneg.
    + rewrite Hs. done.
    + intros _. by rewrite Hs.
Qed.

Lemma AddSample_nonempty (ts : t) (x : Z) :
  maxSamples ts = 10000%Z → samples (AddSample ts x) ≠ [].
Proof.
  intros Hm. unfold AddSample. cbn [samples]. case_decide as Hlen.
  - rewrite copy_tail, Hm. change (10000 `quot` 2)%Z with 5000%Z.
    intros Hnil. apply (f_equal length) in Hnil.
    rewrite length_take, length_app, !length_drop in Hnil.
    rewrite Hm in Hlen. cbn [length] in Hnil. lia.
  - by destruct (samples ts).
Qed.

Lemma inv_step (ts : t) (c : call) : inv ts → inv (step ts c).
Proof.
  intros Hinv. destruct c as [x|x|]; simpl.
  - destruct Hinv as (Hm & Hsd & Hc & Hclean). split_and!; try done.
    intros _. by apply AddSample_nonempty.
  - unfold CalculateAnomalyScore. case_decide; [done|].
    pose proof (inv_lazy ts Hinv). by case_decide.
  - by apply inv_lazy.
Qed.

Lemma inv_run (calls : list call) : inv (run calls).
Proof.
  unfold run.
  assert (G : ∀ ts, inv ts → inv (fold_left step calls ts)).
  { induction calls as [|c cs IH]; intros ts Hts; [done|].
    simpl. apply IH. by apply inv_step. }
  apply G. split_and!; try done.
Qed.

Lemma count_lazy (ts : t) :
  count (if needRecalc ts then recalculateStats ts else ts) = count ts.
Proof.
  destruct (needRecalc ts); [|done]. unfold recalculateStats.
  by destruct (samples ts).
Qed.

Lemma count_step (ts : t) (c : call) :
  count (step ts c) =
    match c with
    | CallAddSample _ => Go.wrap_int64 (count ts + 1)
    | _ => count ts
    end.
Proof.
  destruct c as [x|x|]; simpl; [done| |apply count_lazy].
  unfold CalculateAnomalyScore. case_decide; [done|].
  pose proof (count_lazy ts). by case_decide.
Qed.

Lemma wrap_int64_idem (a : Z) : Go.wrap_int64 (Go.wrap_int64 a) = Go.wrap_int64 a.
Proof.
  rewrite <- (Z.add_0_r (Go.wrap_int64 a)) at 1.
  by rewrite wrap_int64_add_l, Z.add_0_r.
Qed.

Lemma count_steps (calls : list call) (ts : t) :
  count ts = Go.wrap_int64 (count ts) →
  count (fold_left step calls ts) =
    Go.wrap_int64 (count ts + Z.of_nat (added calls)).
Proof.
  revert ts. induction calls as [|c cs IH]; intros ts Hw.
  - simpl. by rewrite Z.add_0_r.
  - cbn [fold_left]. rewrite IH.
    + rewrite count_step.
      destruct c; cbn [added]; rewrite ?wrap_int64_add_l; f_equal; lia.
    + rewrite count_step. destruct c; try done.
      by rewrite wrap_int64_idem.
Qed.

Lemma count_run (calls : list call) :
  count (run calls) = Go.wrap_int64 (Z.of_nat (added calls)).
Proof. unfold run. by rewrite count_steps. Qed.

(** C8.  For a [TimeStats] after any sequence of calls of its methods:
    with fewer than 10 samples added in total [CalculateAnomalyScore] is
    exactly 0; with 10 or more (and fewer than 2^63, where the [int64]
    counter would wrap) it is 0 when the standard deviation of the sample
    buffer is 0 and [min((|d - mean| / stddev) / 2, 1)] otherwise, mean
    and deviation being those of the current buffer; in every case the
    score lies in [0, 1]. *)
Theorem CalculateAnomalyScore_spec (calls : list call) (d : Z) :
  let ts := run calls in
  let score := (CalculateAnomalyScore ts d).1 in
  let m := Stats.meanOf (samples ts) in
  let sd := Stats.stdDevOf (samples ts) in
  ((added calls < 10)%nat → score = 0%R) ∧
  ((10 ≤ added calls)%nat → (Z.of_nat (added calls) < 2 ^ 63)%Z →
     (sd = 0%R → score = 0%R) ∧
     (sd ≠ 0%R → score = Rmin (Rabs (IZR d - m) / sd / 2) 1)) ∧
  (0 <= score <= 1)%R.
Proof.
  intros ts score m sd.
  pose proof (inv_run calls) as Hinv. fold ts in Hinv.
  pose proof (count_run calls) as Hcount. fold ts in Hcount.
  pose proof (inv_lazy ts Hinv) as Hlazy.
  split; [|split].
  - intros Hlt. unfold score, CalculateAnomalyScore.
    rewrite decide_True; [done|].
    rewrite Hcount, wrap_int64_small; lia.
  - intros Hge Hbound.
    assert (Hc : (10 ≤ count ts)%Z) by (rewrite Hcount, wrap_int64_small; lia).
    assert (Hvals : mean (if needRecalc ts then recalculateStats ts else ts) = m ∧
                    stdDev (if needRecalc ts then recalculateStats ts else ts) = sd).
    { destruct Hinv as (Hm & Hsd & Hne & Hclean).
      assert (Hs : samples ts ≠ []) by (apply Hne; lia).
      destruct (needRecalc ts) eqn:Hd.
      - destruct (recalculateStats_spec ts Hs) as (-> & -> & _). done.
      - destruct (Hclean eq_refl) as (_ & -> & ->). done. }
    destruct Hvals as [Hmean Hdev].
    unfold score, CalculateAnomalyScore. rewrite decide_False by lia.
    rewrite Hmean, Hdev. split; intros Hsd.
    + by rewrite decide_True.
    + by rewrite decide_False.
  - unfold score, CalculateAnomalyScore.
    case_decide; [simpl; lra|].
    destruct Hlazy as (_ & Hsd & _).
    case_decide as Hz; [simpl; lra|]. cbn [fst]. unfold Go.Min.
    set (z := (Rabs _ / _)%R).
    assert (0 <= z)%R.
    { unfold z. apply Rmult_le_pos; [apply Rabs_pos|].
      apply Rlt_le, Rinv_0_lt_compat. lra. }
    split; [apply Rmin_glb; lra | apply Rmin_r].
Qed.

End TimeStatsFacts.

(** ** The log matcher *)

(** Decides the comparisons of float constants that are left when a score
    has been evaluated, innermost comparison first. *)
Ltac float_cmp :=
  repeat match goal with
  | |- context [Rlt_dec ?a ?b] =>
      lazymatch a with
      | context [Rlt_dec _ _] => fail
      | _ => lazymatch b with
             | context [Rlt_dec _ _] => fail
             | _ => destruct (Rlt_dec a b); [ try (exfalso; lra) | try (exfalso; lra) ]
             end
      end
  end.

Ltac eval_score := vm_compute; float_cmp; try lra.

Section KernelLogMatcherFacts.
Import KernelLogMatcher.

(** All 26 expressions of the table compile: no entry is skipped. *)
Lemma initializePatterns_all :
  map Description initializePatterns = map (λ p, p.2) table.
Proof. vm_compute. reflexivity. Qed.

(** The table is compiled as [regexp.Compile] compiles it, whatever the
    package answers beyond the fragment. *)
Lemma initializePatterns_Compile `{!Regexp.Pkg} :
  initializePatterns =
  fold_left
    (λ acc p,
       match Regexp.Compile p.1.1 with
       | None => acc
       | Some regex => acc ++ [mkPattern regex p.1.2 p.2]
       end)
    table [].
Proof. vm_compute. reflexivity. Qed.

(** C5, as stated, fails on its last literal: the line "possible deadlock"
    falls in the category "Possible deadlock", whose severity is 0.7 and
    not 0.5, so the score of the two lines is not 0.6. *)
Lemma CalculateScore_warning_deadlock_not_06 :
  CalculateScore NewKernelLogMatcher ["WARNING: x"; "possible deadlock"] ≠ 0.6%R.
Proof.
  assert (H : CalculateScore NewKernelLogMatcher
                ["WARNING: x"; "possible deadlock"] = 0.8%R) by eval_score.
  rewrite H. lra.
Qed.

(** C5, amended.  Under the default table a KASAN line scores 1.0, a line
    that matches no pattern scores 0.0, a warning with a KASAN line scores
    1.0 (1.0 + 0.1, clamped), and a warning with a "possible deadlock" line
    scores 0.7 + 0.1 = 0.8: the larger severity 0.7 plus the bonus 0.1 for
    the second category. *)
Theorem CalculateScore_literals :
  CalculateScore NewKernelLogMatcher ["KASAN: use-after-free in foo"] = 1.0%R ∧
  CalculateScore NewKernelLogMatcher ["normal log message"] = 0.0%R ∧
  CalculateScore NewKernelLogMatcher ["WARNING: x"; "KASAN: y"] = 1.0%R ∧
  CalculateScore NewKernelLogMatcher ["WARNING: x"; "possible deadlock"]
    = (0.7 + 0.1)%R.
Proof. split_and!; eval_score. Qed.

End KernelLogMatcherFacts.

(** ** The score tracker *)

Section ScoreTrackerFacts.
Import ScoreTracker TrackerRuns.
Context `{!Signal.Pkg}.

Lemma counter_insert {K} `{Countable K} (m : gmap K Z) (k k' : K) (v : Z) :
  counter (<[k := v]> m) k' = if decide (k = k') then v else counter m k'.
Proof.
  unfold counter. case_decide as Hk.
  - subst. by rewrite lookup_insert_eq.
  - by rewrite lookup_insert_ne.
Qed.

Lemma filter_agree {A} (P Q : A → Prop) `{!∀ x, Decision (P x)}
    `{!∀ x, Decision (Q x)} (l : list A) :
  (∀ x, x ∈ l → P x ↔ Q x) → filter P l = filter Q l.
Proof.
  induction l as [|x l IH]; intros Hpq; [done|].
  rewrite !filter_cons.
  rewrite IH by (intros y Hy; apply Hpq; by right).
  destruct (decide (P x)) as [Hp|Hp], (decide (Q x)) as [Hq|Hq]; try done.
  - destruct Hq. apply Hpq; [by left|done].
  - destruct Hp. apply Hpq; [by left|done].
Qed.

(** The loop over the raw signal: the elements that are counted as new are
    those whose counter was zero before the loop, and every element of the
    signal has its counter incremented once. *)
Lemma coverageLoop_spec (raw : list Z) (n : nat) (m : gmap Z Z) :
  NoDup raw →
  (fold_left coverageStep raw (n, m)).1 =
    (n + length (filter (λ pc, counter m pc = 0%Z) raw))%nat ∧
  ∀ pc, counter (fold_left coverageStep raw (n, m)).2 pc =
        if decide (pc ∈ raw) then Go.wrap_int64 (counter m pc + 1)
        else counter m pc.
Proof.
  revert n m. induction raw as [|x raw IH]; intros n m Hnd.
  - cbn [fold_left fst snd]. split; [rewrite filter_nil; simpl; lia|].
    intros pc. destruct (decide (pc ∈ [])) as [Hin|_]; [|done].
    by apply elem_of_nil in Hin.
  - apply NoDup_cons in Hnd as [Hx Hnd]. cbn [fold_left].
    unfold coverageStep at 2 4. cbn [fst snd].
    destruct (IH (if decide (counter m x = 0%Z) then S n else n)
                 (<[x := Go.wrap_int64 (counter m x + 1)]> m) Hnd) as [IH1 IH2].
    split.
    + rewrite IH1, filter_cons.
      rewrite (filter_agree _ (λ pc, counter m pc = 0%Z)).
      * destruct (decide (counter m x = 0%Z)); simpl; lia.
      * intros y Hy. rewrite counter_insert, decide_False; [done|].
        intros ->. done.
    + intros pc. rewrite IH2, counter_insert.
      destruct (decide (x = pc)) as [->|Hne].
      * rewrite decide_False by done. rewrite decide_True by (by left). done.
      * destruct (decide (pc ∈ raw)) as [Hin|Hin].
        -- rewrite decide_True by (by right). done.
        -- rewrite decide_False; [done|]. intros Hin'.
           apply elem_of_cons in Hin' as [->|?]; done.
Qed.

Lemma ToRaw_NoDup (s : gset Z) : NoDup (Signal.ToRaw s).
Proof. rewrite Signal.ToRaw_perm. apply NoDup_elements. Qed.

Lemma ToRaw_elem (s : gset Z) (pc : Z) : pc ∈ Signal.ToRaw s ↔ pc ∈ s.
Proof. rewrite Signal.ToRaw_perm. apply elem_of_elements. Qed.

Lemma Empty_true (s : gset Z) : Signal.Empty s = true ↔ s = ∅.
Proof. unfold Signal.Empty. apply bool_decide_eq_true. Qed.

Lemma Empty_false (s : gset Z) : Signal.Empty s = false ↔ s ≠ ∅.
Proof. unfold Signal.Empty. apply bool_decide_eq_false. Qed.

(** [calculateCoverageScore] in terms of the state before the call. *)
Lemma calculateCoverageScore_spec (st : t) (result : ExecutionResult) :
  let out := calculateCoverageScore st result in
  let new := length (newElements st (Signal result)) in
  (Signal result = ∅ → out = (0%R, st)) ∧
  (Signal result ≠ ∅ →
     out.1 = Rmin (ln (1 + INR new / INR (size (Signal result)) * exp 1)
                   / ln (1 + exp 1)) 1) ∧
  (∀ pc, counter (pcHitCounts out.2) pc =
         if decide (pc ∈ Signal result)
         then Go.wrap_int64 (counter (pcHitCounts st) pc + 1)
         else counter (pcHitCounts st) pc) ∧
  out.2 = with_pcHitCounts st (pcHitCounts out.2).
Proof.
  intros out new. unfold out, calculateCoverageScore.
  destruct (Signal.Empty (Signal result)) eqn:He.
  - apply Empty_true in He. split_and!; try done.
    + intros pc. cbn [snd]. rewrite He. by rewrite decide_False by set_solver.
    + by destruct st.
  - apply Empty_false in He.
    destruct (coverageLoop_spec (Signal.ToRaw (Signal result)) O (pcHitCounts st)
                (ToRaw_NoDup _)) as [Hn Hc].
    fold (coverageLoop (Signal.ToRaw (Signal result)) (pcHitCounts st)) in Hn, Hc.
    assert (Hsize : Signal.Len (Signal result) ≠ O).
    { unfold Signal.Len. intros Hz. apply size_empty_inv in Hz.
      apply He. by apply leibniz_equiv. }
    rewrite decide_False by done. cbn [fst snd]. split_and!; try done.
    + intros _. unfold Go.Min, Signal.Len. rewrite Hn. unfold new, newElements.
      rewrite (Signal.ToRaw_perm (Signal result)). done.
    + intros pc. cbn [with_pcHitCounts pcHitCounts]. rewrite Hc.
      destruct (decide (pc ∈ Signal.ToRaw (Signal result))) as [Hin|Hin];
        [rewrite decide_True | rewrite decide_False]; try done;
        by rewrite <- ToRaw_elem.
Qed.

Lemma calculateTimeAnomalyScore_frame (st : t) (result : ExecutionResult) :
  let out := calculateTimeAnomalyScore st result in
  scores out.2 = scores st ∧ pcHitCounts out.2 = pcHitCounts st ∧
  pathFrequency out.2 = pathFrequency st ∧ logMatcher out.2 = logMatcher st ∧
  config out.2 = config st.
Proof. unfold calculateTimeAnomalyScore. by case_decide. Qed.

(** The parts of an enabled [UpdateScore] that concern coverage and rarity. *)
Lemma UpdateScore_enabled (st : t) (progHash : string) (now : Z)
    (result : ExecutionResult) :
  Enabled (config st) = true →
  let out := UpdateScore st progHash now result in
  Coverage out.1 = (calculateCoverageScore st result).1 ∧
  Rarity out.1 = calculateRarityScore st result ∧
  pcHitCounts out.2 = pcHitCounts (calculateCoverageScore st result).2 ∧
  pathFrequency out.2 =
    (if Signal.Empty (Signal result) then pathFrequency st
     else <[Signal.String (Signal result) :=
              Go.wrap_int64 (counter (pathFrequency st)
                               (Signal.String (Signal result)) + 1)]>
            (pathFrequency st)) ∧
  config out.2 = config st ∧
  scores out.2 = <[progHash := out.1]> (scores st).
Proof.
  intros Hen out. unfold out, UpdateScore. rewrite Hen. cbn [negb fst snd].
  destruct (calculateCoverageScore_spec st result) as (_ & _ & _ & Hst).
  set (c := calculateCoverageScore st result) in *.
  destruct (calculateTimeAnomalyScore_frame c.2 result) as (Hs & Hp & Hf & Hl & Hc).
  set (a := calculateTimeAnomalyScore c.2 result) in *.
  assert (Hfreq : pathFrequency c.2 = pathFrequency st) by (by rewrite Hst).
  assert (Hcfg : config c.2 = config st) by (by rewrite Hst).
  assert (Hsc : scores c.2 = scores st) by (by rewrite Hst).
  split_and!.
  - done.
  - cbn [Rarity]. unfold calculateRarityScore. by rewrite Hfreq.
  - unfold updateStatistics. cbn [pcHitCounts]. done.
  - unfold updateStatistics. cbn [pathFrequency]. rewrite Hf, Hfreq. done.
  - unfold updateStatistics. cbn [config]. by rewrite Hc.
  - unfold updateStatistics. cbn [scores]. by rewrite Hs, Hsc.
Qed.

Lemma UpdateScore_off (st : t) (progHash : string) (now : Z)
    (result : ExecutionResult) :
  Enabled (config st) = false →
  UpdateScore st progHash now result = (neutral, st).
Proof. intros Hdis. unfold UpdateScore. by rewrite Hdis. Qed.

(** C2.  With [Enabled = false], [UpdateScore] returns the score whose
    total is 0.5 and whose other fields are unset (zero), and the tracker
    after the call is the tracker before it: the score cache, the hit
    counters, the path frequencies and the time statistics (sample buffer
    included) are the same. *)
Theorem UpdateScore_disabled (st : t) (progHash : string) (now : Z)
    (result : ExecutionResult) :
  Enabled (config st) = false →
  let out := UpdateScore st progHash now result in
  out.1 = {| Total := 0.5; Coverage := 0; Rarity := 0; KernelLog := 0;
             TimeAnomaly := 0; Timestamp := 0 |} ∧
  out.2 = st ∧
  scores out.2 = scores st ∧
  pcHitCounts out.2 = pcHitCounts st ∧
  pathFrequency out.2 = pathFrequency st ∧
  TimeStats.samples (execTimeStats out.2) = TimeStats.samples (execTimeStats st).
Proof.
  intros Hdis out. unfold out. by rewrite UpdateScore_off.
Qed.

Lemma run_snoc (calls : list call) (c : call) :
  run (calls ++ [c]) = step (run calls) c.
Proof. unfold run. by rewrite fold_left_app. Qed.

Lemma occurrences_snoc (pc : Z) (calls : list call) (c : call) :
  occurrences pc (calls ++ [c]) =
    (occurrences pc calls +
     if decide (Enabled (callConfig c) = true ∧ pc ∈ Signal (callResult c))
     then 1 else 0)%nat.
Proof.
  unfold occurrences. rewrite filter_app, length_app. f_equal.
  rewrite filter_cons, filter_nil. by case_decide.
Qed.

Lemma occurrences_le (pc : Z) (calls : list call) :
  (occurrences pc calls ≤ length calls)%nat.
Proof. apply length_filter. Qed.

Lemma step_counter (st : t) (c : call) (pc : Z) :
  counter (pcHitCounts (step st c)) pc =
    if decide (Enabled (callConfig c) = true ∧ pc ∈ Signal (callResult c))
    then Go.wrap_int64 (counter (pcHitCounts st) pc + 1)
    else counter (pcHitCounts st) pc.
Proof.
  unfold step. destruct (Enabled (callConfig c)) eqn:Hen.
  - destruct (UpdateScore_enabled (with_config st (callConfig c)) (callHash c)
                (callNow c) (callResult c) Hen) as (_ & _ & -> & _).
    destruct (calculateCoverageScore_spec (with_config st (callConfig c))
                (callResult c)) as (_ & _ & -> & _).
    cbn [with_config pcHitCounts].
    destruct (decide (pc ∈ Signal (callResult c))).
    + by rewrite decide_True.
    + rewrite decide_False; [done|]. by intros [_ ?].
  - rewrite UpdateScore_off by done.
    rewrite decide_False; [done|]. by intros [? _].
Qed.

(** The hit counter of an element is the number of enabled outcomes that
    contained it, as long as the [int64] counters cannot have wrapped. *)
Lemma run_counter (calls : list call) (pc : Z) :
  (Z.of_nat (length calls) < 2 ^ 63)%Z →
  counter (pcHitCounts (run calls)) pc = Z.of_nat (occurrences pc calls).
Proof.
  induction calls as [|c calls IH] using rev_ind; intros Hlen; [done|].
  rewrite length_app in Hlen. simpl in Hlen.
  rewrite run_snoc, step_counter, occurrences_snoc, IH by lia.
  pose proof (occurrences_le pc calls).
  case_decide; [|f_equal; lia].
  rewrite wrap_int64_small; lia.
Qed.

(** C3.  For a tracker that has gone through any sequence of calls (fewer
    than 2^63 - 1, so that no [int64] counter has wrapped) and an enabled
    call on it: the hit counter of an element is the number of enabled
    outcomes that contained it; the elements of the signal counted as new
    are those whose counter is zero at the start of the call, that is, those
    that no earlier enabled outcome contained; the coverage score is 0 for
    an empty signal and [min(ln(1 + newRatio*e) / ln(1 + e), 1)] otherwise,
    with [newRatio] the number of new elements over the size of the signal;
    and the call adds one to the counter of every element of its signal and
    leaves the other counters as they are. *)
Theorem coverage_dimension (calls : list call) (c : call) :
  Enabled (callConfig c) = true →
  (Z.of_nat (length calls) < 2 ^ 63 - 1)%Z →
  let st := with_config (run calls) (callConfig c) in
  let out := UpdateScore st (callHash c) (callNow c) (callResult c) in
  let sig := Signal (callResult c) in
  let new := newElements st sig in
  (∀ pc, counter (pcHitCounts st) pc = Z.of_nat (occurrences pc calls)) ∧
  new = filter (λ pc, occurrences pc calls = O) (elements sig) ∧
  (sig = ∅ → Coverage out.1 = 0%R) ∧
  (sig ≠ ∅ →
     Coverage out.1 =
       Rmin (ln (1 + INR (length new) / INR (size sig) * exp 1)
             / ln (1 + exp 1)) 1) ∧
  (∀ pc, counter (pcHitCounts out.2) pc =
         (counter (pcHitCounts st) pc + if decide (pc ∈ sig) then 1 else 0)%Z) ∧
  (∀ pc, pc ∈ sig → counter (pcHitCounts out.2) pc ≠ 0%Z).
Proof.
  intros Hen Hlen st out sig new.
  assert (Hcnt : ∀ pc, counter (pcHitCounts st) pc = Z.of_nat (occurrences pc calls)).
  { intros pc. unfold st. cbn [with_config pcHitCounts]. apply run_counter. lia. }
  assert (Hst : Enabled (config st) = true) by done.
  destruct (UpdateScore_enabled st (callHash c) (callNow c) (callResult c) Hst)
    as (Hcov & _ & Hpc & _).
  destruct (calculateCoverageScore_spec st (callResult c)) as (He & Hne & Hc & _).
  fold out in Hcov, Hpc.
  assert (Hafter : ∀ pc, counter (pcHitCounts out.2) pc =
            (counter (pcHitCounts st) pc + if decide (pc ∈ sig) then 1 else 0)%Z).
  { intros pc. rewrite Hpc, Hc. fold sig. pose proof (occurrences_le pc calls).
    case_decide; [|lia]. rewrite Hcnt, wrap_int64_small; lia. }
  split_and!.
  - exact Hcnt.
  - unfold new, newElements. apply filter_agree. intros pc _. rewrite Hcnt. lia.
  - intros Hsig. rewrite Hcov, (He Hsig). done.
  - intros Hsig. rewrite Hcov. by apply Hne.
  - exact Hafter.
  - intros pc Hin. rewrite Hafter, Hcnt, decide_True by done. lia.
Qed.

Lemma calculateRarityScore_spec (st : t) (result : ExecutionResult) :
  Signal result ≠ ∅ →
  let f := counter (pathFrequency st) (Signal.String (Signal result)) in
  (f = 0%Z → calculateRarityScore st result = 1%R) ∧
  (f ≠ 0%Z → calculateRarityScore st result = Rmin (1 / (1 + ln (IZR f))) 1) ∧
  ((1 ≤ f)%Z → calculateRarityScore st result = (1 / (1 + ln (IZR f)))%R).
Proof.
  intros Hne f. unfold calculateRarityScore.
  apply Empty_false in Hne. rewrite Hne. fold f. split_and!.
  - intros Hf. by rewrite decide_True.
  - intros Hf. by rewrite decide_False.
  - intros Hf. rewrite decide_False by lia. unfold Go.Min.
    apply Rmin_left.
    assert (0 <= ln (IZR f))%R.
    { rewrite <- ln_1. destruct (decide (f = 1%Z)) as [->|]; [lra|].
      apply Rlt_le, ln_increasing; [lra|]. apply IZR_lt. lia. }
    apply Rmult_le_reg_r with (1 + ln (IZR f))%R; [lra|].
    unfold Rdiv. rewrite Rmult_assoc, Rinv_l by lra. lra.
Qed.

Lemma rarity_curve_decreasing (f1 f2 : Z) :
  (1 ≤ f1 < f2)%Z →
  (1 / (1 + ln (IZR f2)) < 1 / (1 + ln (IZR f1)))%R.
Proof.
  intros Hf.
  assert (H1 : (0 <= ln (IZR f1))%R).
  { rewrite <- ln_1. destruct (decide (f1 = 1%Z)) as [->|]; [lra|].
    apply Rlt_le, ln_increasing; [lra|]. apply IZR_lt. lia. }
  assert (H2 : (ln (IZR f1) < ln (IZR f2))%R).
  { apply ln_increasing; [apply IZR_lt; lia|apply IZR_lt; lia]. }
  unfold Rdiv. rewrite !Rmult_1_l.
  apply Rinv_lt_contravar; [|lra].
  apply Rmult_lt_0_compat; lra.
Qed.

(** C4, amended.  For two outcomes with non-empty signals scored by an
    enabled tracker in the same state, whose signatures have the recorded
    frequencies [f1] and [f2]: the rarity is 1.0 for frequency 0 and
    [1 / (1 + ln f)] clamped to 1.0 otherwise; for [1 <= f1 < f2] the
    first scores strictly higher; a frequency 0 scores at least as high as
    any frequency [f2 >= 1], and exactly as high when [f2 = 1] (both score
    1.0), so the order is not strict between frequencies 0 and 1. *)
Theorem rarity_dimension (st : t) (h1 h2 : string) (n1 n2 : Z)
    (r1 r2 : ExecutionResult) :
  Enabled (config st) = true → Signal r1 ≠ ∅ → Signal r2 ≠ ∅ →
  let f1 := counter (pathFrequency st) (Signal.String (Signal r1)) in
  let f2 := counter (pathFrequency st) (Signal.String (Signal r2)) in
  let q1 := Rarity (UpdateScore st h1 n1 r1).1 in
  let q2 := Rarity (UpdateScore st h2 n2 r2).1 in
  (f1 = 0%Z → q1 = 1%R) ∧
  (f1 ≠ 0%Z → q1 = Rmin (1 / (1 + ln (IZR f1))) 1) ∧
  ((1 ≤ f1 < f2)%Z → (q2 < q1)%R) ∧
  (f1 = 0%Z → (1 ≤ f2)%Z → (q2 <= q1)%R ∧ (q2 = q1 ↔ f2 = 1%Z)).
Proof.
  intros Hen Hs1 Hs2 f1 f2 q1 q2.
  destruct (UpdateScore_enabled st h1 n1 r1 Hen) as (_ & Hq1 & _).
  destruct (UpdateScore_enabled st h2 n2 r2 Hen) as (_ & Hq2 & _).
  fold q1 in Hq1. fold q2 in Hq2.
  destruct (calculateRarityScore_spec st r1 Hs1) as (Hz1 & Hn1 & Hp1).
  destruct (calculateRarityScore_spec st r2 Hs2) as (Hz2 & Hn2 & Hp2).
  fold f1 in Hz1, Hn1, Hp1. fold f2 in Hz2, Hn2, Hp2.
  rewrite Hq1, Hq2. split_and!; try done.
  - intros Hf. rewrite Hp1, Hp2 by lia. by apply rarity_curve_decreasing.
  - intros Hf1 Hf2. rewrite (Hz1 Hf1), (Hp2 Hf2).
    destruct (decide (f2 = 1%Z)) as [Heq|Hneq].
    + rewrite Heq, ln_1. split; [lra|]. split; [done|]. intros _. lra.
    + pose proof (rarity_curve_decreasing 1 f2) as Hlt.
      rewrite ln_1 in Hlt.
      specialize (Hlt ltac:(lia)).
      replace (1 / (1 + 0))%R with 1%R in Hlt by lra.
      split; [lra|]. split; [lra|done].
Qed.

End ScoreTrackerFacts.

Section ScoreTrackerExamples.
Import ScoreTracker TrackerRuns Examples.

(** A disabled tracker, for C2. *)
Lemma UpdateScore_disabled_witness :
  let st := NewScoreTracker (Some configOff) in
  Enabled (config st) = false ∧
  (UpdateScore (H := Instances.signalDefault) st "p" 7 (outcome {[1%Z]})).2 = st.
Proof.
  split; [reflexivity|].
  apply (UpdateScore_disabled (H := Instances.signalDefault)
           (NewScoreTracker (Some configOff)) "p" 7 (outcome {[1%Z]})).
  reflexivity.
Defined.

(** The first call on a fresh tracker, for C3: both elements are new. *)
Lemma coverage_dimension_witness :
  Enabled (callConfig (callOf "p" {[1%Z; 2%Z]})) = true ∧
  (Z.of_nat (length (@nil call)) < 2 ^ 63 - 1)%Z ∧
  ∀ pc, pc ∈ ({[1%Z; 2%Z]} : gset Z) →
    counter (pcHitCounts
      (UpdateScore (H := Instances.signalDefault)
         (with_config (run (H := Instances.signalDefault) []) DefaultScoreConfig)
         "p" 0 (outcome {[1%Z; 2%Z]})).2) pc ≠ 0%Z.
Proof.
  split; [reflexivity|]. split; [simpl; lia|].
  assert (Hen : Enabled (callConfig (callOf "p" {[1%Z; 2%Z]})) = true)
    by reflexivity.
  assert (Hlen : (Z.of_nat (length (@nil call)) < 2 ^ 63 - 1)%Z) by (simpl; lia).
  exact (proj2 (proj2 (proj2 (proj2 (proj2
           (coverage_dimension (H := Instances.signalDefault) []
              (callOf "p" {[1%Z; 2%Z]}) Hen Hlen)))))).
Defined.

Lemma example_frequencies :
  let st := run (H := Instances.signalDefault) [callOf "b" {[1%Z]}] in
  Enabled (config st) = true ∧
  counter (pathFrequency st)
    (Signal.String (Pkg := Instances.signalDefault) {[2%Z]}) = 0%Z ∧
  counter (pathFrequency st)
    (Signal.String (Pkg := Instances.signalDefault) {[1%Z]}) = 1%Z.
Proof. vm_compute. done. Qed.

(** C4, as stated, fails between the frequencies 0 and 1: on a tracker that
    has seen the signal {1} once and the signal {2} never, the two outcomes
    have frequencies [0 < 1], and the first does not score strictly higher,
    both rarities are 1.0. *)
Lemma rarity_order_not_strict :
  let st := run (H := Instances.signalDefault) [callOf "b" {[1%Z]}] in
  let f1 := counter (pathFrequency st)
              (Signal.String (Pkg := Instances.signalDefault) {[2%Z]}) in
  let f2 := counter (pathFrequency st)
              (Signal.String (Pkg := Instances.signalDefault) {[1%Z]}) in
  let q1 := Rarity (UpdateScore (H := Instances.signalDefault) st "a" 0
                      (outcome {[2%Z]})).1 in
  let q2 := Rarity (UpdateScore (H := Instances.signalDefault) st "b" 0
                      (outcome {[1%Z]})).1 in
  (f1 < f2)%Z ∧ ¬ (q2 < q1)%R.
Proof.
  intros st f1 f2 q1 q2.
  destruct example_frequencies as (Hen & Hf1 & Hf2).
  fold st in Hen, Hf1, Hf2. fold f1 in Hf1. fold f2 in Hf2.
  split; [lia|].
  assert (Hs1 : Signal (outcome {[2%Z]}) ≠ ∅) by (cbn [Signal outcome]; apply non_empty_singleton_L).
  assert (Hs2 : Signal (outcome {[1%Z]}) ≠ ∅) by (cbn [Signal outcome]; apply non_empty_singleton_L).
  destruct (UpdateScore_enabled (H := Instances.signalDefault) st "a" 0
              (outcome {[2%Z]}) Hen) as (_ & Hq1 & _).
  destruct (UpdateScore_enabled (H := Instances.signalDefault) st "b" 0
              (outcome {[1%Z]}) Hen) as (_ & Hq2 & _).
  destruct (calculateRarityScore_spec (H := Instances.signalDefault) st
              (outcome {[2%Z]}) Hs1) as (Hz1 & _).
  destruct (calculateRarityScore_spec (H := Instances.signalDefault) st
              (outcome {[1%Z]}) Hs2) as (_ & _ & Hp2).
  fold q1 in Hq1. fold q2 in Hq2.
  assert (H1 : (1 ≤ f2)%Z) by lia.
  rewrite Hq1, Hq2, (Hz1 Hf1), (Hp2 H1).
  change (counter (pathFrequency st)
            (Signal.String (Signal (outcome {[1%Z]})))) with f2.
  rewrite Hf2, ln_1. lra.
Qed.

(** Two outcomes on that tracker, for the amended C4. *)
Lemma rarity_dimension_witness :
  let st := run (H := Instances.signalDefault) [callOf "b" {[1%Z]}] in
  Enabled (config st) = true ∧
  Signal (outcome {[2%Z]}) ≠ ∅ ∧ Signal (outcome {[1%Z]}) ≠ ∅ ∧
  (counter (pathFrequency st)
     (Signal.String (Pkg := Instances.signalDefault) {[2%Z]}) = 0%Z →
   Rarity (UpdateScore (H := Instances.signalDefault) st "a" 0
             (outcome {[2%Z]})).1 = 1%R).
Proof.
  intros st.
  assert (Hen : Enabled (config st) = true) by (vm_compute; reflexivity).
  assert (Hs1 : Signal (outcome {[2%Z]}) ≠ ∅) by (cbn [Signal outcome]; apply non_empty_singleton_L).
  assert (Hs2 : Signal (outcome {[1%Z]}) ≠ ∅) by (cbn [Signal outcome]; apply non_empty_singleton_L).
  split; [exact Hen|]. split; [exact Hs1|]. split; [exact Hs2|].
  exact (proj1 (rarity_dimension (H := Instances.signalDefault) st "a" "b" 0 0
           (outcome {[2%Z]}) (outcome {[1%Z]}) Hen Hs1 Hs2)).
Defined.

End ScoreTrackerExamples.

(** ** The top-N query *)

Section TopScored.
Import ScoreTracker Order.

(** A [for] loop over [a, a+1, ..., a+m-1] keeps an invariant. *)
Lemma fold_seq_inv {A} (P : nat → A → Prop) (f : A → nat → A) (a m : nat) (x : A) :
  P a x →
  (∀ j y, (a ≤ j < a + m)%nat → P j y → P (S j) (f y j)) →
  P (a + m)%nat (fold_left f (seq a m) x).
Proof.
  revert a x. induction m as [|m IH]; intros a x Hx Hstep.
  - simpl. by rewrite Nat.add_0_r.
  - simpl. replace (a + S m)%nat with (S a + m)%nat by lia.
    apply IH.
    + apply Hstep; [lia|done].
    + intros j y Hj. apply Hstep. lia.
Qed.

Lemma insert_swap_perm_head {A} (l : list A) (j : nat) (a b : A) :
  l !! j = Some b → b :: <[j := a]> l ≡ₚ a :: l.
Proof.
  revert j. induction l as [|x l IH]; intros [|j] Hj; simplify_eq/=.
  - apply perm_swap.
  - rewrite (perm_swap x b), (IH j Hj). apply perm_swap.
Qed.

Lemma insert_swap_perm {A} (l : list A) (i j : nat) (a b : A) :
  (i < j)%nat → l !! i = Some a → l !! j = Some b →
  <[j := a]> (<[i := b]> l) ≡ₚ l.
Proof.
  revert i j. induction l as [|x l IH]; intros [|i] [|j] Hij Hi Hj;
    simplify_eq/=; try lia.
  - by apply insert_swap_perm_head.
  - f_equiv. apply IH; [lia|done|done].
Qed.

Lemma exchange_length (i j : nat) (l : list progScore) :
  length (exchange i l j) = length l.
Proof.
  unfold exchange. destruct (l !! i), (l !! j); try done.
  case_decide; [|done]. by rewrite !length_insert.
Qed.

Lemma exchange_perm (i j : nat) (l : list progScore) :
  (i < j)%nat → exchange i l j ≡ₚ l.
Proof.
  intros Hij. unfold exchange.
  destruct (l !! i) as [a|] eqn:Hi, (l !! j) as [b|] eqn:Hj; try done.
  case_decide; [|done]. by apply insert_swap_perm.
Qed.

Lemma exchange_other (i j k : nat) (l : list progScore) :
  k ≠ i → k ≠ j → exchange i l j !! k = l !! k.
Proof.
  intros Hi Hj. unfold exchange.
  destruct (l !! i) as [a|] eqn:Hli, (l !! j) as [b|] eqn:Hlj; try done.
  case_decide; [|done].
  by rewrite !list_lookup_insert_ne by done.
Qed.

(** After the exchange the entry at [i] is the larger of the two, and the
    two positions hold the two entries. *)
Lemma exchange_pair (i j : nat) (l : list progScore) (a b : progScore) :
  (i < j)%nat → l !! i = Some a → l !! j = Some b →
  ∃ a' b', exchange i l j !! i = Some a' ∧ exchange i l j !! j = Some b' ∧
           (score b' <= score a')%R ∧ (score a <= score a')%R ∧
           ((a' = a ∧ b' = b) ∨ (a' = b ∧ b' = a)).
Proof.
  intros Hij Hi Hj. unfold exchange. rewrite Hi, Hj.
  apply lookup_lt_Some in Hi as Hil. apply lookup_lt_Some in Hj as Hjl.
  case_decide as Hlt.
  - exists b, a. rewrite list_lookup_insert_ne by lia.
    rewrite !list_lookup_insert_eq by (rewrite ?length_insert; lia).
    split_and!; try done; try lra. by right.
  - exists a, b. split_and!; try done; try lra. by left.
Qed.

Lemma innerLoop_inv (i : nat) (l0 : list progScore) :
  (i < length l0)%nat →
  innerInv i l0 (length l0) (innerLoop l0 i).
Proof.
  intros Hi. unfold innerLoop.
  replace (length l0) with ((i + 1) + (length l0 - (i + 1)))%nat at 1 by lia.
  apply (fold_seq_inv (innerInv i l0)).
  - split_and!; try done.
    + intros k b Hk Hb. eauto.
    + intros k a b Hk. lia.
  - intros j l Hj (Hlen & Hperm & Hpre & Hsuf & Hmax).
    assert (Hil : (i < length l)%nat) by lia.
    assert (Hjl : (j < length l)%nat) by lia.
    destruct (lookup_lt_is_Some_2 l i Hil) as [a Ha].
    destruct (lookup_lt_is_Some_2 l j Hjl) as [b Hb].
    destruct (exchange_pair i j l a b ltac:(lia) Ha Hb)
      as (a' & b' & Ha' & Hb' & Hle & Hge & Hcase).
    split_and!.
    + by rewrite exchange_length.
    + rewrite exchange_perm by lia. done.
    + intros k Hk. rewrite exchange_other by lia. by apply Hpre.
    + intros k c Hk Hc.
      destruct (decide (k = i)) as [->|Hki]; [|destruct (decide (k = j)) as [->|Hkj]].
      * rewrite Ha' in Hc. simplify_eq.
        destruct Hcase as [[-> _]|[-> _]]; [apply (Hsuf i)|apply (Hsuf j)];
          try done; lia.
      * rewrite Hb' in Hc. simplify_eq.
        destruct Hcase as [[_ ->]|[_ ->]]; [apply (Hsuf j)|apply (Hsuf i)];
          try done; lia.
      * rewrite exchange_other in Hc by done. by apply (Hsuf k).
    + intros k x y Hk Hx Hy. rewrite Ha' in Hx. simplify_eq.
      destruct (decide (k = j)) as [->|Hkj].
      * rewrite Hb' in Hy. by simplify_eq.
      * rewrite exchange_other in Hy by lia.
        etrans; [|exact Hge]. apply (Hmax k a y); [lia|done|done].
Qed.

Lemma sortLoop_inv (l0 : list progScore) :
  outerInv l0 (length l0 - 1) (sortLoop l0).
Proof.
  unfold sortLoop.
  apply (fold_seq_inv (outerInv l0) innerLoop 0 (length l0 - 1)).
  - split_and!; try done. intros k k' a b Hk. lia.
  - intros i l Hi (Hlen & Hperm & Hdom).
    destruct (innerLoop_inv i l ltac:(lia)) as (Hlen' & Hperm' & Hpre & Hsuf & Hmax).
    split_and!.
    + by rewrite Hlen'.
    + by rewrite Hperm'.
    + intros k k' a b Hk Hkk' Ha Hb.
      destruct (decide (k = i)) as [->|Hki].
      * apply (Hmax k' a b); [|done|done].
        apply lookup_lt_Some in Hb. lia.
      * rewrite Hpre in Ha by lia.
        destruct (decide (k' < i)%nat) as [Hlt|Hge].
        -- rewrite Hpre in Hb by lia. apply (Hdom k k' a b); [lia|lia|done|done].
        -- destruct (Hsuf k' b ltac:(lia) Hb) as (k'' & Hk'' & Hb'').
           apply (Hdom k k'' a b); [lia|lia|done|done].
Qed.

(** The two nested loops sort: the result is a rearrangement of the input
    in descending order of score. *)
Lemma sortLoop_sorts (l : list progScore) :
  sortLoop l ≡ₚ l ∧ descending (sortLoop l).
Proof.
  destruct (sortLoop_inv l) as (Hlen & Hperm & Hdom).
  split; [done|]. intros i j a b Hij Ha Hb.
  apply (Hdom i j a b); try done.
  apply lookup_lt_Some in Hb. lia.
Qed.

Context `{!MapRange}.

(** C9.  A negative [limit] is not tolerated: [make([]string, 0, limit)]
    panics on the negative capacity, whatever the score cache holds. *)
Theorem GetTopScoredProgs_negative_limit (st : t) (limit : Z) :
  (limit < 0)%Z → GetTopScoredProgs st limit = None.
Proof.
  intros Hneg. unfold GetTopScoredProgs.
  rewrite decide_True; [done|]. by left.
Qed.

End TopScored.

Lemma GetTopScoredProgs_negative_limit_witness :
  (-1 < 0)%Z ∧
  ScoreTracker.GetTopScoredProgs (H := Instances.rangeDefault)
    (ScoreTracker.NewScoreTracker None) (-1) = None.
Proof.
  split; [lia|].
  apply (GetTopScoredProgs_negative_limit (H := Instances.rangeDefault)). lia.
Defined.

(** ** The weighted selector *)

Section SelectorFacts.
Import WeightedSelector Wheel.

Lemma Rsum_app (l1 l2 : list R) : Rsum (l1 ++ l2) = (Rsum l1 + Rsum l2)%R.
Proof. induction l1 as [|x l1 IH]; simpl; [lra|]. rewrite IH. lra. Qed.

Lemma Rsum_perm (l1 l2 : list R) : l1 ≡ₚ l2 → Rsum l1 = Rsum l2.
Proof. induction 1; simpl; first [lra | congruence]. Qed.

Lemma Rsum_pos (l : list R) : Forall (λ w, 0 < w)%R l → (0 <= Rsum l)%R.
Proof. induction 1; simpl; lra. Qed.

Lemma Rsum_pos_lt (l : list R) :
  Forall (λ w, 0 < w)%R l → l ≠ [] → (0 < Rsum l)%R.
Proof.
  intros Hall Hne. destruct Hall as [|x l Hx Hl]; [done|].
  simpl. pose proof (Rsum_pos l Hl). lra.
Qed.

Lemma positive_weights (visit : list (string * R)) :
  Forall (λ w, 0 < w)%R (positive visit).*2.
Proof.
  apply Forall_fmap, Forall_forall. intros e He.
  by apply list_elem_of_filter in He as [? _].
Qed.

(** The loop of [rebuildWeightTable], from any value of its variables. *)
Lemma rebuild_fold (visit : list (string * R)) (tb : table) :
  fold_left rebuildStep visit tb =
    mkTable (cumulative tb + Rsum (positive visit).*2)
            (cums tb ++ prefixSums (cumulative tb) (positive visit).*2)
            (hashes tb ++ (positive visit).*1).
Proof.
  revert tb. induction visit as [|e visit IH]; intros tb.
  - simpl. rewrite !app_nil_r, Rplus_0_r. by destruct tb.
  - cbn [fold_left]. rewrite IH. unfold positive. rewrite filter_cons.
    unfold rebuildStep. destruct (decide (0 < e.2)%R) as [Hpos|Hneg].
    + cbn [cumulative cums hashes fmap list_fmap prefixSums Rsum foldr].
      rewrite <- !app_assoc. f_equal; first [done | unfold Rsum; simpl; lra].
    + done.
Qed.

Lemma rebuildLoop_spec (visit : list (string * R)) :
  cums (rebuildLoop visit) = prefixSums 0 (positive visit).*2 ∧
  hashes (rebuildLoop visit) = (positive visit).*1.
Proof. unfold rebuildLoop. by rewrite rebuild_fold. Qed.

Lemma prefixSums_length (c : R) (l : list R) :
  length (prefixSums c l) = length l.
Proof. revert c. induction l as [|w l IH]; intros c; simpl; [done|]. by rewrite IH. Qed.

Lemma prefixSums_lookup (c : R) (l : list R) (k : nat) :
  (k < length l)%nat →
  prefixSums c l !! k = Some (c + Rsum (take (S k) l))%R.
Proof.
  revert c k. induction l as [|w l IH]; intros c k Hk; [simpl in Hk; lia|].
  destruct k as [|k].
  - cbn [prefixSums lookup list_lookup take]. unfold Rsum. simpl. f_equal. lra.
  - cbn [prefixSums lookup list_lookup]. cbn [length] in Hk.
    rewrite IH by lia. f_equal. cbn [take]. unfold Rsum. simpl. lra.
Qed.

Lemma prefixSums_last (c : R) (l : list R) :
  l ≠ [] → last (prefixSums c l) = Some (c + Rsum l)%R.
Proof.
  intros Hne. rewrite last_lookup, prefixSums_length.
  destruct l as [|w l]; [done|]. cbn [length Nat.pred].
  rewrite prefixSums_lookup by (simpl; lia).
  rewrite take_ge by (simpl; lia). done.
Qed.

Lemma Rsum_take_S (l : list R) (k : nat) (w : R) :
  l !! k = Some w → Rsum (take (S k) l) = (Rsum (take k l) + w)%R.
Proof.
  intros Hk. rewrite (take_S_r l k w Hk), Rsum_app. unfold Rsum. simpl. lra.
Qed.

Lemma Rsum_take_le (l : list R) (i j : nat) :
  Forall (λ w, 0 < w)%R l → (i ≤ j)%nat →
  (Rsum (take i l) <= Rsum (take j l))%R.
Proof.
  intros Hall Hij. induction Hij as [|j Hij IH]; [lra|].
  destruct (l !! j) as [w|] eqn:Hj.
  - rewrite (Rsum_take_S l j w Hj).
    assert (0 < w)%R by (eapply (Forall_lookup_1 _ l j w); done). lra.
  - apply lookup_ge_None in Hj.
    rewrite (take_ge l (S j)) by lia. by rewrite (take_ge l j) in IH by lia.
Qed.

Lemma Rsum_take_lt (l : list R) (i j : nat) :
  Forall (λ w, 0 < w)%R l → (i < j)%nat → (i < length l)%nat →
  (Rsum (take i l) < Rsum (take j l))%R.
Proof.
  intros Hall Hij Hi.
  destruct (lookup_lt_is_Some_2 l i Hi) as [w Hw].
  assert (0 < w)%R by (eapply (Forall_lookup_1 _ l i w); done).
  pose proof (Rsum_take_le l (S i) j Hall ltac:(lia)).
  rewrite (Rsum_take_S l i w Hw) in *. lra.
Qed.

(** The cumulative array of positive weights increases strictly. *)
Lemma prefixSums_increasing (l : list R) (i j : nat) (a b : R) :
  Forall (λ w, 0 < w)%R l → (i < j)%nat →
  prefixSums 0 l !! i = Some a → prefixSums 0 l !! j = Some b → (a < b)%R.
Proof.
  intros Hall Hij Ha Hb.
  apply lookup_lt_Some in Ha as Hi. apply lookup_lt_Some in Hb as Hj.
  rewrite prefixSums_length in Hi, Hj.
  rewrite prefixSums_lookup in Ha, Hb by done. simplify_eq.
  pose proof (Rsum_take_lt l (S i) (S j) Hall ltac:(lia) ltac:(lia)). lra.
Qed.

Lemma half_between (left right : nat) :
  (left < right)%nat →
  (left ≤ (left + right) / 2 < right)%nat.
Proof.
  intros Hlt.
  pose proof (Nat.div_mod (left + right) 2 ltac:(lia)).
  pose proof (Nat.mod_upper_bound (left + right) 2 ltac:(lia)). lia.
Qed.

(** The binary search ends, within the given fuel, on an index between
    [left] and [right]. *)
Lemma searchLoop_range (fuel : nat) (cw : list R) (target : R) (left right : nat) :
  (left ≤ right)%nat → (right < length cw)%nat → (right - left ≤ fuel)%nat →
  ∃ k, searchLoop fuel cw target left right = Some k ∧ (left ≤ k ≤ right)%nat.
Proof.
  revert left right. induction fuel as [|fuel IH]; intros left right Hle Hr Hfuel.
  - exists left. simpl. rewrite decide_False by lia. split; [done|lia].
  - cbn [searchLoop]. destruct (decide (left < right)%nat) as [Hlt|Hge].
    + pose proof (half_between left right Hlt) as Hmid.
      destruct (lookup_lt_is_Some_2 cw ((left + right) / 2)) as [c Hc]; [lia|].
      rewrite Hc. case_decide.
      * destruct (IH ((left + right) / 2 + 1)%nat right) as (k & Hk & Hb);
          [lia|lia|lia|]. exists k. split; [done|lia].
      * destruct (IH left ((left + right) / 2)%nat) as (k & Hk & Hb);
          [lia|lia|lia|]. exists k. split; [done|lia].
    + exists left. split; [done|lia].
Qed.

(** On a non-decreasing array the search finds the least index whose entry
    is not below the target. *)
Lemma searchLoop_least (fuel : nat) (cw : list R) (target : R)
    (left right k : nat) :
  (∀ i j a b, (i ≤ j)%nat → cw !! i = Some a → cw !! j = Some b → (a <= b)%R) →
  (left ≤ right)%nat → (right < length cw)%nat → (right - left ≤ fuel)%nat →
  (∀ i a, (i < left)%nat → cw !! i = Some a → (a < target)%R) →
  (∀ a, cw !! right = Some a → (target <= a)%R) →
  searchLoop fuel cw target left right = Some k →
  (∀ i a, (i < k)%nat → cw !! i = Some a → (a < target)%R) ∧
  (∀ a, cw !! k = Some a → (target <= a)%R).
Proof.
  intros Hmono. revert left right.
  induction fuel as [|fuel IH]; intros left right Hle Hr Hfuel Hlow Hhigh Hk.
  - simpl in Hk. rewrite decide_False in Hk by lia. simplify_eq.
    assert (k = right) as -> by lia. done.
  - cbn [searchLoop] in Hk. destruct (decide (left < right)%nat) as [Hlt|Hge].
    + pose proof (half_between left right Hlt) as Hmid.
      destruct (lookup_lt_is_Some_2 cw ((left + right) / 2)) as [c Hc]; [lia|].
      rewrite Hc in Hk. case_decide as Hcmp.
      * apply (IH ((left + right) / 2 + 1)%nat right); try done; try lia.
        intros i a Hi Ha.
        pose proof (Hmono i ((left + right) / 2)%nat a c ltac:(lia) Ha Hc). lra.
      * apply (IH left ((left + right) / 2)%nat); try done; try lia.
        intros a Ha. rewrite Hc in Ha. simplify_eq. lra.
    + simplify_eq. assert (k = right) as -> by lia. done.
Qed.

Lemma filter_fst_NoDup {A B} (P : A * B → Prop) `{!∀ e, Decision (P e)}
    (l : list (A * B)) :
  NoDup l.*1 → NoDup (filter P l).*1.
Proof.
  induction l as [|e l IH]; [done|]. rewrite fmap_cons, NoDup_cons.
  intros [Hnin Hnd]. rewrite filter_cons. case_decide; [|by apply IH].
  rewrite fmap_cons. apply NoDup_cons. split; [|by apply IH].
  intros Hin. apply Hnin.
  apply list_elem_of_fmap in Hin as (e' & -> & He').
  apply list_elem_of_filter in He' as [_ He']. by apply list_elem_of_fmap_2.
Qed.

Lemma filter_snd_fmap {A} (P : R → Prop) `{!∀ w, Decision (P w)}
    (l : list (A * R)) :
  (filter (λ e, P e.2) l).*2 = filter P l.*2.
Proof.
  induction l as [|e l IH]; [done|].
  rewrite fmap_cons, !filter_cons. case_decide; [|done].
  by rewrite fmap_cons, IH.
Qed.

Lemma positive_total (m : gmap string R) (visit : list (string * R)) :
  visit ≡ₚ map_to_list m → Rsum (positive visit).*2 = positiveTotal m.
Proof.
  intros Hperm. unfold positive, positiveTotal.
  rewrite (filter_snd_fmap (λ w, 0 < w)%R). apply Rsum_perm. by rewrite Hperm.
Qed.

Lemma positive_elem (m : gmap string R) (visit : list (string * R))
    (i : string) (w : R) :
  visit ≡ₚ map_to_list m →
  (i, w) ∈ positive visit ↔ m !! i = Some w ∧ (0 < w)%R.
Proof.
  intros Hperm. unfold positive.
  rewrite list_elem_of_filter, Hperm, elem_of_map_to_list. naive_solver.
Qed.

Lemma positive_NoDup (m : gmap string R) (visit : list (string * R)) :
  visit ≡ₚ map_to_list m → NoDup (positive visit).*1.
Proof.
  intros Hperm. apply filter_fst_NoDup. rewrite Hperm.
  apply NoDup_fst_map_to_list.
Qed.

Lemma div_lt_iff (a u T : R) : (0 < T)%R → (a / T < u)%R ↔ (a < u * T)%R.
Proof.
  intros HT. assert (Ha : a = (a / T * T)%R) by (field; lra).
  split; intros Hlt.
  - rewrite Ha. apply Rmult_lt_compat_r; done.
  - apply Rmult_lt_reg_r with T; [done|]. by rewrite <- Ha.
Qed.

Lemma le_div_iff (b u T : R) : (0 < T)%R → (u <= b / T)%R ↔ (u * T <= b)%R.
Proof.
  intros HT. assert (Hb : b = (b / T * T)%R) by (field; lra).
  split; intros Hle.
  - rewrite Hb. apply Rmult_le_compat_r; [lra|done].
  - apply Rmult_le_reg_r with T; [done|]. by rewrite <- Hb.
Qed.

(** Where the search stops on a wheel of positive weights: at the entry [k]
    exactly when the target lies in the stretch of that entry. *)
Lemma wheel_stretch (wl : list R) (t : R) (k k0 : nat) :
  Forall (λ w, 0 < w)%R wl → (k < length wl)%nat →
  (0 <= t <= Rsum wl)%R →
  searchLoop (length (prefixSums 0 wl) - 1) (prefixSums 0 wl) t 0
             (length (prefixSums 0 wl) - 1) = Some k0 →
  k0 = k ↔
  ((Rsum (take k wl) < t <= Rsum (take (S k) wl))%R ∨
   (Rsum (take k wl) = 0%R ∧ t = 0%R)).
Proof.
  intros Hall Hk Ht Hsearch. rewrite prefixSums_length in Hsearch.
  set (cw := prefixSums 0 wl) in *.
  assert (Hcw : ∀ j, (j < length wl)%nat → cw !! j = Some (Rsum (take (S j) wl))).
  { intros j Hj. unfold cw. rewrite prefixSums_lookup by done. f_equal. lra. }
  assert (Hlen : length cw = length wl) by apply prefixSums_length.
  destruct (searchLoop_range (length wl - 1) cw t 0 (length wl - 1))
    as (k0' & Hk0' & Hb); [lia|lia|lia|].
  rewrite Hsearch in Hk0'. assert (k0' = k0) as -> by congruence. clear Hk0'.
  destruct (searchLoop_least (length wl - 1) cw t 0 (length wl - 1) k0)
    as [Hlow Hhigh]; try done; try lia.
  { intros i j a b Hij Ha Hb'.
    destruct (decide (i = j)) as [->|Hne]; [simplify_eq; lra|].
    apply Rlt_le. eapply (prefixSums_increasing wl i j); try done. lia. }
  { intros a Ha. rewrite Hcw in Ha by lia. simplify_eq.
    rewrite take_ge by lia. lra. }
  assert (Hk0 : (k0 < length wl)%nat) by lia.
  specialize (Hhigh _ (Hcw k0 Hk0)).
  split.
  - intros ->. destruct k as [|k].
    + rewrite take_0. unfold Rsum at 1 3. simpl.
      destruct (decide (t = 0%R)); [by right|left; lra].
    + left. split; [|done]. apply (Hlow k); [lia|]. apply Hcw. lia.
  - intros Hcond.
    destruct (decide (k0 < k)%nat) as [Hlt|Hge].
    + exfalso.
      pose proof (Rsum_take_le wl (S k0) k Hall ltac:(lia)).
      pose proof (Rsum_take_lt wl 0 k Hall ltac:(lia) ltac:(lia)) as Hpos.
      rewrite take_0 in Hpos. unfold Rsum at 1 in Hpos. simpl in Hpos.
      destruct Hcond as [[? ?]|[? ?]]; lra.
    + destruct (decide (k < k0)%nat) as [Hgt|?]; [|lia].
      exfalso. pose proof (Hlow k _ Hgt (Hcw k Hk)) as Hbelow.
      pose proof (Rsum_take_lt wl 0 (S k) Hall ltac:(lia) ltac:(lia)) as Hpos.
      rewrite take_0 in Hpos. unfold Rsum at 1 in Hpos. simpl in Hpos.
      destruct Hcond as [[? ?]|[? ?]]; lra.
Qed.

Context `{!MapRange}.

Lemma rebuildWeightTable_laidOut (ws : t) :
  laidOut (rebuildWeightTable ws) (range (weights ws)).
Proof.
  unfold laidOut, rebuildWeightTable. cbn [weights cumulativeWeights progHashes].
  destruct (rebuildLoop_spec (range (weights ws))) as [-> ->].
  split; [apply range_perm|done].
Qed.

(** What a call of [SelectWeighted] works on: arrays laid out for the
    weights, by the rebuild of this call or of an earlier one. *)
Lemma lazy_laidOut (ws : t) :
  consistent ws →
  ∃ visit, laidOut (if needRebuild ws then rebuildWeightTable ws else ws) visit ∧
           visit ≡ₚ map_to_list (weights ws).
Proof.
  intros Hc. destruct (needRebuild ws) eqn:Hn.
  - exists (range (weights ws)). split; [apply rebuildWeightTable_laidOut|].
    apply range_perm.
  - destruct Hc as [?|(visit & Hperm & Hcw & Hph)]; [congruence|].
    exists visit. split; [|done]. unfold laidOut.
    destruct (rebuildLoop_spec visit) as [<- <-]. done.
Qed.

(** The result of [SelectWeighted] in terms of the visit: the empty string
    when no weight is positive, and otherwise the identity at the least
    index whose cumulative weight is not below the target. *)
Lemma SelectWeighted_visit (ws : t) :
  consistent ws →
  ∃ visit, visit ≡ₚ map_to_list (weights ws) ∧
    let pos := positive visit in
    let cw := prefixSums 0 pos.*2 in
    ∀ u : R,
      (pos = [] → (SelectWeighted ws u).1 = Some "") ∧
      (pos ≠ [] →
         ∃ k, (k < length pos)%nat ∧
              searchLoop (length cw - 1) cw (u * Rsum pos.*2) 0 (length cw - 1)
                = Some k ∧
              (SelectWeighted ws u).1 = pos.*1 !! k).
Proof.
  intros Hc. destruct (lazy_laidOut ws Hc) as (visit & (Hp & Hcw & Hph) & Hperm).
  exists visit. split; [done|]. intros pos cw u.
  unfold SelectWeighted.
  set (ws1 := if needRebuild ws then rebuildWeightTable ws else ws) in *.
  rewrite Hcw, Hph. fold pos. fold cw. split.
  - intros Hnil. unfold cw. rewrite Hnil. done.
  - intros Hne.
    assert (Hne2 : pos.*2 ≠ []) by (by destruct pos).
    assert (Hlast : last cw = Some (Rsum pos.*2)).
    { unfold cw. rewrite (prefixSums_last 0 _ Hne2). by rewrite Rplus_0_l. }
    rewrite Hlast.
    assert (Hlen : length cw = length pos).
    { unfold cw. by rewrite prefixSums_length, length_fmap. }
    assert (Hpos : (0 < length pos)%nat) by (destruct pos; [done|simpl; lia]).
    destruct (searchLoop_range (length cw - 1) cw (u * Rsum pos.*2) 0
                (length cw - 1)) as (k & Hk & Hb); [lia|lia|lia|].
    exists k. split; [lia|]. split; [done|]. cbn [fst]. by rewrite Hk.
Qed.

Lemma consistent_rebuilt (ws : t) : consistent (rebuildWeightTable ws).
Proof.
  right. exists (range (weights ws)). split; [apply range_perm|done].
Qed.

Lemma SelectWeighted_nothing_positive (ws : t) (u : R) :
  consistent ws →
  (∀ i w, weights ws !! i = Some w → (w <= 0)%R) →
  (SelectWeighted ws u).1 = Some "".
Proof.
  intros Hc Hall. destruct (SelectWeighted_visit ws Hc) as (visit & Hperm & Hsel).
  apply Hsel. destruct (positive visit) as [|[i w] pos] eqn:Hpos; [done|].
  assert (Hin : (i, w) ∈ positive visit) by (rewrite Hpos; by left).
  apply (positive_elem _ _ _ _ Hperm) in Hin as [Hw Hgt].
  specialize (Hall i w Hw). lra.
Qed.

(** Whatever [SelectWeighted] draws from a non-empty index has a positive
    weight; from an empty index it returns the empty string. *)
Lemma SelectWeighted_result (ws : t) (u : R) (h : string) :
  consistent ws →
  (SelectWeighted ws u).1 = Some h →
  (∃ w, weights ws !! h = Some w ∧ (0 < w)%R) ∨
  (h = "" ∧ ∀ i w, weights ws !! i = Some w → (w <= 0)%R).
Proof.
  intros Hc Hsel. destruct (SelectWeighted_visit ws Hc) as (visit & Hperm & Hv).
  destruct (Hv u) as [Hnil Hne].
  destruct (decide (positive visit = [])) as [He|He].
  - right. rewrite (Hnil He) in Hsel. simplify_eq. split; [done|].
    intros i w Hw. destruct (decide (0 < w)%R) as [Hpos|?]; [|lra].
    assert (Hin : (i, w) ∈ positive visit) by (by apply (positive_elem _ _ _ _ Hperm)).
    rewrite He in Hin. by apply elem_of_nil in Hin.
  - left. destruct (Hne He) as (k & Hk & _ & Hres). rewrite Hres in Hsel.
    apply list_lookup_fmap_Some in Hsel as ([i w] & -> & Hl).
    exists w. apply (positive_elem _ visit); [done|].
    apply list_elem_of_lookup. eauto.
Qed.

(** C1.  For a selector whose derived arrays belong to its weights (as they
    do after any sequence of [UpdateWeight] and [SelectWeighted] calls):
    when some weight is positive, every [u] in [0,1) selects an identity of
    positive weight, and for every identity [i] of positive weight [w] the
    values of [u] in [0,1) that select [i] form an interval from [lo] to
    [hi] (open at [lo], closed at [hi], and with the point 0 when
    [lo = 0]) of length [hi - lo = w / total], [total] being the sum of
    the positive weights: that length is the measure of the set.  When no
    weight is positive the result is the empty string. *)
Theorem SelectWeighted_distribution (ws : t) :
  consistent ws →
  let total := positiveTotal (weights ws) in
  ((∃ i w, weights ws !! i = Some w ∧ (0 < w)%R) →
     (∀ u, (0 <= u < 1)%R →
        ∃ i w, (SelectWeighted ws u).1 = Some i ∧
               weights ws !! i = Some w ∧ (0 < w)%R) ∧
     (∀ i w, weights ws !! i = Some w → (0 < w)%R →
        ∃ lo hi, (0 <= lo)%R ∧ (hi <= 1)%R ∧ (hi - lo = w / total)%R ∧
          ∀ u, (0 <= u < 1)%R →
            ((SelectWeighted ws u).1 = Some i ↔
             ((lo < u <= hi)%R ∨ (lo = 0%R ∧ u = 0%R))))) ∧
  ((∀ i w, weights ws !! i = Some w → (w <= 0)%R) →
     ∀ u, (SelectWeighted ws u).1 = Some "").
Proof.
  intros Hc total. split; [|intros Hall u; by apply SelectWeighted_nothing_positive].
  intros (i0 & w0 & Hw0 & Hpos0).
  destruct (SelectWeighted_visit ws Hc) as (visit & Hperm & Hsel).
  cbv zeta in Hsel.
  set (pos := positive visit) in *. set (wl := pos.*2) in *.
  assert (Hall : Forall (λ w, 0 < w)%R wl) by apply positive_weights.
  assert (Hne : pos ≠ []).
  { intros He. assert (Hin : (i0, w0) ∈ pos) by (by apply (positive_elem _ _ _ _ Hperm)).
    rewrite He in Hin. by apply elem_of_nil in Hin. }
  assert (HT : Rsum wl = total) by (by apply positive_total).
  assert (HTpos : (0 < total)%R).
  { rewrite <- HT. apply Rsum_pos_lt; [done|]. unfold wl. by destruct pos. }
  split.
  - intros u Hu. destruct (Hsel u) as [_ Hsome].
    destruct (Hsome Hne) as (k & Hk & _ & Hres).
    destruct (lookup_lt_is_Some_2 pos k Hk) as [[i w] Hiw].
    exists i, w. split.
    + rewrite Hres, list_lookup_fmap, Hiw. done.
    + apply (positive_elem _ visit); [done|]. apply list_elem_of_lookup. eauto.
  - intros i w Hw Hpos.
    assert (Hin : (i, w) ∈ pos) by (by apply (positive_elem _ _ _ _ Hperm)).
    apply list_elem_of_lookup in Hin as [k Hk].
    assert (Hkl : (k < length wl)%nat).
    { unfold wl. rewrite length_fmap. by eapply lookup_lt_Some. }
    assert (Hwk : wl !! k = Some w) by (unfold wl; by rewrite list_lookup_fmap, Hk).
    exists (Rsum (take k wl) / total)%R, (Rsum (take (S k) wl) / total)%R.
    assert (Hlo : (0 <= Rsum (take k wl))%R) by (by apply Rsum_pos, Forall_take).
    assert (Hhi : (Rsum (take (S k) wl) <= total)%R).
    { rewrite <- HT. rewrite <- (take_ge wl (length wl)) at 2 by lia.
      apply Rsum_take_le; [done|lia]. }
    split_and!.
    + apply Rmult_le_pos; [done|]. apply Rlt_le, Rinv_0_lt_compat. done.
    + apply Rmult_le_reg_r with total; [done|].
      unfold Rdiv. rewrite Rmult_assoc, Rinv_l by lra. lra.
    + rewrite (Rsum_take_S wl k w Hwk). field. lra.
    + intros u Hu. destruct (Hsel u) as [_ Hsome].
      destruct (Hsome Hne) as (k0 & Hk0 & Hsearch & Hres).
      fold wl in Hsearch. rewrite HT in Hsearch.
      assert (Hidx : (SelectWeighted ws u).1 = Some i ↔ k0 = k).
      { rewrite Hres. split.
        - intros Hi. eapply (NoDup_lookup pos.*1 k0 k i);
            [by apply (positive_NoDup (weights ws))|done|].
          by rewrite list_lookup_fmap, Hk.
        - intros ->. by rewrite list_lookup_fmap, Hk. }
      rewrite Hidx.
      rewrite (wheel_stretch wl (u * total) k k0 Hall Hkl); [|rewrite HT; nra|done].
      pose proof (div_lt_iff (Rsum (take k wl)) u total HTpos) as Hd1.
      pose proof (le_div_iff (Rsum (take (S k) wl)) u total HTpos) as Hd2.
      assert (Hz : (Rsum (take k wl) / total)%R = 0%R ↔ Rsum (take k wl) = 0%R).
      { split; intros Hz.
        - apply (f_equal (λ x, x * total)%R) in Hz.
          unfold Rdiv in Hz. rewrite Rmult_assoc, Rinv_l, Rmult_1_r, Rmult_0_l in Hz by lra.
          done.
        - rewrite Hz. unfold Rdiv. by rewrite Rmult_0_l. }
      assert (Hu0 : (u * total)%R = 0%R ↔ u = 0%R).
      { split; intros Hz'; [|rewrite Hz'; lra].
        destruct (Rmult_integral _ _ Hz'); [done|lra]. }
      tauto.
Qed.


End SelectorFacts.

Section SelectorExamples.
Import WeightedSelector.

(** A selector with one weight, for C1. *)
Lemma SelectWeighted_distribution_witness :
  let ws := UpdateWeight NewWeightedSelector "a" 1 in
  consistent ws ∧
  ((∀ i w, weights ws !! i = Some w → (w <= 0)%R) →
   ∀ u, (SelectWeighted (H := Instances.rangeDefault) ws u).1 = Some "").
Proof.
  intros ws. assert (Hc : consistent ws) by (by left).
  split; [exact Hc|].
  exact (proj2 (SelectWeighted_distribution (H := Instances.rangeDefault) ws Hc)).
Defined.

End SelectorExamples.

(** ** The metrics *)

Section MetricsFacts.
Import ScoreMetrics.

(** The incremental mean of a number is a number exactly when the divisor
    is not zero. *)
Lemma runningMean_Some (x count v : R) :
  count ≠ 0%R →
  runningMean (Some x) count v = Some ((x * (count - 1) + v) / count)%R.
Proof.
  intros Hc. unfold runningMean, fdiv, fadd, fmul. simpl.
  by rewrite decide_False.
Qed.

Lemma runningMean_zero (avg : option R) (v : R) : runningMean avg 0 v = None.
Proof.
  unfold runningMean, fdiv, fadd, fmul. destruct avg; simpl; [|done].
  by rewrite decide_True.
Qed.

(** C10.  [UpdateDimensionScores] on metrics whose four averages are
    numbers and whose request counter [n] is not negative: for [n = 0] the
    incremental branch runs with the divisor [float64(0)], and none of the
    four averages is a number afterwards; for [n = 1] the averages are the
    arguments; for [n >= 2] they are the incremental means, the divisor [n]
    being non-zero.  So the averages are numbers after the call exactly
    when [n >= 1], which holds once [UpdateMetrics] has been called on fresh
    metrics. *)
Theorem UpdateDimensionScores_divisor (sm : t)
    (coverage rarity kernelLog timeAnomaly x1 x2 x3 x4 : R) :
  AvgCoverageScore sm = Some x1 → AvgRarityScore sm = Some x2 →
  AvgKernelLogScore sm = Some x3 → AvgTimeAnomalyScore sm = Some x4 →
  (0 ≤ TotalRequests sm)%Z →
  let n := TotalRequests sm in
  let sm' := UpdateDimensionScores sm coverage rarity kernelLog timeAnomaly in
  (n = 0%Z →
     AvgCoverageScore sm' = None ∧ AvgRarityScore sm' = None ∧
     AvgKernelLogScore sm' = None ∧ AvgTimeAnomalyScore sm' = None) ∧
  (n = 1%Z →
     AvgCoverageScore sm' = Some coverage ∧ AvgRarityScore sm' = Some rarity ∧
     AvgKernelLogScore sm' = Some kernelLog ∧
     AvgTimeAnomalyScore sm' = Some timeAnomaly) ∧
  ((2 ≤ n)%Z →
     IZR n ≠ 0%R ∧
     AvgCoverageScore sm' = Some ((x1 * (IZR n - 1) + coverage) / IZR n)%R ∧
     AvgRarityScore sm' = Some ((x2 * (IZR n - 1) + rarity) / IZR n)%R ∧
     AvgKernelLogScore sm' = Some ((x3 * (IZR n - 1) + kernelLog) / IZR n)%R ∧
     AvgTimeAnomalyScore sm' = Some ((x4 * (IZR n - 1) + timeAnomaly) / IZR n)%R) ∧
  (is_Some (AvgCoverageScore sm') ↔ (1 ≤ n)%Z) ∧
  (∀ now score selected time,
     TotalRequests (NewScoreMetrics now) = 0%Z ∧
     TotalRequests (UpdateMetrics (NewScoreMetrics now) score selected time now)
       = 1%Z).
Proof.
  intros H1 H2 H3 H4 Hn n sm'.
  assert (Hzero : n = 0%Z →
     AvgCoverageScore sm' = None ∧ AvgRarityScore sm' = None ∧
     AvgKernelLogScore sm' = None ∧ AvgTimeAnomalyScore sm' = None).
  { intros Hz. unfold sm', UpdateDimensionScores. fold n. rewrite Hz.
    rewrite decide_False by lia. cbn [setAverages AvgCoverageScore AvgRarityScore
      AvgKernelLogScore AvgTimeAnomalyScore]. by rewrite !runningMean_zero. }
  assert (Hone : n = 1%Z →
     AvgCoverageScore sm' = Some coverage ∧ AvgRarityScore sm' = Some rarity ∧
     AvgKernelLogScore sm' = Some kernelLog ∧
     AvgTimeAnomalyScore sm' = Some timeAnomaly).
  { intros Hz. unfold sm', UpdateDimensionScores. fold n.
    by rewrite decide_True. }
  assert (Hmany : (2 ≤ n)%Z →
     IZR n ≠ 0%R ∧
     AvgCoverageScore sm' = Some ((x1 * (IZR n - 1) + coverage) / IZR n)%R ∧
     AvgRarityScore sm' = Some ((x2 * (IZR n - 1) + rarity) / IZR n)%R ∧
     AvgKernelLogScore sm' = Some ((x3 * (IZR n - 1) + kernelLog) / IZR n)%R ∧
     AvgTimeAnomalyScore sm' = Some ((x4 * (IZR n - 1) + timeAnomaly) / IZR n)%R).
  { intros Hz. assert (Hnz : IZR n ≠ 0%R) by (apply not_0_IZR; lia).
    split; [done|]. unfold sm', UpdateDimensionScores. fold n.
    rewrite decide_False by lia. cbn [setAverages AvgCoverageScore AvgRarityScore
      AvgKernelLogScore AvgTimeAnomalyScore].
    rewrite H1, H2, H3, H4. by rewrite !runningMean_Some. }
  split_and!; try done.
  - split.
    + intros Hs. destruct (decide (n = 0%Z)) as [Hz|?]; [|lia].
      destruct (Hzero Hz) as [Hnone _]. rewrite Hnone in Hs. by destruct Hs.
    + intros Hge. destruct (decide (n = 1%Z)) as [Hz|?].
      * destruct (Hone Hz) as [-> _]. done.
      * destruct (Hmany ltac:(lia)) as (_ & -> & _). done.
Qed.

End MetricsFacts.

Lemma UpdateDimensionScores_divisor_witness :
  let sm := ScoreMetrics.NewScoreMetrics 0 in
  ScoreMetrics.AvgCoverageScore sm = Some 0%R ∧
  ScoreMetrics.AvgRarityScore sm = Some 0%R ∧
  ScoreMetrics.AvgKernelLogScore sm = Some 0%R ∧
  ScoreMetrics.AvgTimeAnomalyScore sm = Some 0%R ∧
  (0 ≤ ScoreMetrics.TotalRequests sm)%Z ∧
  (ScoreMetrics.TotalRequests sm = 0%Z →
   ScoreMetrics.AvgCoverageScore
     (ScoreMetrics.UpdateDimensionScores sm 0.5 0.5 0.5 0.5) = None).
Proof.
  intros sm. do 4 (split; [reflexivity|]). split; [simpl; lia|].
  intros Hz.
  exact (proj1 (proj1 (UpdateDimensionScores_divisor sm 0.5 0.5 0.5 0.5 0 0 0 0
           eq_refl eq_refl eq_refl eq_refl ltac:(simpl; lia)) Hz)).
Defined.

(** ** Further properties of the time statistics *)

Section TimeStatsMore.
Import TimeStats Stats History.

Lemma run_snoc_ts (calls : list call) (c : call) :
  run (calls ++ [c]) = step (run calls) c.
Proof. unfold run. by rewrite fold_left_app. Qed.

Lemma added_snoc (calls : list call) (c : call) :
  added (calls ++ [c]) =
    (added calls + match c with CallAddSample _ => 1 | _ => 0 end)%nat.
Proof.
  induction calls as [|c' calls IH]; simpl.
  - destruct c; simpl; lia.
  - destruct c'; rewrite IH; lia.
Qed.

Lemma addedSamples_snoc (calls : list call) (c : call) :
  addedSamples (calls ++ [c]) =
    addedSamples calls ++ match c with CallAddSample x => [x] | _ => [] end.
Proof.
  induction calls as [|c' calls IH]; simpl.
  - by destruct c.
  - destruct c'; rewrite IH; done.
Qed.

Lemma addedSamples_length (calls : list call) :
  length (addedSamples calls) = added calls.
Proof.
  induction calls as [|c calls IH]; [done|]. destruct c; simpl; by rewrite ?IH.
Qed.

Lemma samples_lazy (ts : t) :
  samples (if needRecalc ts then recalculateStats ts else ts) = samples ts.
Proof.
  destruct (needRecalc ts); [|done]. unfold recalculateStats.
  destruct (samples ts) eqn:E; [done|]. cbn [samples]. done.
Qed.

(** The two reading methods leave the buffer as it is. *)
Lemma samples_step_read (ts : t) (c : call) :
  match c with CallAddSample _ => True | _ => samples (step ts c) = samples ts end.
Proof.
  destruct c as [x|x|]; [done| |apply samples_lazy]. simpl.
  unfold CalculateAnomalyScore. case_decide; [done|].
  pose proof (samples_lazy ts). by case_decide.
Qed.

Lemma AddSample_length_le (ts : t) (x : Z) :
  maxSamples ts = 10000%Z →
  (Z.of_nat (length (samples ts)) ≤ 10000)%Z →
  (Z.of_nat (length (samples (AddSample ts x))) ≤ 10000)%Z.
Proof.
  intros Hm Hlen. unfold AddSample. cbn [samples]. case_decide as Hc.
  - rewrite length_take, Hm. change (10000 `quot` 2)%Z with 5000%Z. lia.
  - lia.
Qed.

Lemma samples_capacity (calls : list call) :
  maxSamples (run calls) = 10000%Z ∧
  (Z.of_nat (length (samples (run calls))) ≤ maxSamples (run calls))%Z.
Proof.
  induction calls as [|c calls [IHm IHl]] using rev_ind.
  - split; [done|]. simpl. lia.
  - rewrite run_snoc_ts. destruct (inv_step (run calls) c (inv_run calls)) as [Hm _].
    split; [done|]. rewrite Hm. rewrite IHm in IHl.
    destruct c as [x|x|].
    + by apply AddSample_length_le.
    + pose proof (samples_step_read (run calls) (CallCalculateAnomalyScore x)) as Hs.
      simpl in Hs. simpl. by rewrite Hs.
    + pose proof (samples_step_read (run calls) CallGetStats) as Hs.
      simpl in Hs. simpl. by rewrite Hs.
Qed.

(** X1.  The sample buffer never holds more than [maxSamples] = 10000
    samples, whatever the calls; the capacity itself never changes. *)
Theorem samples_bounded (calls : list call) :
  maxSamples (run calls) = 10000%Z ∧
  (Z.of_nat (length (samples (run calls))) ≤ maxSamples (run calls))%Z.
Proof. apply samples_capacity. Qed.

(** X2.  Up to the capacity the buffer is a FIFO of everything added: as
    long as no more than 10000 samples have been added, it holds exactly
    the added samples, oldest first, whatever reads came in between. *)
Theorem samples_fifo (calls : list call) :
  (Z.of_nat (added calls) ≤ 10000)%Z →
  samples (run calls) = addedSamples calls.
Proof.
  induction calls as [|c calls IH] using rev_ind; intros Hle; [done|].
  rewrite run_snoc_ts, addedSamples_snoc. rewrite added_snoc in Hle.
  destruct c as [x|x|].
  - simpl. unfold AddSample. cbn [samples].
    destruct (samples_capacity calls) as [Hm _].
    rewrite IH by lia. rewrite decide_False; [done|].
    rewrite Hm, length_app, addedSamples_length. simpl. lia.
  - pose proof (samples_step_read (run calls) (CallCalculateAnomalyScore x)) as Hs.
    simpl in Hs. simpl. rewrite Hs, app_nil_r. apply IH. lia.
  - pose proof (samples_step_read (run calls) CallGetStats) as Hs.
    simpl in Hs. simpl. rewrite Hs, app_nil_r. apply IH. lia.
Qed.

Lemma lazy_values (ts : t) :
  inv ts → samples ts ≠ [] →
  let ts1 := if needRecalc ts then recalculateStats ts else ts in
  mean ts1 = meanOf (samples ts) ∧ stdDev ts1 = stdDevOf (samples ts) ∧
  count ts1 = count ts ∧ needRecalc ts1 = false ∧ samples ts1 = samples ts.
Proof.
  intros (Hm & Hsd & Hne & Hclean) Hs. destruct (needRecalc ts) eqn:Hd; cbv zeta.
  - destruct (recalculateStats_spec ts Hs) as (-> & -> & -> & -> & -> & _). done.
  - destruct (Hclean eq_refl) as (_ & -> & ->). done.
Qed.

Lemma run_nonempty (calls : list call) :
  (1 ≤ added calls)%nat → (Z.of_nat (added calls) < 2 ^ 63)%Z →
  samples (run calls) ≠ [] ∧ count (run calls) = Z.of_nat (added calls).
Proof.
  intros Hge Hlt. pose proof (count_run calls) as Hc.
  rewrite wrap_int64_small in Hc by lia. split; [|done].
  destruct (inv_run calls) as (_ & _ & Hne & _). apply Hne. lia.
Qed.

(** The value of the anomaly score once ten samples have been added. *)
Lemma anomaly_value (calls : list call) (d : Z) :
  (10 ≤ added calls)%nat → (Z.of_nat (added calls) < 2 ^ 63)%Z →
  let m := meanOf (samples (run calls)) in
  let sd := stdDevOf (samples (run calls)) in
  (CalculateAnomalyScore (run calls) d).1 =
    if decide (sd = 0%R) then 0%R else Rmin (Rabs (IZR d - m) / sd / 2) 1.
Proof.
  intros Hge Hlt m sd.
  destruct (run_nonempty calls ltac:(lia) Hlt) as [Hs Hc].
  destruct (lazy_values (run calls) (inv_run calls) Hs) as (Hm & Hsd & _).
  unfold CalculateAnomalyScore. rewrite decide_False by lia.
  rewrite Hm, Hsd. fold m sd. by case_decide.
Qed.

Lemma run_no_samples (calls : list call) :
  added calls = O → run calls = NewTimeStats.
Proof.
  induction calls as [|c calls IH] using rev_ind; intros Hz; [done|].
  rewrite added_snoc in Hz. rewrite run_snoc_ts, IH by lia.
  destruct c; [lia|done|done].
Qed.

(** X3.  [GetStats] after any sequence of calls: on a statistics object
    without samples it reports (0, 0, 0); once samples have been added
    (fewer than 2^63) it reports the mean and the standard deviation of the
    present buffer and the number of samples added; it leaves the buffer
    as it is, and asking again gives the same report and changes nothing. *)
Theorem GetStats_report (calls : list call) :
  let ts := run calls in
  let out := GetStats ts in
  (added calls = O → out.1 = (0%R, 0%R, 0%Z)) ∧
  ((1 ≤ added calls)%nat → (Z.of_nat (added calls) < 2 ^ 63)%Z →
     out.1 = (meanOf (samples ts), stdDevOf (samples ts),
              Z.of_nat (added calls))) ∧
  samples out.2 = samples ts ∧
  GetStats out.2 = (out.1, out.2).
Proof.
  intros ts out. subst out ts. split_and!.
  - intros Hz. rewrite (run_no_samples calls Hz). done.
  - intros Hge Hlt. destruct (run_nonempty calls Hge Hlt) as [Hs Hc].
    destruct (lazy_values (run calls) (inv_run calls) Hs) as (Hm & Hsd & Hcnt & _).
    unfold GetStats. cbn [fst]. rewrite Hm, Hsd, Hcnt, Hc. done.
  - unfold GetStats. cbn [snd]. apply samples_lazy.
  - unfold GetStats. cbn [fst snd].
    destruct (decide (samples (run calls) = [])) as [Hnil|Hs].
    + assert (Hid : recalculateStats (run calls) = run calls).
      { unfold recalculateStats. by rewrite Hnil. }
      destruct (needRecalc (run calls)) eqn:Hd; rewrite ?Hid, ?Hd, ?Hid; done.
    + destruct (lazy_values (run calls) (inv_run calls) Hs)
        as (_ & _ & _ & Hclean & _).
      cbv zeta in Hclean. by rewrite Hclean.
Qed.

Lemma AddSample_subset (ts : t) (x y : Z) :
  y ∈ samples (AddSample ts x) → y ∈ samples ts ∨ y = x.
Proof.
  unfold AddSample. cbn [samples]. intros Hin.
  assert (Hy : y ∈ samples ts ++ [x]).
  { case_decide; [|done]. rewrite copy_tail in Hin.
    apply (subseteq_take _ _) in Hin.
    apply elem_of_app in Hin as [Hin|Hin]; by apply (subseteq_drop _ _) in Hin. }
  apply elem_of_app in Hy as [?|Hy]; [by left|right].
  by apply list_elem_of_singleton in Hy.
Qed.

(** Every sample in the buffer is one that has been added. *)
Lemma samples_subset (calls : list call) (y : Z) :
  y ∈ samples (run calls) → y ∈ addedSamples calls.
Proof.
  induction calls as [|c calls IH] using rev_ind; [done|].
  rewrite run_snoc_ts, addedSamples_snoc. intros Hin.
  destruct c as [x|x|].
  - apply AddSample_subset in Hin as [Hin| ->]; apply elem_of_app.
    + left. by apply IH.
    + right. by left.
  - pose proof (samples_step_read (run calls) (CallCalculateAnomalyScore x)) as Hs.
    simpl in Hs. simpl in Hin. rewrite Hs in Hin. rewrite app_nil_r. by apply IH.
  - pose proof (samples_step_read (run calls) CallGetStats) as Hs.
    simpl in Hs. simpl in Hin. rewrite Hs in Hin. rewrite app_nil_r. by apply IH.
Qed.

Lemma sumZ_bounds (l : list Z) (b : Z) :
  Forall (λ x, 0 ≤ x < b)%Z l → (0 ≤ sumZ l ≤ Z.of_nat (length l) * b)%Z.
Proof. induction 1 as [|x l Hx Hl IH]; simpl; lia. Qed.

(** X4.  When every added sample is below 2^50 (microseconds: some 35
    years), the [uint64] sum of the buffer cannot wrap, and the mean that
    [GetStats] reports is the arithmetic mean of the buffer. *)
Theorem GetStats_mean_exact (calls : list call) :
  (1 ≤ added calls)%nat → (Z.of_nat (added calls) < 2 ^ 63)%Z →
  Forall (λ x, 0 ≤ x < 2 ^ 50)%Z (addedSamples calls) →
  let buf := samples (run calls) in
  (GetStats (run calls)).1.1.1 = (IZR (sumZ buf) / INR (length buf))%R.
Proof.
  intros Hge Hlt Hall buf.
  destruct (run_nonempty calls Hge Hlt) as [Hs Hc].
  destruct (lazy_values (run calls) (inv_run calls) Hs) as (Hm & _).
  unfold GetStats. cbn [fst]. rewrite Hm. unfold meanOf. fold buf.
  assert (Hbuf : Forall (λ x, 0 ≤ x < 2 ^ 50)%Z buf).
  { apply Forall_forall. intros y Hy. apply samples_subset in Hy.
    by eapply (proj1 (Forall_forall _ _) Hall). }
  pose proof (sumZ_bounds buf (2 ^ 50) Hbuf) as Hsum.
  destruct (samples_capacity calls) as [Hmax Hlen]. fold buf in Hlen.
  rewrite Hmax in Hlen.
  rewrite Z.mod_small; [done|]. nia.
Qed.

(** X5.  With ten or more samples (fewer than 2^63): a duration that is
    farther from the mean never scores lower, and a duration equal to the
    mean scores 0.  When the standard deviation of the buffer is not zero,
    a duration at least two standard deviations away from the mean scores
    exactly 1; when it is zero, every duration scores 0. *)
Theorem anomaly_score_shape (calls : list call) (d1 d2 : Z) :
  (10 ≤ added calls)%nat → (Z.of_nat (added calls) < 2 ^ 63)%Z →
  let ts := run calls in
  let m := meanOf (samples ts) in
  let sd := stdDevOf (samples ts) in
  let score d := (CalculateAnomalyScore ts d).1 in
  ((Rabs (IZR d1 - m) <= Rabs (IZR d2 - m))%R → (score d1 <= score d2)%R) ∧
  (sd ≠ 0%R → (2 * sd <= Rabs (IZR d2 - m))%R → score d2 = 1%R) ∧
  (sd = 0%R → score d2 = 0%R) ∧
  (IZR d1 = m → score d1 = 0%R).
Proof.
  intros Hge Hlt ts m sd score. unfold score.
  rewrite !(anomaly_value calls _ Hge Hlt). fold ts m sd.
  pose proof (stdDevOf_nonneg (samples ts)) as Hsd. fold sd in Hsd.
  split_and!.
  - intros Hle. case_decide; [lra|].
    assert (Hinv : (0 < / sd)%R) by (apply Rinv_0_lt_compat; lra).
    apply Rle_min_compat_r. unfold Rdiv.
    apply Rmult_le_compat_r; [lra|]. apply Rmult_le_compat_r; [lra|done].
  - intros Hne Hfar. rewrite decide_False by done. apply Rmin_right.
    assert (Hinv : (0 < / sd)%R) by (apply Rinv_0_lt_compat; lra).
    unfold Rdiv. apply Rmult_le_reg_r with (2 * sd)%R; [lra|].
    replace (Rabs (IZR d2 - m) * / sd * / 2 * (2 * sd))%R
      with (Rabs (IZR d2 - m) * (/ sd * sd))%R by (field; lra).
    rewrite Rinv_l by lra. lra.
  - intros Hz. by rewrite decide_True.
  - intros ->. case_decide; [done|].
    replace (m - m)%R with 0%R by lra. rewrite Rabs_R0.
    unfold Rdiv. rewrite !Rmult_0_l. apply Rmin_left. lra.
Qed.




(** X30.  A sample that arrives at a full buffer is not kept: after any
    calls that have left 10000 samples in the buffer, [AddSample] keeps
    the later half of the old samples and nothing else, so that the buffer
    is the same whatever duration is added, while the counter of samples
    is still raised by one. *)
Theorem AddSample_when_full (calls : list call) (x y : Z) :
  Z.of_nat (length (samples (run calls))) = 10000%Z →
  let ts := run calls in
  samples (AddSample ts x) = drop (Z.to_nat 5000) (samples ts) ∧
  Z.of_nat (length (samples (AddSample ts x))) = 5000%Z ∧
  samples (AddSample ts x) = samples (AddSample ts y) ∧
  count (AddSample ts x) = Go.wrap_int64 (count ts + 1).
Proof.
  intros Hfull ts. destruct (samples_capacity calls) as [Hm _]. fold ts in Hm, Hfull.
  assert (Hk : ∀ z, samples (AddSample ts z) = drop (Z.to_nat 5000) (samples ts)).
  { intros z. rewrite AddSample_full_buffer by (rewrite Hm; exact Hfull).
    rewrite Hm. change (10000 `quot` 2)%Z with 5000%Z.
    apply take_ge. rewrite length_drop. lia. }
  split; [apply Hk|]. split; [|split].
  - rewrite Hk, length_drop. lia.
  - by rewrite !Hk.
  - done.
Qed.

End TimeStatsMore.

Lemma samples_fifo_witness :
  (Z.of_nat (TimeStats.added
     [TimeStats.CallAddSample 3; TimeStats.CallGetStats;
      TimeStats.CallAddSample 5]) ≤ 10000)%Z ∧
  TimeStats.samples (TimeStats.run
     [TimeStats.CallAddSample 3; TimeStats.CallGetStats;
      TimeStats.CallAddSample 5]) = [3%Z; 5%Z].
Proof.
  split; [simpl; lia|].
  apply (samples_fifo [TimeStats.CallAddSample 3; TimeStats.CallGetStats;
                       TimeStats.CallAddSample 5]).
  simpl. lia.
Defined.

Lemma GetStats_mean_exact_witness :
  let calls := [TimeStats.CallAddSample 3; TimeStats.CallAddSample 5] in
  (1 ≤ TimeStats.added calls)%nat ∧
  (Z.of_nat (TimeStats.added calls) < 2 ^ 63)%Z ∧
  Forall (λ x, 0 ≤ x < 2 ^ 50)%Z (History.addedSamples calls) ∧
  (TimeStats.GetStats (TimeStats.run calls)).1.1.1 =
    (IZR (Stats.sumZ (TimeStats.samples (TimeStats.run calls))) /
     INR (length (TimeStats.samples (TimeStats.run calls))))%R.
Proof.
  intros calls.
  assert (H1 : (1 ≤ TimeStats.added calls)%nat) by (simpl; lia).
  assert (H2 : (Z.of_nat (TimeStats.added calls) < 2 ^ 63)%Z) by (simpl; lia).
  assert (H3 : Forall (λ x, 0 ≤ x < 2 ^ 50)%Z (History.addedSamples calls)).
  { simpl. repeat constructor; lia. }
  split; [exact H1|]. split; [exact H2|]. split; [exact H3|].
  exact (GetStats_mean_exact calls H1 H2 H3).
Defined.

(** The mean and the variance of the samples 1 .. 10. *)
Lemma one_to_ten :
  let buf := TimeStats.samples
               (TimeStats.run (TimeStats.CallAddSample <$>
                                 [1; 2; 3; 4; 5; 6; 7; 8; 9; 10]%Z)) in
  Stats.meanOf buf = 5.5%R ∧
  (0 < Stats.stdDevOf buf <= 3)%R.
Proof.
  intros buf.
  assert (Hbuf : buf = [1; 2; 3; 4; 5; 6; 7; 8; 9; 10]%Z) by reflexivity.
  assert (Hm : Stats.meanOf buf = 5.5%R).
  { rewrite Hbuf. unfold Stats.meanOf.
    change (Stats.sumZ [1; 2; 3; 4; 5; 6; 7; 8; 9; 10] `mod` 2 ^ 64)%Z with 55%Z.
    cbn [length]. rewrite !S_INR. cbn [INR]. lra. }
  split; [exact Hm|].
  unfold Stats.stdDevOf. rewrite Hm, Hbuf.
  assert (Hv : (Stats.sumSq 5.5 [1; 2; 3; 4; 5; 6; 7; 8; 9; 10]%Z /
                INR (length [1; 2; 3; 4; 5; 6; 7; 8; 9; 10]%Z))%R = 8.25%R).
  { cbn [length Stats.sumSq foldr]. rewrite !S_INR. cbn [INR]. lra. }
  rewrite Hv. split.
  - apply sqrt_lt_R0. lra.
  - rewrite <- (sqrt_square 3) by lra. apply sqrt_le_1; lra.
Defined.

(** The samples 1 .. 10 and the durations 5 and 1000, for X5. *)
Lemma anomaly_score_shape_witness :
  let calls := TimeStats.CallAddSample <$> [1; 2; 3; 4; 5; 6; 7; 8; 9; 10]%Z in
  (10 ≤ TimeStats.added calls)%nat ∧
  (Z.of_nat (TimeStats.added calls) < 2 ^ 63)%Z ∧
  ((TimeStats.CalculateAnomalyScore (TimeStats.run calls) 5).1 <=
   (TimeStats.CalculateAnomalyScore (TimeStats.run calls) 1000).1)%R ∧
  (TimeStats.CalculateAnomalyScore (TimeStats.run calls) 1000).1 = 1%R.
Proof.
  intros calls.
  assert (H1 : (10 ≤ TimeStats.added calls)%nat) by (simpl; lia).
  assert (H2 : (Z.of_nat (TimeStats.added calls) < 2 ^ 63)%Z) by (simpl; lia).
  destruct one_to_ten as [Hm [Hpos Hle]]. fold calls in Hm, Hpos, Hle.
  split; [exact H1|]. split; [exact H2|].
  destruct (anomaly_score_shape calls 5 1000 H1 H2) as (Hmono & Hfar & _).
  split.
  - apply Hmono. rewrite Hm. unfold Rabs.
    repeat destruct (Rcase_abs _); lra.
  - apply Hfar; [lra|]. rewrite Hm. unfold Rabs.
    destruct (Rcase_abs _); lra.
Defined.


(** The buffer filled with 1 .. 10000, for X30. *)
Lemma AddSample_when_full_witness :
  let calls := TimeStats.CallAddSample <$> seqZ 1 10000 in
  Z.of_nat (length (TimeStats.samples (TimeStats.run calls))) = 10000%Z ∧
  TimeStats.samples (TimeStats.AddSample (TimeStats.run calls) 10001) =
  TimeStats.samples (TimeStats.AddSample (TimeStats.run calls) 0).
Proof.
  intros calls.
  assert (Hfull : Z.of_nat (length (TimeStats.samples (TimeStats.run calls)))
                  = 10000%Z).
  { unfold calls, TimeStats.run. rewrite samples_adds.
    - cbn [TimeStats.samples TimeStats.NewTimeStats app]. rewrite length_seqZ. lia.
    - rewrite length_seqZ.
      cbn [TimeStats.samples TimeStats.maxSamples TimeStats.NewTimeStats length]. lia. }
  split; [exact Hfull|].
  exact (proj1 (proj2 (proj2 (AddSample_when_full calls 10001 0 Hfull)))).
Defined.

(** ** Further properties of the log matcher *)

Section LogMatcherFacts.
Import KernelLogMatcher LogMatcherMore.

Lemma patternStep_max (log : string) (a : acc) (p : LogPattern) :
  (maxScore a <= maxScore (patternStep log a p))%R.
Proof.
  unfold patternStep. destruct (Regexp.MatchString _ _); [|lra].
  destruct (negb _); [|lra]. cbn [maxScore]. case_decide; lra.
Qed.

Lemma patterns_max (log : string) (ps : list LogPattern) (a : acc) :
  (maxScore a <= maxScore (fold_left (patternStep log) ps a))%R.
Proof.
  revert a. induction ps as [|p ps IH]; intros a; simpl; [lra|].
  etrans; [apply (patternStep_max log a p)|apply IH].
Qed.

Lemma lineStep_max (klm : t) (a : acc) (log : string) :
  (maxScore a <= maxScore (lineStep klm a log))%R.
Proof. unfold lineStep. case_decide; [lra|apply patterns_max]. Qed.

Lemma lines_max (klm : t) (logs : list string) (a : acc) :
  (maxScore a <= maxScore (fold_left (lineStep klm) logs a))%R.
Proof.
  revert a. induction logs as [|l logs IH]; intros a; simpl; [lra|].
  etrans; [apply (lineStep_max klm a l)|apply IH].
Qed.

Lemma lines_skip_blank (klm : t) (logs : list string) (a : acc) :
  fold_left (lineStep klm) logs a =
    fold_left (lineStep klm) (filter nonBlank logs) a.
Proof.
  revert a. induction logs as [|l logs IH]; intros a; [done|].
  rewrite filter_cons. cbn [fold_left]. unfold nonBlank at 1.
  destruct (decide (Strings.TrimSpace l ≠ "")) as [Hne|He].
  - cbn [fold_left]. apply IH.
  - rewrite <- IH. f_equal. unfold lineStep. rewrite decide_True; [done|].
    by destruct (decide (Strings.TrimSpace l = "")).
Qed.

Lemma CalculateScore_bounds (klm : t) (logs : list string) :
  (0 <= CalculateScore klm logs <= 1)%R.
Proof.
  unfold CalculateScore. destruct logs as [|x l]; [lra|].
  set (a := fold_left (lineStep klm) (x :: l) (mkAcc 0 ∅)).
  pose proof (lines_max klm (x :: l) (mkAcc 0 ∅)) as Hmax. fold a in Hmax.
  cbn [maxScore] in Hmax.
  cbv zeta.
  set (b := if decide (1 < size (matchedPatterns a))%nat then _ else _).
  assert (Hb : (0 <= b)%R).
  { unfold b. case_decide; [|lra]. apply Rmult_le_pos; [|lra].
    apply IZR_le. lia. }
  case_decide; lra.
Qed.

(** X7.  Whatever the pattern table and the lines, the score of
    [CalculateScore] lies in [0, 1]; and lines that are empty once trimmed
    count for nothing: the score is that of the other lines alone. *)
Theorem CalculateScore_range (klm : t) (logs : list string) :
  (0 <= CalculateScore klm logs <= 1)%R ∧
  CalculateScore klm logs = CalculateScore klm (filter nonBlank logs).
Proof.
  split; [apply CalculateScore_bounds|].
  destruct (filter nonBlank logs) as [|y l'] eqn:Hf.
  - change (CalculateScore klm []) with 0%R.
    unfold CalculateScore. destruct logs as [|x l]; [done|].
    rewrite lines_skip_blank, Hf. cbn [fold_left matchedPatterns maxScore].
    rewrite map_size_empty. rewrite (decide_False (P := (1 < 0)%nat)) by lia.
    rewrite decide_False by lra. lra.
  - unfold CalculateScore. destruct logs as [|x l]; [done|].
    rewrite <- Hf. by rewrite <- lines_skip_blank.
Qed.

Lemma foundStep_spec (log : string) (a : found) (p : LogPattern) :
  foundInv a →
  foundInv (foundStep log a p) ∧
  ∀ d, d ∈ matched (foundStep log a p) ↔
       d ∈ matched a ∨
       (Regexp.MatchString (Pattern p) log = true ∧ Description p = d).
Proof.
  intros (Hnd & Hset & Hsize & Htrue). unfold foundStep.
  destruct (Regexp.MatchString (Pattern p) log) eqn:Hm;
    [|split; [done|naive_solver]].
  destruct (default false (matchedSet a !! Description p)) eqn:Hseen; cbn [negb].
  - split; [done|]. intros d. split; [by left|].
    intros [?|[_ <-]]; [done|]. by apply Hset.
  - assert (Hnin : Description p ∉ matched a).
    { intros Hin. apply Hset in Hin. congruence. }
    assert (Hnone : matchedSet a !! Description p = None).
    { destruct (matchedSet a !! Description p) as [v|] eqn:Hl; [|done].
      rewrite (Htrue _ _ Hl) in Hseen. done. }
    split.
    + split_and!; cbn [matched matchedSet].
      * apply NoDup_app. split_and!; [done| |apply NoDup_singleton].
        intros x Hx Hx'. apply list_elem_of_singleton in Hx' as ->. done.
      * intros d. rewrite elem_of_app, list_elem_of_singleton.
        destruct (decide (Description p = d)) as [<-|Hne].
        -- rewrite lookup_insert_eq. naive_solver.
        -- rewrite lookup_insert_ne by done. rewrite Hset. naive_solver.
      * rewrite map_size_insert_None by done. rewrite length_app. simpl. lia.
      * intros d v Hl. apply lookup_insert_Some in Hl as [[_ <-]|[_ Hl]]; [done|].
        by eapply Htrue.
    + intros d. cbn [matched]. rewrite elem_of_app, list_elem_of_singleton.
      naive_solver.
Qed.

Lemma foundPatterns_spec (log : string) (ps : list LogPattern) (a : found) :
  foundInv a →
  foundInv (fold_left (foundStep log) ps a) ∧
  ∀ d, d ∈ matched (fold_left (foundStep log) ps a) ↔
       d ∈ matched a ∨
       ∃ p, p ∈ ps ∧ Regexp.MatchString (Pattern p) log = true ∧ Description p = d.
Proof.
  revert a. induction ps as [|p ps IH]; intros a Hinv.
  - split; [done|]. intros d. split; [by left|]. intros [?|(p & Hp & _)]; [done|].
    by apply elem_of_nil in Hp.
  - cbn [fold_left]. destruct (foundStep_spec log a p Hinv) as [Hinv' Hd].
    destruct (IH _ Hinv') as [Hinv'' Hd']. split; [done|].
    intros d. rewrite Hd', Hd. split.
    + intros [[?|[? ?]]|(q & Hq & ? & ?)]; [by left| |].
      * right. exists p. split; [by left|done].
      * right. exists q. split; [by right|done].
    + intros [?|(q & Hq & ? & ?)]; [by left; left|].
      apply elem_of_cons in Hq as [->|Hq]; [left; by right|].
      right. exists q. done.
Qed.

Lemma foundLines_spec (klm : t) (logs : list string) (a : found) :
  foundInv a →
  foundInv (fold_left (foundLine klm) logs a) ∧
  ∀ d, d ∈ matched (fold_left (foundLine klm) logs a) ↔
       d ∈ matched a ∨ hits klm logs d.
Proof.
  revert a. induction logs as [|l logs IH]; intros a Hinv.
  - split; [done|]. intros d. split; [by left|].
    intros [?|(l & p & Hl & _)]; [done|]. by apply elem_of_nil in Hl.
  - cbn [fold_left].
    assert (Hline : foundInv (foundLine klm a l) ∧
              ∀ d, d ∈ matched (foundLine klm a l) ↔
                   d ∈ matched a ∨ hits klm [l] d).
    { unfold foundLine. case_decide as Hb.
      - split; [done|]. intros d. split; [by left|].
        intros [?|(l' & p & Hl & Hnb & _)]; [done|].
        apply list_elem_of_singleton in Hl as ->. done.
      - destruct (foundPatterns_spec (Strings.TrimSpace l) (patterns klm) a Hinv)
          as [Hinv' Hd]. split; [done|]. intros d. rewrite Hd. split.
        + intros [?|(p & Hp & Hm & Hde)]; [by left|]. right.
          exists l, p. split_and!; try done. by left.
        + intros [?|(l' & p & Hl & Hnb & Hp & Hde & Hm)]; [by left|].
          apply list_elem_of_singleton in Hl as ->. right. by exists p. }
    destruct Hline as [Hinv' Hd]. destruct (IH _ Hinv') as [Hinv'' Hd'].
    split; [done|]. intros d. rewrite Hd', Hd. split.
    + intros [[?|(l' & p & Hl & Hrest)]|(l' & p & Hl & Hrest)]; [by left| |].
      * apply list_elem_of_singleton in Hl as ->. right. exists l, p.
        split; [by left|done].
      * right. exists l', p. split; [by right|done].
    + intros [?|(l' & p & Hl & Hrest)]; [by left; left|].
      apply elem_of_cons in Hl as [->|Hl].
      * left. right. exists l, p. split; [by left|done].
      * right. exists l', p. done.
Qed.

Lemma foundInv_init : foundInv (mkFound [] ∅).
Proof.
  split_and!; cbn [matched matchedSet].
  - apply NoDup_nil_2.
  - intros d. rewrite lookup_empty. simpl. split; [done|].
    intros Hin. by apply elem_of_nil in Hin.
  - by rewrite map_size_empty.
  - intros d v. by rewrite lookup_empty.
Qed.

(** X8.  [GetMatchedPatterns] lists every category once: the result has
    no repetition, and a description is in it exactly when one of the
    patterns with that description matches one of the lines (trimmed, and
    not empty after trimming). *)
Theorem GetMatchedPatterns_spec (klm : t) (logs : list string) :
  NoDup (GetMatchedPatterns klm logs) ∧
  ∀ d, d ∈ GetMatchedPatterns klm logs ↔ hits klm logs d.
Proof.
  unfold GetMatchedPatterns.
  destruct (foundLines_spec klm logs _ foundInv_init) as [(Hnd & _) Hd].
  split; [done|]. intros d. rewrite Hd. cbn [matched]. split; [|by right].
  intros [Hin|?]; [|done]. by apply elem_of_nil in Hin.
Qed.

Lemma linked_step (lo hi : R) (log : string) (a : acc) (f : found)
    (p : LogPattern) :
  (0 <= lo)%R → (lo <= Score p <= hi)%R →
  linked lo hi a f → linked lo hi (patternStep log a p) (foundStep log f p).
Proof.
  intros Hlo Hp (Hmap & Hnil & Hne). unfold patternStep, foundStep.
  destruct (Regexp.MatchString (Pattern p) log); [|done].
  rewrite Hmap. destruct (negb _); [|done].
  split_and!; cbn [matchedPatterns matchedSet matched maxScore].
  - done.
  - intros Happ. by destruct (matched f).
  - intros _. destruct (decide (matched f = [])) as [He|Hn].
    + rewrite (Hnil He). case_decide; lra.
    + specialize (Hne Hn). case_decide; lra.
Qed.

Lemma linked_patterns (lo hi : R) (log : string) (ps : list LogPattern)
    (a : acc) (f : found) :
  (0 <= lo)%R → Forall (λ p, lo <= Score p <= hi)%R ps →
  linked lo hi a f →
  linked lo hi (fold_left (patternStep log) ps a) (fold_left (foundStep log) ps f).
Proof.
  intros Hlo Hall. revert a f.
  induction Hall as [|p ps Hp Hps IH]; intros a f Hl; [done|].
  cbn [fold_left]. apply IH. by apply linked_step.
Qed.

Lemma linked_lines (lo hi : R) (klm : t) (logs : list string) (a : acc) (f : found) :
  (0 <= lo)%R → Forall (λ p, lo <= Score p <= hi)%R (patterns klm) →
  linked lo hi a f →
  linked lo hi (fold_left (lineStep klm) logs a) (fold_left (foundLine klm) logs f).
Proof.
  intros Hlo Hall. revert a f. induction logs as [|l logs IH]; intros a f Hl; [done|].
  cbn [fold_left]. apply IH. unfold lineStep, foundLine.
  case_decide; [done|]. by apply linked_patterns.
Qed.

(** X9.  The score and the number [n] of categories that
    [GetMatchedPatterns] reports, for a table whose severities lie between
    [lo >= 0] and [hi]: without a match the score is 0; with [n >= 1]
    categories it lies between [lo + 0.1 (n - 1)] and [hi + 0.1 (n - 1)],
    both cut at 1. *)
Theorem score_by_categories (klm : t) (logs : list string) (lo hi : R) :
  (0 <= lo)%R → Forall (λ p, lo <= Score p <= hi)%R (patterns klm) →
  let n := length (GetMatchedPatterns klm logs) in
  (n = O → CalculateScore klm logs = 0%R) ∧
  ((1 ≤ n)%nat →
     (Rmin 1 (lo + 0.1 * INR (n - 1)) <= CalculateScore klm logs)%R ∧
     (CalculateScore klm logs <= Rmin 1 (hi + 0.1 * INR (n - 1)))%R).
Proof.
  intros Hlo Hall n. unfold n, GetMatchedPatterns, CalculateScore.
  destruct logs as [|x l]; [split; [done|simpl; lia]|].
  assert (Hinit : linked lo hi (mkAcc 0 ∅) (mkFound [] ∅)) by (by split_and!).
  pose proof (linked_lines lo hi klm (x :: l) _ _ Hlo Hall Hinit)
    as (Hmap & Hnil & Hne).
  destruct (foundLines_spec klm (x :: l) _ foundInv_init) as [(_ & _ & Hsize & _) _].
  set (a := fold_left (lineStep klm) (x :: l) (mkAcc 0 ∅)) in *.
  set (f := fold_left (foundLine klm) (x :: l) (mkFound [] ∅)) in *.
  cbv zeta. rewrite Hmap, Hsize. split.
  - intros Hz. rewrite Hz. rewrite (decide_False (P := (1 < 0)%nat)) by lia.
    rewrite Hnil by (by destruct (matched f)).
    rewrite decide_False by lra. lra.
  - intros Hge. assert (Hn : matched f ≠ []) by (destruct (matched f); [simpl in Hge; lia|done]).
    specialize (Hne Hn).
    assert (Hpos : (0 <= INR (length (matched f) - 1))%R) by apply pos_INR.
    assert (Hb : (INR (length (matched f) - 1) =
                  IZR (Z.of_nat (length (matched f)) - 1))%R).
    { rewrite INR_IZR_INZ. f_equal. lia. }
    destruct (decide (1 < length (matched f))%nat) as [Hc|Hc].
    + rewrite <- Hb. split.
      * case_decide; [etrans; [apply Rmin_l|lra] | etrans; [apply Rmin_r|lra]].
      * case_decide; apply Rmin_glb; lra.
    + replace (length (matched f) - 1)%nat with O in * by lia.
      simpl (INR 0) in *. split.
      * case_decide; [etrans; [apply Rmin_l|lra] | etrans; [apply Rmin_r|lra]].
      * case_decide; apply Rmin_glb; lra.
Qed.

Lemma dominated_step (d : string) (log : string) (a a' : acc) (q : LogPattern) :
  Description q ≠ d →
  dominated d a a' →
  dominated d (patternStep log a q) (patternStep log a' q).
Proof.
  intros Hq (Hmax & Hnone & Hmaps). unfold patternStep.
  destruct (Regexp.MatchString (Pattern q) log); [|done].
  assert (Hsame : matchedPatterns a' !! Description q =
                  matchedPatterns a !! Description q).
  { destruct Hmaps as [->| ->]; [done|]. by rewrite lookup_insert_ne. }
  rewrite Hsame. destruct (negb _); [|done].
  split_and!; cbn [maxScore matchedPatterns].
  - repeat case_decide; lra.
  - by rewrite lookup_insert_ne.
  - destruct Hmaps as [->| ->]; [by left|right].
    by apply insert_insert_ne.
Qed.

Lemma dominated_patterns (d : string) (log : string) (ps : list LogPattern)
    (a a' : acc) :
  Forall (λ q, Description q ≠ d) ps →
  dominated d a a' →
  dominated d (fold_left (patternStep log) ps a) (fold_left (patternStep log) ps a').
Proof.
  intros Hall. revert a a'.
  induction Hall as [|q ps Hq Hps IH]; intros a a' Hd; [done|].
  cbn [fold_left]. apply IH. by apply dominated_step.
Qed.

Lemma dominated_last (d : string) (log : string) (a a' : acc) (p : LogPattern) :
  Description p = d → dominated d a a' → dominated d a (patternStep log a' p).
Proof.
  intros <- (Hmax & Hnone & Hmaps). unfold patternStep.
  destruct (Regexp.MatchString (Pattern p) log); [|done].
  destruct Hmaps as [Hm|Hm]; rewrite Hm.
  - rewrite Hnone. cbn [default negb]. split_and!; cbn [maxScore matchedPatterns].
    + case_decide; lra.
    + done.
    + by right.
  - rewrite lookup_insert_eq. cbn [default negb]. split_and!; try done. by right.
Qed.

Lemma dominated_lines (d : string) (ps : list LogPattern) (p : LogPattern)
    (logs : list string) (a a' : acc) :
  Forall (λ q, Description q ≠ d) ps → Description p = d →
  dominated d a a' →
  dominated d (fold_left (lineStep (mk ps)) logs a)
              (fold_left (lineStep (mk (ps ++ [p]))) logs a').
Proof.
  intros Hall Hp. revert a a'. induction logs as [|l logs IH]; intros a a' Hd; [done|].
  cbn [fold_left]. apply IH. unfold lineStep. cbn [patterns].
  case_decide; [done|]. rewrite fold_left_app. cbn [fold_left].
  apply dominated_last; [done|]. by apply dominated_patterns.
Qed.

Context `{!Regexp.Pkg}.

(** X10.  [AddCustomPattern] with any expression, in the fragment or
    beyond it: when [regexp.Compile] refuses the expression the call
    reports the error and leaves the matcher as it is; otherwise it puts
    the compiled pattern, with the score and the description given, at the
    end of the table.  When the description is not that of a pattern in
    the table, the call lowers the score of no set of lines. *)
Theorem AddCustomPattern_effect (klm : t) (regex : string) (score : R)
    (description : string) :
  let out := AddCustomPattern klm regex score description in
  (out.1 = true ↔ Regexp.Compile regex = None) ∧
  (out.1 = true → out.2 = klm) ∧
  (out.1 = false →
     ∃ pattern, Regexp.Compile regex = Some pattern ∧
                patterns out.2 =
                patterns klm ++ [mkPattern pattern score description]) ∧
  (description ∉ map Description (patterns klm) →
     ∀ logs, (CalculateScore klm logs <= CalculateScore out.2 logs)%R).
Proof.
  intros out. unfold out, AddCustomPattern.
  destruct (Regexp.Compile regex) as [pattern|]; cbn [fst snd].
  2:{ split_and!; try done; intros _ logs; lra. }
  split_and!; [done|done|by exists pattern|].
  intros Hfresh logs. unfold CalculateScore. destruct logs as [|x l]; [lra|].
  assert (Hall : Forall (λ q, Description q ≠ description) (patterns klm)).
  { apply Forall_forall. intros q Hq Heq. apply Hfresh.
    rewrite <- Heq. by apply list_elem_of_fmap_2. }
  assert (Hinit : dominated description (mkAcc 0 ∅) (mkAcc 0 ∅)).
  { split_and!; cbn [maxScore matchedPatterns];
      first [lra | apply lookup_empty | by left]. }
  pose proof (dominated_lines description (patterns klm)
                (mkPattern pattern score description) (x :: l) _ _
                Hall eq_refl Hinit) as (Hmax & Hnone & Hmaps).
  replace (mk (patterns klm)) with klm in * by (by destruct klm).
  match type of Hmax with
  | (maxScore ?A <= maxScore ?A')%R =>
      assert (Hsize : (size (matchedPatterns A) ≤ size (matchedPatterns A'))%nat);
      [destruct Hmaps as [Hm|Hm]; rewrite Hm;
         [done|rewrite map_size_insert_None by done; lia]|];
      set (a := A) in *; set (a' := A') in *
  end.
  cbv zeta.
  set (b := if decide (1 < size (matchedPatterns a))%nat then _ else _).
  set (b' := if decide (1 < size (matchedPatterns a'))%nat then _ else _).
  assert (Hb : (b <= b')%R).
  { unfold b, b'. repeat case_decide; try lia; try lra.
    - apply Rmult_le_compat_r; [lra|]. apply IZR_le. lia.
    - apply Rmult_le_pos; [|lra]. apply IZR_le. lia. }
  repeat case_decide; lra.
Qed.

End LogMatcherFacts.

Lemma default_severities :
  Forall (λ p, 0.2 <= KernelLogMatcher.Score p <= 1)%R
    (KernelLogMatcher.patterns KernelLogMatcher.NewKernelLogMatcher).
Proof.
  vm_compute KernelLogMatcher.patterns.
  repeat (apply Forall_cons; split; [cbn; lra|]). apply Forall_nil_2.
Defined.

Lemma score_by_categories_witness :
  (0 <= 0.2)%R ∧
  Forall (λ p, 0.2 <= KernelLogMatcher.Score p <= 1)%R
    (KernelLogMatcher.patterns KernelLogMatcher.NewKernelLogMatcher) ∧
  (length (LogMatcherMore.GetMatchedPatterns KernelLogMatcher.NewKernelLogMatcher
             ["normal log message"]) = O →
   KernelLogMatcher.CalculateScore KernelLogMatcher.NewKernelLogMatcher
     ["normal log message"] = 0%R).
Proof.
  assert (Hlo : (0 <= 0.2)%R) by lra.
  split; [exact Hlo|]. split; [exact default_severities|].
  exact (proj1 (score_by_categories KernelLogMatcher.NewKernelLogMatcher
                  ["normal log message"] 0.2 1 Hlo default_severities)).
Defined.

Section LogMatcherShadow.
Context `{!Regexp.Pkg}.

(** X11.  A custom pattern that takes the description of a pattern of the
    table can lower a score: once its description is marked by a match of
    the custom pattern, the pattern of the table is passed over.  With
    ["foo"] added under the description of the KASAN pattern at severity
    0.1, the lines "foo" and "KASAN: x" score 0.1 instead of 1.0. *)
Theorem AddCustomPattern_can_shadow :
  let klm := KernelLogMatcher.NewKernelLogMatcher in
  let out := LogMatcherMore.AddCustomPattern klm "foo" 0.1 "KASAN memory error" in
  out.1 = false ∧
  KernelLogMatcher.CalculateScore klm ["foo"; "KASAN: x"] = 1%R ∧
  KernelLogMatcher.CalculateScore out.2 ["foo"; "KASAN: x"] = 0.1%R.
Proof. split_and!; [reflexivity|eval_score|eval_score]. Qed.

End LogMatcherShadow.

Section LogMatcherWitnesses.
Import KernelLogMatcher LogMatcherMore.

(** The expression [x+], which is beyond the fragment, under a new
    description: the pattern is appended, for X10. *)
Lemma AddCustomPattern_effect_witness :
  let out := AddCustomPattern (H := Instances.regexpPlus) NewKernelLogMatcher
               "x+" 0.3 "Custom" in
  out.1 = false ∧
  ∃ pattern, Regexp.Compile (H := Instances.regexpPlus) "x+" = Some pattern ∧
             patterns out.2 =
             patterns NewKernelLogMatcher ++ [mkPattern pattern 0.3 "Custom"].
Proof.
  intros out. assert (Hout : out.1 = false) by reflexivity.
  split; [exact Hout|].
  exact (proj1 (proj2 (proj2
           (AddCustomPattern_effect (H := Instances.regexpPlus)
              NewKernelLogMatcher "x+" 0.3 "Custom"))) Hout).
Defined.

End LogMatcherWitnesses.

(** ** Further properties of the score tracker *)

Section TrackerMore.
Import ScoreTracker TrackerRuns Sightings.
Context `{!Signal.Pkg}.

(** X12.  The cache of scores: after an enabled [UpdateScore] the score of
    that program is the one just returned and the scores of the other
    programs are what they were; a disabled call caches nothing; and a
    program without a cached score reads as the neutral score, total 0.5. *)
Theorem GetScore_after_UpdateScore (st : t) (progHash other : string) (now : Z)
    (result : ExecutionResult) :
  let out := UpdateScore st progHash now result in
  (Enabled (config st) = true →
     GetScore out.2 progHash = out.1 ∧
     (other ≠ progHash → GetScore out.2 other = GetScore st other)) ∧
  (Enabled (config st) = false → GetScore out.2 other = GetScore st other) ∧
  (scores st !! other = None → Total (GetScore st other) = 0.5%R).
Proof.
  intros out. split_and!.
  - intros Hen.
    destruct (UpdateScore_enabled st progHash now result Hen) as (_ & _ & _ & _ & _ & Hs).
    fold out in Hs. unfold GetScore. rewrite Hs. split.
    + by rewrite lookup_insert_eq.
    + intros Hne. by rewrite lookup_insert_ne.
  - intros Hdis. unfold out. by rewrite UpdateScore_off.
  - intros Hnone. unfold GetScore. by rewrite Hnone.
Qed.

Lemma sightings_snoc (key : string) (calls : list call) (c : call) :
  sightings key (calls ++ [c]) =
    (sightings key calls +
     if decide (Enabled (callConfig c) = true ∧ Signal (callResult c) ≠ ∅ ∧
                Signal.String (Signal (callResult c)) = key)
     then 1 else 0)%nat.
Proof.
  unfold sightings. rewrite filter_app, length_app. f_equal.
  rewrite filter_cons, filter_nil. by case_decide.
Qed.

Lemma sightings_le (key : string) (calls : list call) :
  (sightings key calls ≤ length calls)%nat.
Proof. apply length_filter. Qed.

Lemma step_frequency (st : t) (c : call) (key : string) :
  counter (pathFrequency (step st c)) key =
    if decide (Enabled (callConfig c) = true ∧ Signal (callResult c) ≠ ∅ ∧
               Signal.String (Signal (callResult c)) = key)
    then Go.wrap_int64 (counter (pathFrequency st) key + 1)
    else counter (pathFrequency st) key.
Proof.
  unfold step. destruct (Enabled (callConfig c)) eqn:Hen.
  - destruct (UpdateScore_enabled (with_config st (callConfig c)) (callHash c)
                (callNow c) (callResult c) Hen) as (_ & _ & _ & -> & _).
    cbn [with_config pathFrequency].
    destruct (Signal.Empty (Signal (callResult c))) eqn:He.
    + apply Empty_true in He. rewrite decide_False; [done|]. by intros (_ & ? & _).
    + apply Empty_false in He. rewrite counter_insert.
      destruct (decide (Signal.String (Signal (callResult c)) = key)) as [<-|Hk].
      * by rewrite decide_True.
      * rewrite decide_False; [done|]. by intros (_ & _ & ?).
  - rewrite UpdateScore_off by done.
    rewrite decide_False; [done|]. by intros [? _].
Qed.

(** The frequency recorded for a signature is the number of enabled
    outcomes with a non-empty signal of that signature. *)
Lemma run_frequency (calls : list call) (key : string) :
  (Z.of_nat (length calls) < 2 ^ 63)%Z →
  counter (pathFrequency (run calls)) key = Z.of_nat (sightings key calls).
Proof.
  induction calls as [|c calls IH] using rev_ind; intros Hlen; [done|].
  rewrite length_app in Hlen. simpl in Hlen.
  rewrite run_snoc, step_frequency, sightings_snoc, IH by lia.
  pose proof (sightings_le key calls).
  case_decide; [|f_equal; lia].
  rewrite wrap_int64_small; lia.
Qed.

(** X13.  Rarity against the history of the tracker (fewer than 2^63 - 1
    calls): an enabled call with a non-empty signal scores the rarity 1.0
    when no earlier enabled outcome had its signature, and
    [1 / (1 + ln n)] when [n >= 1] of them had; the outcome itself is
    counted only after its score is computed, and one more sighting is on
    record after the call. *)
Theorem rarity_by_history (calls : list call) (c : call) :
  Enabled (callConfig c) = true → Signal (callResult c) ≠ ∅ →
  (Z.of_nat (length calls) < 2 ^ 63 - 1)%Z →
  let st := with_config (run calls) (callConfig c) in
  let out := UpdateScore st (callHash c) (callNow c) (callResult c) in
  let key := Signal.String (Signal (callResult c)) in
  let n := sightings key calls in
  counter (pathFrequency st) key = Z.of_nat n ∧
  (n = O → Rarity out.1 = 1%R) ∧
  ((1 ≤ n)%nat → Rarity out.1 = (1 / (1 + ln (INR n)))%R) ∧
  counter (pathFrequency out.2) key = Z.of_nat (S n).
Proof.
  intros Hen Hsig Hlen st out key n.
  assert (Hf : counter (pathFrequency st) key = Z.of_nat n).
  { unfold st. cbn [with_config pathFrequency]. apply run_frequency. lia. }
  assert (Hst : Enabled (config st) = true) by done.
  destruct (UpdateScore_enabled st (callHash c) (callNow c) (callResult c) Hst)
    as (_ & Hr & _ & Hfreq & _).
  destruct (calculateRarityScore_spec st (callResult c) Hsig) as (Hz & _ & Hp).
  fold out in Hr, Hfreq. fold key in Hz, Hp, Hfreq. rewrite Hf in Hz, Hp.
  split_and!.
  - done.
  - intros Hn. rewrite Hr. apply Hz. lia.
  - intros Hn. rewrite Hr, Hp by lia. by rewrite INR_IZR_INZ.
  - rewrite Hfreq. apply Empty_false in Hsig. rewrite Hsig.
    rewrite counter_insert, decide_True by done. rewrite Hf.
    pose proof (sightings_le key calls). fold n in H0.
    rewrite wrap_int64_small; lia.
Qed.

Lemma anomaly_range (ts : TimeStats.t) (d : Z) :
  Stats.inv ts → (0 <= (TimeStats.CalculateAnomalyScore ts d).1 <= 1)%R.
Proof.
  intros Hinv. pose proof (inv_lazy ts Hinv) as (_ & Hsd & _).
  unfold TimeStats.CalculateAnomalyScore.
  case_decide; [simpl; lra|]. case_decide as Hz; [simpl; lra|].
  cbn [fst]. unfold Go.Min. set (z := (Rabs _ / _)%R).
  assert (0 <= z)%R.
  { unfold z. apply Rmult_le_pos; [apply Rabs_pos|].
    apply Rlt_le, Rinv_0_lt_compat. lra. }
  split; [apply Rmin_glb; lra | apply Rmin_r].
Qed.

Lemma coverage_range (st : t) (result : ExecutionResult) :
  (0 <= (calculateCoverageScore st result).1 <= 1)%R.
Proof.
  destruct (calculateCoverageScore_spec st result) as (He & Hne & _).
  destruct (decide (Signal result = ∅)) as [Hs|Hs].
  - rewrite (He Hs). simpl. lra.
  - rewrite (Hne Hs). split; [|apply Rmin_r].
    apply Rmin_glb; [|lra].
    assert (He1 : (0 < exp 1)%R) by apply exp_pos.
    assert (Hr : (0 <= INR (length (newElements st (Signal result))) /
                       INR (size (Signal result)))%R).
    { apply Rmult_le_pos; [apply pos_INR|].
      destruct (size (Signal result)) eqn:Hz.
      - simpl. rewrite Rinv_0. lra.
      - apply Rlt_le, Rinv_0_lt_compat. apply lt_0_INR. lia. }
    apply Rmult_le_pos.
    + rewrite <- ln_1. set (x := (_ / _ * exp 1)%R).
      assert (0 <= x)%R by (unfold x; apply Rmult_le_pos; lra).
      destruct (decide (x = 0%R)) as [->|]; [rewrite Rplus_0_r; lra|].
      apply Rlt_le, ln_increasing; lra.
    + apply Rlt_le, Rinv_0_lt_compat. rewrite <- ln_1.
      apply ln_increasing; lra.
Qed.

Lemma weighted_sum_range (w1 w2 w3 w4 d1 d2 d3 d4 : R) :
  (0 <= w1)%R → (0 <= w2)%R → (0 <= w3)%R → (0 <= w4)%R →
  (w1 + w2 + w3 + w4 = 1)%R →
  (0 <= d1 <= 1)%R → (0 <= d2 <= 1)%R → (0 <= d3 <= 1)%R → (0 <= d4 <= 1)%R →
  (0 <= w1 * d1 + w2 * d2 + w3 * d3 + w4 * d4 <= 1)%R.
Proof.
  intros H1 H2 H3 H4 Hs [] [] [] [].
  assert (0 <= w1 * d1 <= w1)%R by (split; nra).
  assert (0 <= w2 * d2 <= w2)%R by (split; nra).
  assert (0 <= w3 * d3 <= w3)%R by (split; nra).
  assert (0 <= w4 * d4 <= w4)%R by (split; nra).
  lra.
Qed.

(** The other fields of the score of an enabled [UpdateScore], and the
    time statistics after the call. *)
Lemma UpdateScore_enabled_rest (st : t) (progHash : string) (now : Z)
    (result : ExecutionResult) :
  Enabled (config st) = true →
  let out := UpdateScore st progHash now result in
  let a := calculateTimeAnomalyScore st result in
  KernelLog out.1 = calculateKernelLogScore st result ∧
  TimeAnomaly out.1 = a.1 ∧
  Total out.1 =
    (CoverageWeight (config st) * Coverage out.1 +
     RarityWeight (config st) * Rarity out.1 +
     KernelLogWeight (config st) * KernelLog out.1 +
     TimeAnomalyWeight (config st) * TimeAnomaly out.1)%R ∧
  Timestamp out.1 = now ∧
  execTimeStats out.2 =
    (if decide (0 < ExecTime result)%Z
     then TimeStats.AddSample (execTimeStats a.2) (ExecTime result)
     else execTimeStats a.2) ∧
  logMatcher out.2 = logMatcher st.
Proof.
  intros Hen out a. unfold out, UpdateScore. rewrite Hen. cbn [negb fst snd].
  destruct (calculateCoverageScore_spec st result) as (_ & _ & _ & Hst).
  set (c := calculateCoverageScore st result) in *.
  assert (Ha : calculateTimeAnomalyScore c.2 result =
               (a.1, with_pcHitCounts a.2 (pcHitCounts c.2))).
  { unfold a, calculateTimeAnomalyScore. rewrite Hst.
    cbn [with_pcHitCounts execTimeStats]. by case_decide. }
  assert (Hk : calculateKernelLogScore c.2 result =
               calculateKernelLogScore st result).
  { unfold calculateKernelLogScore. by rewrite Hst. }
  assert (Hl : logMatcher a.2 = logMatcher st).
  { unfold a, calculateTimeAnomalyScore. by case_decide. }
  rewrite Ha, Hk. cbn [fst snd]. split_and!; try done.
Qed.

Lemma stats_after_call (st : t) (c : call) :
  Stats.inv (execTimeStats st) → Stats.inv (execTimeStats (step st c)).
Proof.
  intros Hinv. unfold step. destruct (Enabled (callConfig c)) eqn:Hen.
  - destruct (UpdateScore_enabled_rest (with_config st (callConfig c)) (callHash c)
                (callNow c) (callResult c) Hen) as (_ & _ & _ & _ & -> & _).
    assert (Ha : Stats.inv (execTimeStats
              (calculateTimeAnomalyScore (with_config st (callConfig c))
                 (callResult c)).2)).
    { unfold calculateTimeAnomalyScore. case_decide; [done|].
      cbn [snd with_execTimeStats with_config execTimeStats].
      apply (inv_step _ (TimeStats.CallCalculateAnomalyScore _) Hinv). }
    case_decide; [|done].
    apply (inv_step _ (TimeStats.CallAddSample _) Ha).
  - by rewrite UpdateScore_off.
Qed.

Lemma stats_run (calls : list call) : Stats.inv (execTimeStats (run calls)).
Proof.
  induction calls as [|c calls IH] using rev_ind.
  - apply (inv_run []).
  - rewrite run_snoc. by apply stats_after_call.
Qed.

Lemma UpdateScore_in_range (calls : list call) (c : call) :
  Enabled (callConfig c) = true →
  (Z.of_nat (length calls) < 2 ^ 63 - 1)%Z →
  let st := with_config (run calls) (callConfig c) in
  let out := UpdateScore st (callHash c) (callNow c) (callResult c) in
  (0 <= Coverage out.1 <= 1)%R ∧ (0 <= Rarity out.1 <= 1)%R ∧
  (0 <= KernelLog out.1 <= 1)%R ∧ (0 <= TimeAnomaly out.1 <= 1)%R ∧
  (validWeights (callConfig c) → (0 <= Total out.1 <= 1)%R).
Proof.
  intros Hen Hlen st out.
  assert (Hst : Enabled (config st) = true) by done.
  destruct (UpdateScore_enabled st (callHash c) (callNow c) (callResult c) Hst)
    as (Hcov & Hrar & _).
  destruct (UpdateScore_enabled_rest st (callHash c) (callNow c) (callResult c) Hst)
    as (Hlog & Hta & Htot & _).
  fold out in Hcov, Hrar, Hlog, Hta, Htot.
  assert (H1 : (0 <= Coverage out.1 <= 1)%R).
  { rewrite Hcov. apply coverage_range. }
  assert (H2 : (0 <= Rarity out.1 <= 1)%R).
  { rewrite Hrar. destruct (decide (Signal (callResult c) = ∅)) as [Hs|Hs].
    - unfold calculateRarityScore. apply Empty_true in Hs. rewrite Hs. lra.
    - destruct (calculateRarityScore_spec st (callResult c) Hs) as (Hz & _ & Hp).
      assert (Hf : counter (pathFrequency st)
                     (Signal.String (Signal (callResult c))) =
                   Z.of_nat (sightings (Signal.String (Signal (callResult c))) calls)).
      { unfold st. cbn [with_config pathFrequency]. apply run_frequency. lia. }
      destruct (sightings (Signal.String (Signal (callResult c))) calls) as [|n] eqn:Hn.
      + rewrite Hz by (rewrite Hf; lia). lra.
      + rewrite Hp by (rewrite Hf; lia). rewrite Hf.
        assert (0 <= ln (IZR (Z.of_nat (S n))))%R.
        { destruct n; [change (Z.of_nat 1) with 1%Z; rewrite ln_1; lra|]. rewrite <- ln_1.
          apply Rlt_le, ln_increasing; [lra|]. apply IZR_lt. lia. }
        split.
        * apply Rmult_le_pos; [lra|]. apply Rlt_le, Rinv_0_lt_compat. lra.
        * apply Rmult_le_reg_r with (1 + ln (IZR (Z.of_nat (S n))))%R; [lra|].
          unfold Rdiv. rewrite Rmult_assoc, Rinv_l by lra. lra. }
  assert (H3 : (0 <= KernelLog out.1 <= 1)%R).
  { rewrite Hlog. unfold calculateKernelLogScore.
    destruct (KernelLogs (callResult c)); [lra|]. apply CalculateScore_bounds. }
  assert (H4 : (0 <= TimeAnomaly out.1 <= 1)%R).
  { rewrite Hta. unfold calculateTimeAnomalyScore. case_decide; [simpl; lra|].
    cbn [fst]. apply anomaly_range. unfold st. cbn [with_config execTimeStats].
    apply stats_run. }
  refine (conj H1 (conj H2 (conj H3 (conj H4 _)))).
  intros (Hw1 & Hw2 & Hw3 & Hw4 & Hsum). rewrite Htot.
  by apply weighted_sum_range.
Qed.

(** X14.  Every dimension of the score of an enabled call lies in [0, 1],
    on a tracker with any history of fewer than 2^63 - 1 calls; and when
    the four weights of the configuration are not negative and sum to 1,
    so does the total. *)
Theorem UpdateScore_ranges (calls : list call) (c : call) :
  Enabled (callConfig c) = true →
  (Z.of_nat (length calls) < 2 ^ 63 - 1)%Z →
  let st := with_config (run calls) (callConfig c) in
  let out := UpdateScore st (callHash c) (callNow c) (callResult c) in
  (0 <= Coverage out.1 <= 1)%R ∧ (0 <= Rarity out.1 <= 1)%R ∧
  (0 <= KernelLog out.1 <= 1)%R ∧ (0 <= TimeAnomaly out.1 <= 1)%R ∧
  (validWeights (callConfig c) → (0 <= Total out.1 <= 1)%R).
Proof. apply UpdateScore_in_range. Qed.

End TrackerMore.

Section TrackerMoreExamples.
Import ScoreTracker TrackerRuns Sightings Examples.

(** A second sighting of the signature of [{1}], for X13. *)
Lemma rarity_by_history_witness :
  let calls := [callOf "b" {[1%Z]}] in
  let c := callOf "a" {[1%Z]} in
  Enabled (callConfig c) = true ∧ Signal (callResult c) ≠ ∅ ∧
  (Z.of_nat (length calls) < 2 ^ 63 - 1)%Z ∧
  counter (pathFrequency (with_config (run (H := Instances.signalDefault) calls)
                            (callConfig c)))
          (Signal.String (Pkg := Instances.signalDefault) (Signal (callResult c))) =
  Z.of_nat (sightings (H := Instances.signalDefault)
              (Signal.String (Pkg := Instances.signalDefault) (Signal (callResult c)))
              calls).
Proof.
  intros calls c.
  assert (Hen : Enabled (callConfig c) = true) by reflexivity.
  assert (Hs : Signal (callResult c) ≠ ∅)
    by (cbn [Signal callResult c callOf outcome]; apply non_empty_singleton_L).
  assert (Hlen : (Z.of_nat (length calls) < 2 ^ 63 - 1)%Z) by (simpl; lia).
  split; [exact Hen|]. split; [exact Hs|]. split; [exact Hlen|].
  exact (proj1 (rarity_by_history (H := Instances.signalDefault) calls c Hen Hs Hlen)).
Defined.

(** The default configuration on a fresh tracker, for X14. *)
Lemma UpdateScore_ranges_witness :
  let c := callOf "a" {[1%Z]} in
  Enabled (callConfig c) = true ∧
  (Z.of_nat (length (@nil call)) < 2 ^ 63 - 1)%Z ∧
  validWeights (callConfig c) ∧
  (0 <= Total (UpdateScore (H := Instances.signalDefault)
                 (with_config (run (H := Instances.signalDefault) []) (callConfig c))
                 (callHash c) (callNow c) (callResult c)).1 <= 1)%R.
Proof.
  intros c.
  assert (Hen : Enabled (callConfig c) = true) by reflexivity.
  assert (Hlen : (Z.of_nat (length (@nil call)) < 2 ^ 63 - 1)%Z) by (simpl; lia).
  assert (Hw : validWeights (callConfig c)).
  { unfold validWeights, c, callOf, DefaultScoreConfig.
    cbn [callConfig CoverageWeight RarityWeight KernelLogWeight TimeAnomalyWeight].
    repeat split; lra. }
  split; [exact Hen|]. split; [exact Hlen|]. split; [exact Hw|].
  exact (proj2 (proj2 (proj2 (proj2
           (UpdateScore_ranges (H := Instances.signalDefault) [] c Hen Hlen)))) Hw).
Defined.

End TrackerMoreExamples.

(** ** The programs with the highest scores *)

Section TopScoredMore.
Import ScoreTracker Order.
Context `{!MapRange}.

(** The sorted list of [GetTopScoredProgs]: it names every program of the
    cache once, with its cached total. *)
Lemma sorted_entries (st : t) :
  let progs := sortLoop (map (λ e, mkPS e.1 (Total e.2)) (range (scores st))) in
  progs ≡ₚ entries st ∧ descending progs ∧ NoDup (map hash progs) ∧
  length progs = size (scores st) ∧
  (∀ p, p ∈ progs ↔ ∃ s, scores st !! hash p = Some s ∧ score p = Total s).
Proof.
  intros progs.
  destruct (sortLoop_sorts (map (λ e, mkPS e.1 (Total e.2)) (range (scores st))))
    as [Hperm Hdesc]. fold progs in Hperm, Hdesc.
  assert (Hp : progs ≡ₚ entries st).
  { rewrite Hperm. unfold entries. by rewrite range_perm. }
  assert (Hh : map hash (entries st) = (map_to_list (scores st)).*1).
  { unfold entries. rewrite map_map. done. }
  split_and!; try done.
  - rewrite Hp, Hh. apply NoDup_fst_map_to_list.
  - rewrite Hp. unfold entries. rewrite length_map. by rewrite length_map_to_list.
  - intros p. rewrite Hp. unfold entries. rewrite list_elem_of_fmap. split.
    + intros ([h s] & -> & Hin). apply elem_of_map_to_list in Hin.
      exists s. done.
    + intros (s & Hl & Hs). exists (hash p, s). split.
      * destruct p as [h x]. simpl in *. by rewrite Hs.
      * by apply elem_of_map_to_list.
Qed.

(** X15.  For a limit from 0 to [maxAlloc / 16] (2^44, the capacities
    that [make] accepts for strings; running out of memory is not
    modelled), [GetTopScoredProgs] returns
    [min(limit, number of cached programs)] identities of cached programs,
    none of them twice, in descending order of cached total; and no cached
    program that is left out has a higher total than one that is returned.
    For a limit above [maxAlloc / 16] the call panics, as it does for a
    negative one. *)
Theorem GetTopScoredProgs_top (st : t) (limit : Z) :
  (0 ≤ limit)%Z →
  ((Go.maxAlloc < 16 * limit)%Z → GetTopScoredProgs st limit = None) ∧
  ((16 * limit ≤ Go.maxAlloc)%Z →
   ∃ l, GetTopScoredProgs st limit = Some l ∧
    length l = (Z.to_nat limit `min` size (scores st))%nat ∧
    NoDup l ∧
    (∀ h, h ∈ l → is_Some (scores st !! h)) ∧
    (∀ i j h1 h2, (i < j)%nat → l !! i = Some h1 → l !! j = Some h2 →
       (Total (GetScore st h2) <= Total (GetScore st h1))%R) ∧
    (∀ h h', h ∈ l → h' ∉ l → is_Some (scores st !! h') →
       (Total (GetScore st h') <= Total (GetScore st h))%R)).
Proof.
  intros Hlim. unfold GetTopScoredProgs. split.
  { intros Hbig. rewrite decide_True; [done|]. by right. }
  intros Hcap. rewrite decide_False by (unfold Go.makePanics; lia).
  destruct (sorted_entries st) as (_ & Hdesc & Hnd & Hlen & Hin).
  set (progs := sortLoop _) in *. set (n := Z.to_nat limit).
  eexists. split; [done|].
  assert (Hscore : ∀ k p, progs !! k = Some p →
            scores st !! hash p = Some (default neutral (scores st !! hash p)) ∧
            score p = Total (GetScore st (hash p))).
  { intros k p Hk. apply list_elem_of_lookup_2, Hin in Hk as (s & Hs & Hp).
    unfold GetScore. rewrite Hs. done. }
  assert (Hget : ∀ k h, map hash (take n progs) !! k = Some h →
            ∃ p, (k < n)%nat ∧ progs !! k = Some p ∧ hash p = h).
  { intros k h Hk. apply list_lookup_fmap_Some in Hk as (p & -> & Hk).
    apply lookup_take_Some in Hk as [Hk Hkn]. eauto. }
  split_and!.
  - rewrite length_map, length_take, Hlen. done.
  - apply (sublist_NoDup _ (map hash progs)); [exact Hnd|].
    apply (fmap_sublist hash), sublist_take.
  - intros h Hh. apply list_elem_of_lookup in Hh as (k & Hk).
    apply Hget in Hk as (p & _ & Hk & <-).
    destruct (Hscore k p Hk) as [-> _]. done.
  - intros i j h1 h2 Hij H1 H2.
    apply Hget in H1 as (p1 & _ & H1 & <-). apply Hget in H2 as (p2 & _ & H2 & <-).
    destruct (Hscore i p1 H1) as [_ <-]. destruct (Hscore j p2 H2) as [_ <-].
    by apply (Hdesc i j).
  - intros h h' Hh Hout [s' Hs'].
    apply list_elem_of_lookup in Hh as (i & Hi).
    apply Hget in Hi as (p & Hin' & Hi & <-).
    destruct (Hscore i p Hi) as [_ <-].
    assert (Hp' : mkPS h' (Total s') ∈ progs) by (apply Hin; eauto).
    apply list_elem_of_lookup in Hp' as (k & Hk).
    unfold GetScore. rewrite Hs'.
    destruct (decide (k < n)%nat) as [Hkn|Hkn].
    + exfalso. apply Hout. apply list_elem_of_lookup. exists k.
      rewrite list_lookup_fmap, lookup_take_lt by done. by rewrite Hk.
    + apply (Hdesc i k p (mkPS h' (Total s'))); [lia|done|done].
Qed.

End TopScoredMore.

Section TopScoredExamples.
Import ScoreTracker TrackerRuns Examples.

(** The best of two cached programs, for X15. *)
Lemma GetTopScoredProgs_top_witness :
  let st := run (H := Instances.signalDefault)
              [callOf "a" {[1%Z]}; callOf "b" {[1%Z]}] in
  (0 ≤ 1)%Z ∧ (16 * 1 ≤ Go.maxAlloc)%Z ∧
  ∃ l, GetTopScoredProgs (H := Instances.rangeDefault) st 1 = Some l ∧
       length l = (Z.to_nat 1 `min` size (scores st))%nat.
Proof.
  intros st.
  assert (H1 : (0 ≤ 1)%Z) by lia.
  assert (H2 : (16 * 1 ≤ Go.maxAlloc)%Z) by (unfold Go.maxAlloc; lia).
  split; [exact H1|]. split; [exact H2|].
  destruct (proj2 (GetTopScoredProgs_top (H := Instances.rangeDefault) st 1 H1) H2)
    as (l & Hl & Hlen & _).
  exists l. split; [exact Hl | exact Hlen].
Defined.

End TopScoredExamples.

(** ** Further properties of the weighted selector *)

Section SelectorMore.
Import WeightedSelector Wheel SelectorRuns.

(** The binary search on a target that no element is below ends at the
    left bound, and on a target above everything left of the right bound
    at the right bound. *)
Lemma searchLoop_low (fuel : nat) (cw : list R) (target : R) (left right : nat) :
  (left ≤ right)%nat → (right < length cw)%nat → (right - left ≤ fuel)%nat →
  (∀ i a, cw !! i = Some a → (target <= a)%R) →
  searchLoop fuel cw target left right = Some left.
Proof.
  revert right. induction fuel as [|fuel IH]; intros right Hle Hr Hfuel Hall.
  - simpl. by rewrite decide_False by lia.
  - cbn [searchLoop]. destruct (decide (left < right)%nat) as [Hlt|Hge]; [|done].
    pose proof (half_between left right Hlt) as Hmid.
    destruct (lookup_lt_is_Some_2 cw ((left + right) / 2)) as [c Hc]; [lia|].
    rewrite Hc. pose proof (Hall _ _ Hc).
    rewrite (decide_False (P := (c < target)%R)) by lra. apply IH; [lia|lia|lia|done].
Qed.

Lemma searchLoop_high (fuel : nat) (cw : list R) (target : R) (left right : nat) :
  (left ≤ right)%nat → (right < length cw)%nat → (right - left ≤ fuel)%nat →
  (∀ i a, (i < right)%nat → cw !! i = Some a → (a < target)%R) →
  searchLoop fuel cw target left right = Some right.
Proof.
  revert left. induction fuel as [|fuel IH]; intros left Hle Hr Hfuel Hall.
  - simpl. rewrite decide_False by lia. f_equal. lia.
  - cbn [searchLoop]. destruct (decide (left < right)%nat) as [Hlt|Hge];
      [|f_equal; lia].
    pose proof (half_between left right Hlt) as Hmid.
    destruct (lookup_lt_is_Some_2 cw ((left + right) / 2)) as [c Hc]; [lia|].
    rewrite Hc.
    assert (c < target)%R by (apply (Hall ((left + right) / 2)%nat); [lia|done]).
    rewrite decide_True by done. apply IH; [lia|lia|lia|done].
Qed.

Context `{!MapRange}.

Lemma SelectWeighted_state (ws : t) (u : R) :
  (SelectWeighted ws u).2 = if needRebuild ws then rebuildWeightTable ws else ws.
Proof. unfold SelectWeighted. by destruct (last _). Qed.

Lemma SelectWeighted_keeps (ws : t) (u : R) :
  consistent ws →
  let ws' := (SelectWeighted ws u).2 in
  weights ws' = weights ws ∧ needRebuild ws' = false ∧ consistent ws'.
Proof.
  intros Hc ws'. unfold ws'. rewrite SelectWeighted_state.
  destruct (needRebuild ws) eqn:Hn.
  - split_and!; [done|done|apply consistent_rebuilt].
  - done.
Qed.

Lemma run_snoc_ws (calls : list call) (c : call) :
  run (calls ++ [c]) = step (run calls) c.
Proof. unfold run. by rewrite fold_left_app. Qed.

Lemma latest_snoc (calls : list call) (c : call) :
  latest (calls ++ [c]) =
  match c with
  | CallUpdateWeight progHash weight => <[progHash := weight]> (latest calls)
  | CallSelectWeighted _ => latest calls
  end.
Proof. unfold latest. by rewrite fold_left_app. Qed.

Lemma run_consistent (calls : list call) :
  consistent (run calls) ∧ weights (run calls) = latest calls.
Proof.
  induction calls as [|c calls [IHc IHw]] using rev_ind.
  - split; [by left|done].
  - rewrite run_snoc_ws, latest_snoc. destruct c as [h w|u]; cbn [step].
    + split; [by left|]. cbn [UpdateWeight weights]. by rewrite IHw.
    + destruct (SelectWeighted_keeps (run calls) u IHc) as (Hw & _ & Hc').
      split; [done|]. by rewrite Hw.
Qed.

(** X16.  After any sequence of [UpdateWeight] and [SelectWeighted] calls
    on a new selector, the weights are the ones given last by the
    [UpdateWeight] calls (no [SelectWeighted] has touched them), and
    [SelectWeighted] returns for every real [rnd], also outside [0,1):
    no index is out of range.  What it returns has a positive weight, or
    is the empty string when no weight is positive. *)
Theorem SelectWeighted_after_calls (calls : list call) (rnd : R) :
  let ws := run calls in
  weights ws = latest calls ∧
  ∃ h, (SelectWeighted ws rnd).1 = Some h ∧
       ((∃ w, latest calls !! h = Some w ∧ (0 < w)%R) ∨
        (h = "" ∧ ∀ i w, latest calls !! i = Some w → (w <= 0)%R)).
Proof.
  intros ws. destruct (run_consistent calls) as [Hc Hw]. fold ws in Hc, Hw.
  split; [done|].
  destruct (SelectWeighted_visit ws Hc) as (visit & Hperm & Hsel).
  destruct (Hsel rnd) as [Hnil Hne].
  assert (His : ∃ h, (SelectWeighted ws rnd).1 = Some h).
  { destruct (decide (positive visit = [])) as [He|He]; [eauto|].
    destruct (Hne He) as (k & Hk & _ & ->).
    apply lookup_lt_is_Some_2. by rewrite length_fmap. }
  destruct His as [h Hh]. exists h. split; [done|].
  rewrite <- Hw. by apply (SelectWeighted_result ws rnd).
Qed.

(** X17.  The ends of the wheel: for [rnd <= 0] the first identity of the
    derived array is returned and for [rnd >= 1] the last one (the empty
    string when the array is empty). *)
Theorem SelectWeighted_ends (ws : t) (rnd : R) :
  consistent ws →
  let out := SelectWeighted ws rnd in
  ((rnd <= 0)%R → out.1 = Some (default "" (head (progHashes out.2)))) ∧
  ((1 <= rnd)%R → out.1 = Some (default "" (last (progHashes out.2)))).
Proof.
  intros Hc out.
  destruct (lazy_laidOut ws Hc) as (visit & (Hp & Hcw & Hph) & Hperm).
  assert (Hst : out.2 = if needRebuild ws then rebuildWeightTable ws else ws)
    by apply SelectWeighted_state.
  rewrite Hst, Hph. unfold out, SelectWeighted. rewrite Hcw, Hph.
  set (pos := positive visit). set (wl := pos.*2).
  assert (Hall : Forall (λ w, 0 < w)%R wl) by apply positive_weights.
  destruct (decide (pos = [])) as [He|He].
  { unfold wl. rewrite He. done. }
  assert (Hne2 : wl ≠ []) by (unfold wl; by destruct pos).
  rewrite (prefixSums_last 0 _ Hne2), Rplus_0_l. cbn [fst].
  rewrite prefixSums_length.
  assert (Hlen : length wl = length pos) by (unfold wl; by rewrite length_fmap).
  assert (Hpos : (0 < length pos)%nat) by (destruct pos; [done|simpl; lia]).
  assert (HT : (0 < Rsum wl)%R) by (by apply Rsum_pos_lt).
  assert (Hlk : ∀ i a, prefixSums 0 wl !! i = Some a →
            (i < length wl)%nat ∧ a = Rsum (take (S i) wl)).
  { intros i a Hi. apply lookup_lt_Some in Hi as Hlt.
    rewrite prefixSums_length in Hlt. split; [done|].
    rewrite prefixSums_lookup in Hi by done. simplify_eq. lra. }
  split.
  - intros Hu. rewrite searchLoop_low; [| lia | rewrite prefixSums_length; lia | lia |].
    + cbn [mbind option_bind]. rewrite <- head_lookup.
      destruct (head pos.*1) eqn:Hh; [done|].
      apply head_None in Hh. by destruct pos.
    + intros i a Hi. apply Hlk in Hi as [Hi ->].
      pose proof (Rsum_pos (take (S i) wl) (Forall_take _ _ _ Hall)). nra.
  - intros Hu. rewrite searchLoop_high; [| lia | rewrite prefixSums_length; lia | lia |].
    + cbn [mbind option_bind]. rewrite last_lookup, length_fmap.
      replace (length wl - 1)%nat with (Nat.pred (length pos)) by lia.
      destruct (pos.*1 !! Nat.pred (length pos)) eqn:Hl; [done|].
      apply lookup_ge_None in Hl. rewrite length_fmap in Hl. lia.
    + intros i a Hlt Hi. apply Hlk in Hi as [Hi ->].
      pose proof (Rsum_take_lt wl (S i) (length wl) Hall ltac:(lia) ltac:(lia)) as Hs.
      rewrite (take_ge wl (length wl)) in Hs by lia. nra.
Qed.

(** X18.  An identity that alone has a positive weight is returned by
    every call, whatever [rnd]. *)
Theorem SelectWeighted_sole_positive (ws : t) (h : string) (w rnd : R) :
  consistent ws → weights ws !! h = Some w → (0 < w)%R →
  (∀ h' w', weights ws !! h' = Some w' → (0 < w')%R → h' = h) →
  (SelectWeighted ws rnd).1 = Some h.
Proof.
  intros Hc Hw Hpos Hsole.
  destruct (SelectWeighted_visit ws Hc) as (visit & Hperm & Hsel).
  destruct (Hsel rnd) as [_ Hne].
  assert (Hin : (h, w) ∈ positive visit) by (by apply (positive_elem _ _ _ _ Hperm)).
  destruct Hne as (k & Hk & _ & Hres).
  { intros He. rewrite He in Hin. by apply elem_of_nil in Hin. }
  rewrite Hres.
  destruct (lookup_lt_is_Some_2 (positive visit) k Hk) as [[i wi] Hi].
  rewrite list_lookup_fmap, Hi. cbn. f_equal.
  assert (Hin' : (i, wi) ∈ positive visit) by (apply list_elem_of_lookup; eauto).
  apply (positive_elem _ _ _ _ Hperm) in Hin' as [Hwi Hgt].
  by apply (Hsole i wi).
Qed.

End SelectorMore.

Section SelectorMoreExamples.
Import WeightedSelector SelectorRuns.

(** One identity of weight 1 and a draw beyond the wheel, for X17. *)
Lemma SelectWeighted_ends_witness :
  let ws := UpdateWeight NewWeightedSelector "a" 1 in
  consistent ws ∧
  ((1 <= 2)%R →
   (SelectWeighted (H := Instances.rangeDefault) ws 2).1 =
   Some (default "" (last (progHashes
           (SelectWeighted (H := Instances.rangeDefault) ws 2).2)))).
Proof.
  intros ws. assert (Hc : consistent ws) by (by left).
  split; [exact Hc|].
  exact (proj2 (SelectWeighted_ends (H := Instances.rangeDefault) ws 2 Hc)).
Defined.

(** One identity of weight 1 beside one of weight 0, for X18. *)
Lemma SelectWeighted_sole_positive_witness :
  let ws := UpdateWeight (UpdateWeight NewWeightedSelector "a" 1) "b" 0 in
  consistent ws ∧ weights ws !! "a" = Some 1%R ∧ (0 < 1)%R ∧
  (∀ h' w', weights ws !! h' = Some w' → (0 < w')%R → h' = "a") ∧
  (SelectWeighted (H := Instances.rangeDefault) ws 0.5).1 = Some "a".
Proof.
  intros ws. assert (Hc : consistent ws) by (by left).
  assert (Hw : weights ws !! "a" = Some 1%R) by reflexivity.
  assert (H1 : (0 < 1)%R) by lra.
  assert (Hsole : ∀ h' w', weights ws !! h' = Some w' → (0 < w')%R → h' = "a").
  { intros h' w' Hl Hgt. unfold ws in Hl. cbn [UpdateWeight weights] in Hl.
    destruct (decide (h' = "b")) as [->|Hb].
    - rewrite lookup_insert_eq in Hl. simplify_eq. lra.
    - rewrite lookup_insert_ne in Hl by done.
      destruct (decide (h' = "a")) as [->|Ha]; [done|].
      rewrite lookup_insert_ne in Hl by done. done. }
  split; [exact Hc|]. split; [exact Hw|]. split; [exact H1|]. split; [exact Hsole|].
  exact (SelectWeighted_sole_positive (H := Instances.rangeDefault) ws "a" 1 0.5
           Hc Hw H1 Hsole).
Defined.

End SelectorMoreExamples.

(** ** The metrics along a run of the fuzzer *)

Section MetricsMore.
Import ScoreMetrics MetricsRuns Stats.

Lemma run_snoc_sm (es : list event) (e : event) :
  run (es ++ [e]) = step (run es) e.
Proof. unfold run. by rewrite fold_left_app. Qed.

Lemma results_snoc (es : list event) (e : event) :
  results (es ++ [e]) =
  results es ++ match e with Result r => [r] | Smash _ => [] end.
Proof.
  induction es as [|[r'|j'] es IH]; simpl.
  - by destruct e.
  - by rewrite IH.
  - done.
Qed.

Lemma smashes_snoc (es : list event) (e : event) :
  smashes (es ++ [e]) =
  smashes es ++ match e with Result _ => [] | Smash j => [j] end.
Proof.
  induction es as [|[r'|j'] es IH]; simpl.
  - by destruct e.
  - done.
  - by rewrite IH.
Qed.

Lemma mean_single (x : R) : mean [x] = x.
Proof. unfold mean, WeightedSelector.Rsum. simpl. field. Qed.

Lemma mean_snoc (l : list R) (x : R) :
  l ≠ [] →
  mean (l ++ [x]) =
  ((mean l * IZR (Z.of_nat (length l)) + x) / IZR (Z.of_nat (length l) + 1))%R.
Proof.
  intros Hne. unfold mean. rewrite Rsum_app, length_app. cbn [length].
  rewrite Nat.add_1_r, S_INR, plus_IZR, <- INR_IZR_INZ.
  assert (0 < INR (length l))%R.
  { apply lt_0_INR. destruct l; [done|simpl; lia]. }
  unfold WeightedSelector.Rsum at 2. simpl. field. lra.
Qed.

Lemma sumZ_snoc (l : list Z) (x : Z) : sumZ (l ++ [x]) = (sumZ l + x)%Z.
Proof. induction l as [|y l IH]; simpl; lia. Qed.

Lemma sumZ_nonneg (l : list Z) : Forall (λ x, 0 ≤ x)%Z l → (0 ≤ sumZ l)%Z.
Proof. induction 1; simpl; lia. Qed.

Lemma selected_snoc (rs : list result) (r : result) :
  selected (rs ++ [r]) = (selected rs + if scoreSelected r then 1 else 0)%nat.
Proof.
  unfold selected. rewrite filter_app, length_app. f_equal.
  destruct (scoreSelected r) eqn:Hs.
  - by rewrite filter_cons_True.
  - rewrite filter_cons_False; [done|]. by rewrite Hs.
Qed.

Lemma selected_le (rs : list result) : (selected rs ≤ length rs)%nat.
Proof. apply length_filter. Qed.

(** A smash report leaves the figures of the requests as they are, and a
    recorded result those of the smash jobs. *)
Lemma report_frame (sm : t) (j : smash) :
  let sm' := report sm j in
  TotalRequests sm' = TotalRequests sm ∧
  ScoreSelectedRequests sm' = ScoreSelectedRequests sm ∧
  AverageScore sm' = AverageScore sm ∧
  MaxScore sm' = MaxScore sm ∧ MinScore sm' = MinScore sm ∧
  AvgCoverageScore sm' = AvgCoverageScore sm ∧
  AvgRarityScore sm' = AvgRarityScore sm ∧
  AvgKernelLogScore sm' = AvgKernelLogScore sm ∧
  AvgTimeAnomalyScore sm' = AvgTimeAnomalyScore sm ∧
  TotalScoreCalculationTime sm' = TotalScoreCalculationTime sm.
Proof. done. Qed.

Lemma record_frame (sm : t) (r : result) :
  let sm' := record sm r in
  TotalSmashJobs sm' = TotalSmashJobs sm ∧
  TotalSmashMutations sm' = TotalSmashMutations sm ∧
  SuccessfulMutations sm' = SuccessfulMutations sm ∧
  AverageSmashBaseScore sm' = AverageSmashBaseScore sm.
Proof.
  unfold record, UpdateDimensionScores. by case_decide.
Qed.

(** The figures of the requests after one more result. *)
Lemma record_first (sm : t) (r : result) :
  TotalRequests sm = 0%Z →
  let sm' := record sm r in
  TotalRequests sm' = 1%Z ∧
  AverageScore sm' = Some (total r) ∧
  MaxScore sm' = total r ∧ MinScore sm' = total r ∧
  AvgCoverageScore sm' = Some (coverage r) ∧
  AvgRarityScore sm' = Some (rarity r) ∧
  AvgKernelLogScore sm' = Some (kernelLog r) ∧
  AvgTimeAnomalyScore sm' = Some (timeAnomaly r).
Proof.
  intros Hz. unfold record, UpdateDimensionScores, UpdateMetrics.
  cbn [TotalRequests]. rewrite Hz.
  change (Go.wrap_int64 (0 + 1)) with 1%Z.
  rewrite decide_True by done. rewrite bool_decide_eq_true_2 by done. done.
Qed.

Lemma record_next (sm : t) (r : result) (a c1 c2 c3 c4 : R) :
  (1 ≤ TotalRequests sm < 2 ^ 63 - 1)%Z →
  AverageScore sm = Some a → AvgCoverageScore sm = Some c1 →
  AvgRarityScore sm = Some c2 → AvgKernelLogScore sm = Some c3 →
  AvgTimeAnomalyScore sm = Some c4 →
  let n := TotalRequests sm in
  let next x v := ((x * IZR n + v) / IZR (n + 1))%R in
  let sm' := record sm r in
  TotalRequests sm' = (n + 1)%Z ∧
  AverageScore sm' = Some (next a (total r)) ∧
  MaxScore sm' = Rmax (MaxScore sm) (total r) ∧
  MinScore sm' = Rmin (MinScore sm) (total r) ∧
  AvgCoverageScore sm' = Some (next c1 (coverage r)) ∧
  AvgRarityScore sm' = Some (next c2 (rarity r)) ∧
  AvgKernelLogScore sm' = Some (next c3 (kernelLog r)) ∧
  AvgTimeAnomalyScore sm' = Some (next c4 (timeAnomaly r)).
Proof.
  intros Hn Ha H1 H2 H3 H4 n next sm'.
  assert (Hw : Go.wrap_int64 (n + 1) = (n + 1)%Z)
    by (apply wrap_int64_small; unfold n; lia).
  assert (Hw' : Go.wrap_int64 (n + 1 - 1) = n)
    by (rewrite wrap_int64_small; unfold n; lia).
  assert (Hnz : IZR (n + 1) ≠ 0%R) by (apply not_0_IZR; unfold n; lia).
  assert (Hm : (IZR (n + 1) - 1)%R = IZR n) by (rewrite plus_IZR; lra).
  unfold sm', record, UpdateDimensionScores, UpdateMetrics.
  cbn [TotalRequests]. fold n. rewrite Hw, Hw'.
  rewrite decide_False by (unfold n; lia).
  rewrite bool_decide_eq_false_2 by (unfold n; lia).
  cbn [setAverages TotalRequests AverageScore MaxScore MinScore AvgCoverageScore
       AvgRarityScore AvgKernelLogScore AvgTimeAnomalyScore].
  rewrite Ha, H1, H2, H3, H4, !runningMean_Some, Hm by done.
  split_and!; try done.
  - unfold fdiv, fadd, fmul. simpl. by rewrite decide_False.
  - unfold Rmax. case_decide; destruct (Rle_dec _ _); try done; lra.
  - unfold Rmin. case_decide; destruct (Rle_dec _ _); try done; lra.
Qed.

Lemma record_counters (sm : t) (r : result) :
  let sm' := record sm r in
  ScoreSelectedRequests sm' =
    (if scoreSelected r then Go.wrap_int64 (ScoreSelectedRequests sm + 1)
     else ScoreSelectedRequests sm) ∧
  TotalScoreCalculationTime sm' =
    Go.wrap_int64 (TotalScoreCalculationTime sm + calculationTime r) ∧
  TotalRequests sm' = Go.wrap_int64 (TotalRequests sm + 1).
Proof. unfold record, UpdateDimensionScores. by case_decide. Qed.

Lemma run_counters (es : list event) :
  (Z.of_nat (length (results es)) < 2 ^ 63)%Z →
  TotalRequests (run es) = Z.of_nat (length (results es)) ∧
  ScoreSelectedRequests (run es) = Z.of_nat (selected (results es)).
Proof.
  induction es as [|e es IH] using rev_ind; intros Hlen; [done|].
  rewrite run_snoc_sm, results_snoc in *. destruct e as [r|j]; cbn [step].
  - rewrite length_app in Hlen. cbn [length] in Hlen.
    destruct IH as [IH1 IH2]; [lia|].
    destruct (record_counters (run es) r) as (-> & _ & ->).
    rewrite IH1, IH2, length_app, selected_snoc. cbn [length].
    pose proof (selected_le (results es)).
    split; [rewrite wrap_int64_small; lia|].
    destruct (scoreSelected r); [rewrite wrap_int64_small; lia|lia].
  - rewrite app_nil_r in *. destruct (report_frame (run es) j) as (-> & -> & _).
    by apply IH.
Qed.

Lemma run_time (es : list event) :
  Forall (λ r, 0 ≤ calculationTime r)%Z (results es) →
  (sumZ (map calculationTime (results es)) < 2 ^ 63)%Z →
  TotalScoreCalculationTime (run es) = sumZ (map calculationTime (results es)).
Proof.
  induction es as [|e es IH] using rev_ind; intros Hall Hsum; [done|].
  rewrite run_snoc_sm, results_snoc in *. destruct e as [r|j]; cbn [step].
  - apply Forall_app in Hall as [Hall Hr]. rewrite Forall_singleton in Hr.
    cbv beta in Hr. rewrite map_app in *. cbn [map] in *. rewrite sumZ_snoc in *.
    assert (0 ≤ sumZ (map calculationTime (results es)))%Z.
    { apply sumZ_nonneg. by apply Forall_fmap. }
    destruct (record_counters (run es) r) as (_ & -> & _).
    rewrite IH by (done || lia). rewrite wrap_int64_small; lia.
  - rewrite app_nil_r in *.
    destruct (report_frame (run es) j) as (_ & _ & _ & _ & _ & _ & _ & _ & _ & ->).
    by apply IH.
Qed.

Lemma run_averages (es : list event) :
  results es ≠ [] → (Z.of_nat (length (results es)) < 2 ^ 63)%Z →
  let sm := run es in
  let rs := results es in
  AverageScore sm = Some (mean (map total rs)) ∧
  AvgCoverageScore sm = Some (mean (map coverage rs)) ∧
  AvgRarityScore sm = Some (mean (map rarity rs)) ∧
  AvgKernelLogScore sm = Some (mean (map kernelLog rs)) ∧
  AvgTimeAnomalyScore sm = Some (mean (map timeAnomaly rs)) ∧
  (∀ r, r ∈ rs → (MinScore sm <= total r <= MaxScore sm)%R) ∧
  (∃ r, r ∈ rs ∧ total r = MaxScore sm) ∧
  (∃ r, r ∈ rs ∧ total r = MinScore sm).
Proof.
  induction es as [|e es IH] using rev_ind; intros Hne Hlen; [done|].
  rewrite run_snoc_sm, results_snoc in *. destruct e as [r|j]; cbn [step].
  - rewrite length_app in Hlen. cbn [length] in Hlen.
    destruct (run_counters es ltac:(lia)) as [Hn _].
    destruct (decide (results es = [])) as [He|He].
    + rewrite He in *. cbn [length] in Hn.
      destruct (record_first (run es) r Hn)
        as (_ & -> & -> & -> & -> & -> & -> & ->).
      cbn [app map]. rewrite !mean_single. split_and!; try done.
      * intros r' Hr'. apply list_elem_of_singleton in Hr' as ->. lra.
      * exists r. split; [by apply list_elem_of_singleton|done].
      * exists r. split; [by apply list_elem_of_singleton|done].
    + destruct (IH He ltac:(lia))
        as (Ha & H1 & H2 & H3 & H4 & Hb & (rM & HrM & HM) & (rm & Hrm & Hm)).
      assert (Hpos : (1 ≤ length (results es))%nat)
        by (destruct (results es); [done|simpl; lia]).
      destruct (record_next (run es) r _ _ _ _ _ ltac:(rewrite Hn; lia)
                  Ha H1 H2 H3 H4)
        as (_ & -> & -> & -> & -> & -> & -> & ->).
      rewrite Hn, !map_app. cbn [map].
      assert (Hmn : ∀ (f : result → R) x,
                mean (map f (results es) ++ [x]) =
                ((mean (map f (results es)) *
                  IZR (Z.of_nat (length (results es))) + x) /
                 IZR (Z.of_nat (length (results es)) + 1))%R).
      { intros f x. rewrite mean_snoc, length_map; [done|].
        by destruct (results es). }
      rewrite !Hmn. split_and!; try done.
      * intros r' Hr'. apply elem_of_app in Hr' as [Hr'|Hr'].
        -- specialize (Hb r' Hr').
           pose proof (Rmin_l (MinScore (run es)) (total r)).
           pose proof (Rmax_l (MaxScore (run es)) (total r)). lra.
        -- apply list_elem_of_singleton in Hr' as ->.
           pose proof (Rmin_r (MinScore (run es)) (total r)).
           pose proof (Rmax_r (MaxScore (run es)) (total r)). lra.
      * unfold Rmax. destruct (Rle_dec _ _).
        -- exists r. split; [apply elem_of_app; right; by apply list_elem_of_singleton|done].
        -- exists rM. split; [apply elem_of_app; by left|done].
      * unfold Rmin. destruct (Rle_dec _ _).
        -- exists rm. split; [apply elem_of_app; by left|done].
        -- exists r. split; [apply elem_of_app; right; by apply list_elem_of_singleton|done].
  - rewrite app_nil_r in *.
    destruct (report_frame (run es) j)
      as (_ & _ & -> & -> & -> & -> & -> & -> & -> & _).
    by apply IH.
Qed.

Lemma report_fields (sm : t) (j : smash) :
  let sm' := report sm j in
  let jobs := Go.wrap_int64 (TotalSmashJobs sm + 1) in
  TotalSmashJobs sm' = jobs ∧
  TotalSmashMutations sm' =
    Go.wrap_int64 (TotalSmashMutations sm + totalMutations j) ∧
  SuccessfulMutations sm' =
    Go.wrap_int64 (SuccessfulMutations sm + successfulMutations j) ∧
  AverageSmashBaseScore sm' =
    (if decide (jobs = 1%Z) then Some (baseScore j)
     else runningMean (AverageSmashBaseScore sm) (IZR jobs) (baseScore j)).
Proof. done. Qed.

Lemma plausible_sums (js : list smash) :
  Forall plausible js →
  (0 ≤ sumZ (map successfulMutations js) ≤ sumZ (map totalMutations js))%Z ∧
  (Z.of_nat (length js) ≤ sumZ (map totalMutations js))%Z.
Proof.
  induction 1 as [|j js [Hj1 Hj2] Hjs IH]; [simpl; lia|].
  cbn [map sumZ foldr length]. unfold sumZ in IH. lia.
Qed.

Lemma run_smashes (es : list event) :
  Forall plausible (smashes es) →
  (sumZ (map totalMutations (smashes es)) < 2 ^ 63)%Z →
  let sm := run es in
  let js := smashes es in
  TotalSmashJobs sm = Z.of_nat (length js) ∧
  TotalSmashMutations sm = sumZ (map totalMutations js) ∧
  SuccessfulMutations sm = sumZ (map successfulMutations js) ∧
  (js ≠ [] → AverageSmashBaseScore sm = Some (mean (map baseScore js))).
Proof.
  induction es as [|e es IH] using rev_ind; intros Hall Hsum; [done|].
  rewrite run_snoc_sm, smashes_snoc in *. destruct e as [r|j]; cbn [step].
  - rewrite app_nil_r in *.
    destruct (record_frame (run es) r) as (-> & -> & -> & ->). by apply IH.
  - apply Forall_app in Hall as [Hall Hj]. rewrite Forall_singleton in Hj.
    rewrite !map_app in *. cbn [map] in *. rewrite !sumZ_snoc in *.
    destruct (plausible_sums _ Hall) as [Hs Hl]. destruct Hj as [Hj1 Hj2].
    destruct IH as (IH1 & IH2 & IH3 & IH4); [done|lia|].
    destruct (report_fields (run es) j) as (-> & -> & -> & ->).
    rewrite IH1, IH2, IH3, length_app. cbn [length].
    rewrite !wrap_int64_small by lia.
    split_and!; [lia|done|done|]. intros _.
    destruct (decide (smashes es = [])) as [He|He].
    + rewrite He. cbn [length map app]. rewrite decide_True by done.
      by rewrite mean_single.
    + assert (1 ≤ length (smashes es))%nat
        by (destruct (smashes es); [done|simpl; lia]).
      rewrite decide_False by lia. rewrite (IH4 He).
      rewrite runningMean_Some by (apply not_0_IZR; lia).
      rewrite mean_snoc, length_map by (by destruct (smashes es)).
      do 3 f_equal. rewrite plus_IZR. lra.
Qed.

(** X19.  The metrics after the fuzzer has recorded results (at least one,
    fewer than 2^63), smash reports in between or not: the request counter
    is the number of results, the average score and the averages of the
    four dimensions are numbers, namely the arithmetic means over the
    results, and the minimum and the maximum are the least and the
    greatest total among them. *)
Theorem metrics_are_means (es : list event) :
  results es ≠ [] → (Z.of_nat (length (results es)) < 2 ^ 63)%Z →
  let sm := run es in
  let rs := results es in
  TotalRequests sm = Z.of_nat (length rs) ∧
  AverageScore sm = Some (mean (map total rs)) ∧
  AvgCoverageScore sm = Some (mean (map coverage rs)) ∧
  AvgRarityScore sm = Some (mean (map rarity rs)) ∧
  AvgKernelLogScore sm = Some (mean (map kernelLog rs)) ∧
  AvgTimeAnomalyScore sm = Some (mean (map timeAnomaly rs)) ∧
  (∀ r, r ∈ rs → (MinScore sm <= total r <= MaxScore sm)%R) ∧
  (∃ r, r ∈ rs ∧ total r = MaxScore sm) ∧
  (∃ r, r ∈ rs ∧ total r = MinScore sm).
Proof.
  intros Hne Hlen sm rs. split.
  - by apply run_counters.
  - by apply run_averages.
Qed.

(** X20.  The two quotients of the request figures (fewer than 2^63
    results): the selection ratio is the share of the results recorded as
    selected by score, a number in [0, 1], and 0 without results; the
    average calculation time is the sum of the times over the number of
    results when the times are not negative and their sum is below 2^63,
    and 0 without results. *)
Theorem request_quotients (es : list event) :
  (Z.of_nat (length (results es)) < 2 ^ 63)%Z →
  let sm := run es in
  let rs := results es in
  (0 <= GetScoreSelectionRatio sm <= 1)%R ∧
  (rs = [] → GetScoreSelectionRatio sm = 0%R ∧ GetAverageCalculationTime sm = 0%R) ∧
  (rs ≠ [] →
     GetScoreSelectionRatio sm = (INR (selected rs) / INR (length rs))%R ∧
     (Forall (λ r, 0 ≤ calculationTime r)%Z rs →
      (sumZ (map calculationTime rs) < 2 ^ 63)%Z →
      GetAverageCalculationTime sm =
        (IZR (sumZ (map calculationTime rs)) / INR (length rs))%R)).
Proof.
  intros Hlen sm rs. destruct (run_counters es Hlen) as [Hn Hs].
  fold sm rs in Hn, Hs.
  assert (Hempty : rs = [] → GetScoreSelectionRatio sm = 0%R ∧
                              GetAverageCalculationTime sm = 0%R).
  { intros He. unfold GetScoreSelectionRatio, GetAverageCalculationTime.
    rewrite Hn, He. cbn [length]. by rewrite !decide_True. }
  assert (Hratio : rs ≠ [] →
            GetScoreSelectionRatio sm = (INR (selected rs) / INR (length rs))%R).
  { intros Hne. unfold GetScoreSelectionRatio. rewrite Hn, Hs.
    rewrite decide_False by (destruct rs; [done|simpl; lia]).
    by rewrite <- !INR_IZR_INZ. }
  split; [|split; [done|]].
  - destruct (decide (rs = [])) as [He|Hne].
    + destruct (Hempty He) as [-> _]. lra.
    + rewrite (Hratio Hne).
      assert (0 < INR (length rs))%R.
      { apply lt_0_INR. destruct rs; [done|simpl; lia]. }
      pose proof (pos_INR (selected rs)).
      pose proof (le_INR _ _ (selected_le rs)).
      split.
      * apply Rmult_le_pos; [done|]. by apply Rlt_le, Rinv_0_lt_compat.
      * apply Rmult_le_reg_r with (INR (length rs)); [done|].
        unfold Rdiv. rewrite Rmult_assoc, Rinv_l by lra. lra.
  - intros Hne. split; [by apply Hratio|]. intros Hall Hsum.
    unfold GetAverageCalculationTime. rewrite Hn.
    rewrite decide_False by (destruct rs; [done|simpl; lia]).
    unfold sm. rewrite run_time by done. by rewrite <- INR_IZR_INZ.
Qed.

(** X21.  The smash figures, when every job reports at least one mutation
    and no more successes than mutations (as a smash job does) and the
    mutations sum to less than 2^63: the success rate is the share of the
    successful mutations among all, a number in [0, 1]; the average of
    mutations per job is their sum over the number of jobs, at least 1;
    the average base score is a number, the arithmetic mean of the base
    scores; without a job the two quotients are 0. *)
Theorem smash_figures (es : list event) :
  Forall plausible (smashes es) →
  (sumZ (map totalMutations (smashes es)) < 2 ^ 63)%Z →
  let sm := run es in
  let js := smashes es in
  let mutations := sumZ (map totalMutations js) in
  let successes := sumZ (map successfulMutations js) in
  (0 <= GetSmashSuccessRate sm <= 1)%R ∧
  (js = [] → GetSmashSuccessRate sm = 0%R ∧
             GetAverageSmashMutationsPerJob sm = 0%R) ∧
  (js ≠ [] →
     GetSmashSuccessRate sm = (IZR successes / IZR mutations)%R ∧
     GetAverageSmashMutationsPerJob sm = (IZR mutations / INR (length js))%R ∧
     (1 <= GetAverageSmashMutationsPerJob sm)%R ∧
     AverageSmashBaseScore sm = Some (mean (map baseScore js))).
Proof.
  intros Hall Hsum sm js mutations successes.
  destruct (run_smashes es Hall Hsum) as (Hj & Hm & Hs & Hb).
  destruct (plausible_sums _ Hall) as [Hle Hlen].
  fold sm js in Hj, Hm, Hs, Hb. fold js in Hle, Hlen.
  fold mutations in Hm, Hle, Hlen. fold successes in Hs, Hle.
  assert (Hempty : js = [] → GetSmashSuccessRate sm = 0%R ∧
                              GetAverageSmashMutationsPerJob sm = 0%R).
  { intros He. unfold GetSmashSuccessRate, GetAverageSmashMutationsPerJob.
    rewrite Hj, Hm. unfold mutations. rewrite He. cbn [length map].
    by rewrite !decide_True. }
  assert (Hfull : js ≠ [] →
     GetSmashSuccessRate sm = (IZR successes / IZR mutations)%R ∧
     GetAverageSmashMutationsPerJob sm = (IZR mutations / INR (length js))%R ∧
     (1 <= GetAverageSmashMutationsPerJob sm)%R ∧
     AverageSmashBaseScore sm = Some (mean (map baseScore js))).
  { intros Hne.
    assert (Hpos : (1 ≤ length js)%nat) by (destruct js; [done|simpl; lia]).
    assert (Hjobs : GetAverageSmashMutationsPerJob sm =
                    (IZR mutations / INR (length js))%R).
    { unfold GetAverageSmashMutationsPerJob. rewrite Hj, Hm.
      rewrite decide_False by lia. by rewrite <- INR_IZR_INZ. }
    split_and!.
    - unfold GetSmashSuccessRate. rewrite Hm, Hs. by rewrite decide_False by lia.
    - done.
    - rewrite Hjobs. assert (0 < INR (length js))%R by (apply lt_0_INR; lia).
      apply Rmult_le_reg_r with (INR (length js)); [done|].
      unfold Rdiv. rewrite Rmult_assoc, Rinv_l, Rmult_1_l, Rmult_1_r by lra.
      rewrite INR_IZR_INZ. by apply IZR_le.
    - by apply Hb. }
  split; [|done].
  destruct (decide (js = [])) as [He|Hne].
  - destruct (Hempty He) as [-> _]. lra.
  - destruct (Hfull Hne) as (-> & _).
    assert (Hpos : (1 ≤ length js)%nat) by (destruct js; [done|simpl; lia]).
    assert (0 < IZR mutations)%R by (apply IZR_lt; lia).
    assert (0 <= IZR successes)%R by (apply IZR_le; lia).
    assert (IZR successes <= IZR mutations)%R by (apply IZR_le; lia).
    split.
    + apply Rmult_le_pos; [done|]. by apply Rlt_le, Rinv_0_lt_compat.
    + apply Rmult_le_reg_r with (IZR mutations); [done|].
      unfold Rdiv. rewrite Rmult_assoc, Rinv_l by lra. lra.
Qed.

End MetricsMore.

Section MetricsMoreExamples.
Import ScoreMetrics MetricsRuns Stats.

(** Two results with a smash report between them, for X19. *)
Lemma metrics_are_means_witness :
  let es := [Result (mkResult 0.4 0.5 1 0 0 false 10 0);
             Smash (mkSmash 1 3 0.4 0);
             Result (mkResult 0.8 1 1 0.9 0 false 30 0)] in
  results es ≠ [] ∧ (Z.of_nat (length (results es)) < 2 ^ 63)%Z ∧
  TotalRequests (run es) = Z.of_nat (length (results es)) ∧
  AverageScore (run es) = Some (mean (map total (results es))).
Proof.
  intros es.
  assert (Hne : results es ≠ []) by done.
  assert (Hlen : (Z.of_nat (length (results es)) < 2 ^ 63)%Z) by (simpl; lia).
  split; [exact Hne|]. split; [exact Hlen|].
  split.
  - exact (proj1 (metrics_are_means es Hne Hlen)).
  - exact (proj1 (proj2 (metrics_are_means es Hne Hlen))).
Defined.

(** The same run, for X20. *)
Lemma request_quotients_witness :
  let es := [Result (mkResult 0.4 0.5 1 0 0 true 10 0);
             Smash (mkSmash 1 3 0.4 0);
             Result (mkResult 0.8 1 1 0.9 0 false 30 0)] in
  (Z.of_nat (length (results es)) < 2 ^ 63)%Z ∧
  (0 <= GetScoreSelectionRatio (run es) <= 1)%R.
Proof.
  intros es.
  assert (Hlen : (Z.of_nat (length (results es)) < 2 ^ 63)%Z) by (simpl; lia).
  split; [exact Hlen|].
  exact (proj1 (request_quotients es Hlen)).
Defined.

(** Two smash reports, for X21. *)
Lemma smash_figures_witness :
  let es := [Smash (mkSmash 1 3 0.4 0);
             Result (mkResult 0.8 1 1 0.9 0 false 30 0);
             Smash (mkSmash 0 5 0.6 0)] in
  Forall plausible (smashes es) ∧
  (sumZ (map totalMutations (smashes es)) < 2 ^ 63)%Z ∧
  (0 <= GetSmashSuccessRate (run es) <= 1)%R.
Proof.
  intros es.
  assert (Hall : Forall plausible (smashes es)).
  { repeat constructor; simpl; lia. }
  assert (Hsum : (sumZ (map totalMutations (smashes es)) < 2 ^ 63)%Z)
    by (simpl; lia).
  split; [exact Hall|]. split; [exact Hsum|].
  exact (proj1 (smash_figures es Hall Hsum)).
Defined.

End MetricsMoreExamples.

(** ** The weighted queue *)

Section QueueFacts.
Import WeightedQueue QueueRuns.
Import WeightedSelector(Rsum).

Lemma Rsum_delete (ws : list R) (i : nat) (w : R) :
  ws !! i = Some w → Rsum (delete i ws) = (Rsum ws - w)%R.
Proof.
  revert i. induction ws as [|x ws IH]; intros [|i] Hi; simplify_eq/=.
  - lra.
  - rewrite (IH i Hi). lra.
Qed.

Lemma SubmitScored_spec (h : heap) (wq : t) (req : ptr) (r : ScoringRequest) :
  h !! req = Some r →
  ∃ w, SubmitScored h wq req =
         Some {| requests := requests wq ++ [req]; weights := weights wq ++ [w];
                 totalWeight := totalWeight wq + w |} ∧
       (0 < w)%R ∧
       w = (if decide (Score r <= 0)%R then 0.01%R else Score r).
Proof.
  intros Hr. unfold SubmitScored. rewrite Hr. cbn.
  eexists. split; [done|]. split; [|done]. case_decide; lra.
Qed.

Lemma SubmitScored_keeps (h : heap) (wq wq' : t) (req : ptr) :
  wf wq → valid h wq → SubmitScored h wq req = Some wq' →
  wf wq' ∧ valid h wq'.
Proof.
  intros (Hlen & Hpos & Htot) Hv Hs.
  destruct (h !! req) as [r|] eqn:Hr; [|by unfold SubmitScored in Hs; rewrite Hr in Hs].
  destruct (SubmitScored_spec h wq req r Hr) as (w & Hs' & Hw & _).
  rewrite Hs' in Hs. simplify_eq. split.
  - unfold wf. cbn [requests weights totalWeight]. rewrite !length_app, Hlen, Rsum_app, Htot.
    split_and!; [done| |unfold Rsum; simpl; lra].
    apply Forall_app. split; [done|]. by apply Forall_singleton.
  - unfold valid. cbn. apply Forall_app. split; [done|].
    apply Forall_singleton. by rewrite Hr.
Qed.

Lemma removeAt_spec (wq : t) (i : nat) :
  wf wq → (i < length (requests wq))%nat →
  ∃ w, weights wq !! i = Some w ∧
       removeAt wq (Z.of_nat i) =
         Some {| requests := delete i (requests wq);
                 weights := delete i (weights wq);
                 totalWeight := totalWeight wq - w |} ∧
       wf {| requests := delete i (requests wq);
             weights := delete i (weights wq);
             totalWeight := totalWeight wq - w |}.
Proof.
  intros (Hlen & Hpos & Htot) Hi.
  destruct (lookup_lt_is_Some_2 (weights wq) i) as [w Hw]; [lia|].
  exists w. split; [done|]. split.
  - unfold removeAt. rewrite decide_False by lia.
    rewrite Nat2Z.id, Hw. done.
  - unfold wf. cbn [requests weights totalWeight]. rewrite !length_delete by (done || by eapply lookup_lt_is_Some_2).
    split_and!; [lia|by apply Forall_delete|].
    rewrite (Rsum_delete _ _ _ Hw). lra.
Qed.

(** Where the loop of [NextWeighted] stops. *)
Lemma pick_Some (ws : list R) (c t : R) (i0 k : nat) :
  pick ws c t i0 = Some k →
  (i0 ≤ k < i0 + length ws)%nat ∧
  (t <= c + Rsum (take (S (k - i0)) ws))%R ∧
  (∀ k', (k' < k - i0)%nat → (c + Rsum (take (S k') ws) < t)%R).
Proof.
  revert c i0. induction ws as [|w ws IH]; intros c i0 Hp; [done|].
  cbn [pick] in Hp. case_decide as Hle.
  - simplify_eq. rewrite Nat.sub_diag. cbn [length take].
    split; [lia|]. split; [unfold Rsum; simpl; lra|]. intros k' Hk'. lia.
  - apply IH in Hp as (Hk & Hle' & Hlt). cbn [length].
    split; [lia|].
    replace (k - i0)%nat with (S (k - S i0)) by lia.
    split.
    + cbn [take]. unfold Rsum in *. simpl. lra.
    + intros [|k'] Hk'.
      * cbn [take]. unfold Rsum. simpl. lra.
      * specialize (Hlt k' ltac:(lia)). cbn [take]. unfold Rsum in *. simpl. lra.
Qed.

Lemma pick_None (ws : list R) (c t : R) (i0 : nat) :
  pick ws c t i0 = None →
  ∀ k', (k' < length ws)%nat → (c + Rsum (take (S k') ws) < t)%R.
Proof.
  revert c i0. induction ws as [|w ws IH]; intros c i0 Hp k' Hk'; [simpl in Hk'; lia|].
  cbn [pick] in Hp. case_decide as Hle; [done|].
  destruct k' as [|k'].
  - cbn [take]. unfold Rsum. simpl. lra.
  - cbn [length] in Hk'. specialize (IH _ _ Hp k' ltac:(lia)).
    cbn [take]. unfold Rsum in *. simpl. lra.
Qed.

Lemma nextIndex_spec (wq : t) (rnd : R) :
  wf wq → requests wq ≠ [] →
  let i := nextIndex wq rnd in
  let target := (rnd * totalWeight wq)%R in
  (i < length (requests wq))%nat ∧
  (∀ k, (k < i)%nat → (Rsum (take (S k) (weights wq)) < target)%R) ∧
  ((target <= Rsum (take (S i) (weights wq)))%R ∨
   i = (length (requests wq) - 1)%nat).
Proof.
  intros (Hlen & Hpos & Htot) Hne i target.
  assert (Hl : (0 < length (requests wq))%nat)
    by (destruct (requests wq); [done|simpl; lia]).
  unfold i, nextIndex. fold target.
  destruct (pick (weights wq) 0 target 0) as [k|] eqn:Hp.
  - apply pick_Some in Hp as (Hk & Hle & Hlt).
    rewrite Nat.sub_0_r, Rplus_0_l in *. split; [lia|]. split; [|by left].
    intros k' Hk'. specialize (Hlt k' Hk'). lra.
  - split; [lia|]. split; [|by right].
    intros k' Hk'. pose proof (pick_None _ _ _ _ Hp k' ltac:(lia)). lra.
Qed.

Lemma wf_total_pos (wq : t) :
  wf wq → requests wq ≠ [] → (0 < totalWeight wq)%R.
Proof.
  intros (Hlen & Hpos & Htot) Hne. rewrite Htot. apply Rsum_pos_lt; [done|].
  intros He. rewrite He in Hlen. by destruct (requests wq).
Qed.

Lemma NextWeighted_index (h : heap) (wq : t) (rnd : R) :
  wf wq → requests wq ≠ [] →
  NextWeighted h wq rnd = selectAt h wq (nextIndex wq rnd).
Proof.
  intros Hwf Hne. pose proof (wf_total_pos wq Hwf Hne).
  assert (Hl : (0 < length (requests wq))%nat)
    by (destruct (requests wq); [done|simpl; lia]).
  unfold NextWeighted, nextIndex.
  rewrite decide_False by (intros [?|?]; [lia|lra]).
  destruct (pick _ _ _ _); [done|]. by rewrite decide_True.
Qed.

Lemma selectAt_spec (h : heap) (wq : t) (i : nat) :
  wf wq → valid h wq → (i < length (requests wq))%nat →
  ∃ req r w, requests wq !! i = Some req ∧ weights wq !! i = Some w ∧
    h !! req = Some r ∧
    selectAt h wq i =
      Some (Some req, <[req := markSelected r]> h,
            {| requests := delete i (requests wq);
               weights := delete i (weights wq);
               totalWeight := totalWeight wq - w |}).
Proof.
  intros Hwf Hv Hi.
  destruct (lookup_lt_is_Some_2 (requests wq) i Hi) as [req Hreq].
  destruct (Forall_lookup_1 _ _ _ _ Hv Hreq) as [r Hr].
  destruct (removeAt_spec wq i Hwf Hi) as (w & Hw & Hrm & _).
  exists req, r, w. split_and!; try done.
  unfold selectAt. rewrite Hreq. cbn. rewrite Hrm. cbn. by rewrite Hr.
Qed.

Lemma valid_insert (h : heap) (wq : t) (req : ptr) (r : ScoringRequest) :
  valid h wq → valid (<[req := r]> h) wq.
Proof.
  unfold valid. intros Hv. eapply Forall_impl; [exact Hv|].
  cbv beta. intros x [y Hy].
  destruct (decide (x = req)) as [->|Hne].
  - rewrite lookup_insert_eq. done.
  - rewrite lookup_insert_ne by done. eauto.
Qed.

Lemma valid_delete (h : heap) (wq : t) (i : nat) (ws : list R) (tw : R) :
  valid h wq →
  valid h {| requests := delete i (requests wq); weights := ws; totalWeight := tw |}.
Proof.
  unfold valid. cbn [requests]. apply Forall_delete.
Qed.

(** X23.  [NextWeighted] on a queue whose slices belong together and whose
    requests are not nil, for every real [rnd]: from an empty queue it
    returns nil and changes nothing; otherwise it returns the request at
    the first index whose cumulative weight reaches [rnd * totalWeight]
    (the last request if none does), takes it and its weight out of the
    queue, lowers the total by that weight, and sets [ScoreSelected] of the
    request; the other requests keep their order. *)
Theorem NextWeighted_spec (h : heap) (wq : t) (rnd : R) :
  wf wq → valid h wq →
  (requests wq = [] → NextWeighted h wq rnd = Some (None, h, wq)) ∧
  (requests wq ≠ [] →
     let i := nextIndex wq rnd in
     let target := (rnd * totalWeight wq)%R in
     (∀ k, (k < i)%nat → (Rsum (take (S k) (weights wq)) < target)%R) ∧
     ((target <= Rsum (take (S i) (weights wq)))%R ∨
      i = (length (requests wq) - 1)%nat) ∧
     ∃ req r w, requests wq !! i = Some req ∧ weights wq !! i = Some w ∧
       h !! req = Some r ∧
       NextWeighted h wq rnd =
         Some (Some req, <[req := markSelected r]> h,
               {| requests := delete i (requests wq);
                  weights := delete i (weights wq);
                  totalWeight := totalWeight wq - w |})).
Proof.
  intros Hwf Hv. split.
  - intros He. unfold NextWeighted. rewrite He. by rewrite decide_True by (by left).
  - intros Hne i target.
    destruct (nextIndex_spec wq rnd Hwf Hne) as (Hi & Hlt & Hge).
    split; [done|]. split; [done|].
    rewrite (NextWeighted_index h wq rnd Hwf Hne).
    by apply selectAt_spec.
Qed.

Lemma NextWeighted_keeps (h : heap) (wq : t) (rnd : R) :
  wf wq → valid h wq →
  ∃ res h' wq', NextWeighted h wq rnd = Some (res, h', wq') ∧
    wf wq' ∧ valid h' wq' ∧ dom h' = dom h ∧
    (requests wq = [] → res = None ∧ h' = h ∧ wq' = wq) ∧
    (requests wq ≠ [] →
       ∃ req r, res = Some req ∧ h !! req = Some r ∧
         h' = <[req := markSelected r]> h ∧
         requests wq !! nextIndex wq rnd = Some req ∧
         requests wq' = delete (nextIndex wq rnd) (requests wq)).
Proof.
  intros Hwf Hv.
  destruct (decide (requests wq = [])) as [Hnil|Hcons].
  - exists None, h, wq. split_and!; try done.
    unfold NextWeighted. rewrite Hnil. by rewrite decide_True by (by left).
  - destruct (nextIndex_spec wq rnd Hwf Hcons) as (Hi & _).
    rewrite (NextWeighted_index h wq rnd Hwf Hcons).
    destruct (selectAt_spec h wq _ Hwf Hv Hi) as (req & r & w & Hreq & Hw & Hr & ->).
    destruct (removeAt_spec wq _ Hwf Hi) as (w' & Hw' & _ & Hwf').
    rewrite Hw in Hw'. simplify_eq.
    eexists _, _, _. split; [done|]. split_and!; try done.
    + apply valid_insert. by apply valid_delete.
    + rewrite dom_insert_L. apply elem_of_dom_2 in Hr. set_solver.
    + intros _. exists req, r. done.
Qed.

Lemma run_snoc_wq (h0 : heap) (calls : list call) (c : call) :
  run h0 (calls ++ [c]) = s ← run h0 calls; step s c.
Proof. unfold run. by rewrite fold_left_app. Qed.

(** X22.  No sequence of [SubmitScored], [NextWeighted] and [Clear] calls
    on a new queue panics, whatever the numbers [rnd] and whatever other
    holders write to the requests in between, as long as the pointers
    submitted are not nil.  After the calls the two slices of the queue
    have the same length, every weight is above zero, the total is the
    sum of the weights, and no request of the queue is nil. *)
Theorem queue_calls_keep_invariant (h0 : heap) (calls : list call) :
  Forall (known h0) calls →
  ∃ h wq, run h0 calls = Some (h, wq) ∧
          wf wq ∧ valid h wq ∧ dom h = dom h0.
Proof.
  induction calls as [|c calls IH] using rev_ind; intros Hk.
  - exists h0, NewWeightedQueue. split; [done|].
    split_and!; [|by apply Forall_nil|done].
    unfold wf. cbn. split_and!; [done|by apply Forall_nil|done].
  - apply Forall_app in Hk as [Hk Hc]. rewrite Forall_singleton in Hc.
    destruct (IH Hk) as (h & wq & Hrun & Hwf & Hv & Hdom).
    rewrite run_snoc_wq, Hrun. cbn [mbind option_bind].
    destruct c as [req|rnd| |req r]; cbn [step known fst snd] in *.
    + assert (Hreq : is_Some (h !! req)).
      { apply elem_of_dom. rewrite Hdom. by apply elem_of_dom. }
      destruct Hreq as [r Hr].
      destruct (SubmitScored_spec h wq req r Hr) as (w & Hs & _).
      destruct (SubmitScored_keeps h wq _ req Hwf Hv Hs) as [Hwf' Hv'].
      rewrite Hs. cbn. eauto 10.
    + destruct (NextWeighted_keeps h wq rnd Hwf Hv)
        as (res & h' & wq' & -> & Hwf' & Hv' & Hdom' & _).
      cbn. exists h', wq'. split_and!; try done. by rewrite Hdom'.
    + exists h, (Clear wq). split; [done|]. split_and!; [|by apply Forall_nil|done].
      unfold wf. cbn. split_and!; [done|by apply Forall_nil|done].
    + assert (Hreq : is_Some (h !! req)).
      { apply elem_of_dom. rewrite Hdom. by apply elem_of_dom. }
      destruct Hreq as [r0 Hr]. rewrite Hr. cbn.
      exists (<[req := r]> h), wq. split_and!; try done.
      * by apply valid_insert.
      * rewrite dom_insert_L, <- Hdom. apply elem_of_dom_2 in Hr. set_solver.
Qed.

(** X24.  The share of a request in the draws: for a queue whose slices
    belong together, the numbers [rnd] in [0,1) for which [NextWeighted]
    takes the request at the index [i] form an interval from [lo] to [hi]
    (open at [lo], closed at [hi], and with the point 0 when [lo = 0]) of
    length [weight(i) / totalWeight]. *)
Theorem NextWeighted_share (h : heap) (wq : t) (i : nat) (w : R) :
  wf wq → weights wq !! i = Some w →
  ∃ lo hi, (0 <= lo)%R ∧ (hi <= 1)%R ∧ (hi - lo = w / totalWeight wq)%R ∧
    ∀ rnd, (0 <= rnd < 1)%R →
      NextWeighted h wq rnd = selectAt h wq (nextIndex wq rnd) ∧
      (nextIndex wq rnd = i ↔ ((lo < rnd <= hi)%R ∨ (lo = 0%R ∧ rnd = 0%R))).
Proof.
  intros Hwf Hw. pose proof Hwf as (Hlen & Hpos & Htot).
  apply lookup_lt_Some in Hw as Hi.
  assert (Hne : requests wq ≠ []).
  { intros He. rewrite He in Hlen. simpl in Hlen. lia. }
  pose proof (wf_total_pos wq Hwf Hne) as HT.
  set (T := totalWeight wq) in *. set (ws := weights wq) in *.
  assert (Hlo : (0 <= Rsum (take i ws))%R) by (by apply Rsum_pos, Forall_take).
  assert (Hhi : (Rsum (take (S i) ws) <= T)%R).
  { rewrite Htot. rewrite <- (take_ge ws (length ws)) at 2 by lia.
    apply Rsum_take_le; [done|lia]. }
  exists (Rsum (take i ws) / T)%R, (Rsum (take (S i) ws) / T)%R.
  split_and!.
  - apply Rmult_le_pos; [done|]. by apply Rlt_le, Rinv_0_lt_compat.
  - apply Rmult_le_reg_r with T; [done|].
    unfold Rdiv. rewrite Rmult_assoc, Rinv_l by lra. lra.
  - rewrite (Rsum_take_S ws i w Hw). field. lra.
  - intros u Hu. split; [by apply NextWeighted_index|].
    destruct (nextIndex_spec wq u Hwf Hne) as (Hk & Hlt & Hge).
    fold T ws in Hlt, Hge. remember (nextIndex wq u) as k eqn:Hkdef.
    clear Hkdef.
    assert (Hge' : (u * T <= Rsum (take (S k) ws))%R).
    { destruct Hge as [?|Hlast]; [done|].
      rewrite Hlast, take_ge by lia. rewrite <- Htot. nra. }
    pose proof (div_lt_iff (Rsum (take i ws)) u T HT) as Hd1.
    pose proof (le_div_iff (Rsum (take (S i) ws)) u T HT) as Hd2.
    assert (Hz : (Rsum (take i ws) / T)%R = 0%R ↔ Rsum (take i ws) = 0%R).
    { split; intros Hz.
      - apply (f_equal (λ x, x * T)%R) in Hz.
        unfold Rdiv in Hz.
        rewrite Rmult_assoc, Rinv_l, Rmult_1_r, Rmult_0_l in Hz by lra. done.
      - rewrite Hz. unfold Rdiv. by rewrite Rmult_0_l. }
    assert (Hu0 : (u * T)%R = 0%R ↔ u = 0%R).
    { split; intros Hz'; [|rewrite Hz'; lra].
      destruct (Rmult_integral _ _ Hz'); [done|lra]. }
    assert (Hfirst : (0 < Rsum (take 1 ws))%R).
    { pose proof (Rsum_take_lt ws 0 1 Hpos ltac:(lia) ltac:(lia)) as Hl.
      cbn [take] in Hl. unfold Rsum at 1 in Hl. cbn [foldr] in Hl. done. }
    assert (Hi0 : Rsum (take i ws) = 0%R ↔ i = 0%nat).
    { split.
      - intros Hs. destruct i as [|i']; [done|].
        pose proof (Rsum_take_le ws 1 (S i') Hpos ltac:(lia)). lra.
      - intros ->. done. }
    split.
    + intros ->. destruct (decide (i = 0%nat)) as [Hi0'|Hi0'].
      * apply Hi0 in Hi0' as Hs.
        destruct (decide (u = 0%R)) as [Hu'|Hnz]; [right; split; [by apply Hz|done]|].
        left. rewrite Hd1, Hd2. split; [rewrite Hs; nra|done].
      * left. rewrite Hd1, Hd2. split; [|done].
        replace i with (S (i - 1)) at 1 by lia. apply Hlt. lia.
    + intros Hcase.
      assert (Hin : (Rsum (take i ws) < u * T <= Rsum (take (S i) ws))%R ∨
                    (i = 0%nat ∧ u = 0%R)).
      { destruct Hcase as [[H1 H2]|[H1 H2]].
        - left. by rewrite <- Hd1, <- Hd2.
        - right. split; [|done]. apply Hi0. by apply Hz. }
      destruct (Nat.lt_trichotomy k i) as [Hki|[Hki|Hki]]; [|done|].
      * exfalso. pose proof (Rsum_take_le ws (S k) i Hpos ltac:(lia)).
        destruct Hin as [[H1 H2]|[-> _]]; [lra|lia].
      * exfalso. specialize (Hlt i Hki).
        destruct Hin as [[H1 H2]|[-> ->]]; [lra|]. lra.
Qed.

Lemma markSelected_idem (r : ScoringRequest) :
  markSelected (markSelected r) = markSelected r.
Proof. done. Qed.

Lemma drain_all (rnds : list R) (h : heap) (wq : t) :
  wf wq → valid h wq → length rnds = length (requests wq) →
  ∃ got h' wq', drain h wq rnds = Some (got, h', wq') ∧
    got ≡ₚ Some <$> requests wq ∧
    requests wq' = [] ∧ wf wq' ∧
    ∀ x, (x ∉ requests wq → h' !! x = h !! x) ∧
         (x ∈ requests wq →
            ∃ r, h !! x = Some r ∧ h' !! x = Some (markSelected r)).
Proof.
  revert h wq. induction rnds as [|rnd rnds IH]; intros h wq Hwf Hv Hlen.
  - exists [], h, wq. cbn [drain length] in *.
    assert (He : requests wq = []) by (by destruct (requests wq)).
    rewrite He. split_and!; try done. intros x. split; [done|].
    intros Hx. by apply elem_of_nil in Hx.
  - cbn [length] in Hlen.
    assert (Hne : requests wq ≠ []) by (by destruct (requests wq)).
    destruct (NextWeighted_keeps h wq rnd Hwf Hv)
      as (res & h1 & wq1 & Hnext & Hwf1 & Hv1 & _ & _ & Hsome).
    destruct (Hsome Hne) as (req & r & -> & Hr & -> & Hreq & Hreqs).
    apply lookup_lt_Some in Hreq as Hi.
    destruct (IH _ wq1 Hwf1 Hv1) as (got & h' & wq' & Hd & Hperm & He & Hwf' & Hheap).
    { rewrite Hreqs, length_delete by eauto. lia. }
    cbn [drain]. rewrite Hnext. cbn. rewrite Hd. cbn.
    eexists _, _, _. split; [done|].
    pose proof (delete_Permutation _ _ _ Hreq) as Hp.
    split_and!; try done.
    + transitivity (Some <$> (req :: delete (nextIndex wq rnd) (requests wq))).
      * rewrite fmap_cons. apply perm_skip. by rewrite Hperm, Hreqs.
      * apply fmap_Permutation. by symmetry.
    + intros x. destruct (Hheap x) as [Hout Hin]. rewrite Hreqs in Hout, Hin.
      split.
      * intros Hx. rewrite Hout.
        -- rewrite lookup_insert_ne; [done|]. intros ->.
           apply Hx. eapply list_elem_of_lookup_2. done.
        -- intros Hd'. apply Hx. by eapply list_elem_of_delete_inv.
      * intros Hx. destruct (decide (x ∈ delete (nextIndex wq rnd) (requests wq)))
          as [Hd'|Hd'].
        -- destruct (Hin Hd') as (r1 & Hr1 & Hh').
           destruct (decide (x = req)) as [->|Hxr].
           ++ rewrite lookup_insert_eq in Hr1. simplify_eq.
              exists r. by rewrite Hh', markSelected_idem.
           ++ rewrite lookup_insert_ne in Hr1 by done. eauto.
        -- assert (x = req) as ->.
           { rewrite Hp in Hx. apply elem_of_cons in Hx as [?|?]; done. }
           rewrite (Hout Hd'), lookup_insert_eq. eauto.
Qed.

(** X25.  Nothing is lost and nothing comes twice: as many calls of
    [NextWeighted] as the queue has requests, with any numbers [rnd],
    return the requests of the queue, each position once, in some order,
    and leave the queue empty with every later call returning nil.  Each
    returned request has [ScoreSelected] set and is otherwise what it was;
    the other objects of the heap are untouched. *)
Theorem NextWeighted_drains (rnds : list R) (h : heap) (wq : t) :
  wf wq → valid h wq → length rnds = length (requests wq) →
  ∃ got h' wq', drain h wq rnds = Some (got, h', wq') ∧
    got ≡ₚ Some <$> requests wq ∧
    requests wq' = [] ∧ weights wq' = [] ∧ totalWeight wq' = 0%R ∧
    (∀ rnd, NextWeighted h' wq' rnd = Some (None, h', wq')) ∧
    ∀ x, (x ∉ requests wq → h' !! x = h !! x) ∧
         (x ∈ requests wq →
            ∃ r, h !! x = Some r ∧ h' !! x = Some (markSelected r)).
Proof.
  intros Hwf Hv Hlen.
  destruct (drain_all rnds h wq Hwf Hv Hlen)
    as (got & h' & wq' & Hd & Hperm & He & (Hl & Hpos & Htot) & Hheap).
  exists got, h', wq'.
  assert (Hw : weights wq' = []).
  { rewrite He in Hl. by destruct (weights wq'). }
  split_and!; try done.
  - rewrite Htot, Hw. done.
  - intros rnd. unfold NextWeighted. rewrite He.
    by rewrite decide_True by (by left).
Qed.

(** The exchange of [GetTopScored] on two requests that are not nil. *)
Lemma queue_exchange_pair (h : heap) (i j : nat) (l : list ptr) (a b : ptr) :
  (i < j)%nat → l !! i = Some a → l !! j = Some b →
  is_Some (h !! a) → is_Some (h !! b) →
  ∃ l' a' b', exchange h i l j = Some l' ∧
    length l' = length l ∧ l' ≡ₚ l ∧
    (∀ k, k ≠ i → k ≠ j → l' !! k = l !! k) ∧
    l' !! i = Some a' ∧ l' !! j = Some b' ∧
    (score h b' <= score h a')%R ∧ (score h a <= score h a')%R ∧
    ((a' = a ∧ b' = b) ∨ (a' = b ∧ b' = a)).
Proof.
  intros Hij Hi Hj [ra Ha] [rb Hb].
  apply lookup_lt_Some in Hi as Hil. apply lookup_lt_Some in Hj as Hjl.
  unfold exchange. rewrite Hi, Hj. cbn. rewrite Ha, Hb. cbn.
  assert (Hsa : score h a = Score ra) by (unfold score; by rewrite Ha).
  assert (Hsb : score h b = Score rb) by (unfold score; by rewrite Hb).
  case_decide as Hlt.
  - exists (<[j := a]> (<[i := b]> l)), b, a. split_and!; try done.
    + by rewrite !length_insert.
    + by apply insert_swap_perm.
    + intros k Hki Hkj. by rewrite !list_lookup_insert_ne by done.
    + rewrite list_lookup_insert_ne by lia.
      by rewrite list_lookup_insert_eq by lia.
    + by rewrite list_lookup_insert_eq by (rewrite length_insert; lia).
    + lra.
    + lra.
    + by right.
  - exists l, a, b. split_and!; try done; try lra. by left.
Qed.

Lemma queue_innerLoop_inv (h : heap) (i : nat) (l0 : list ptr) :
  Forall (λ req, is_Some (h !! req)) l0 → (i < length l0)%nat →
  ∃ l, innerLoop h l0 i = Some l ∧ innerInv h i l0 (length l0) l.
Proof.
  intros Hv Hi. unfold innerLoop.
  pose proof (fold_seq_inv (λ j y, ∃ l, y = Some l ∧ innerInv h i l0 j l)
                (λ acc j, l ← acc; exchange h i l j)
                (i + 1) (length l0 - (i + 1)) (Some l0)) as Hfold.
  replace (i + 1 + (length l0 - (i + 1)))%nat with (length l0) in Hfold by lia.
  apply Hfold; clear Hfold.
  - exists l0. split; [done|]. split_and!; try done.
    + intros k b Hk Hb. eauto.
    + intros k a b Hk. lia.
  - intros j y Hj (l & -> & Hlen & Hperm & Hpre & Hsuf & Hmax).
    assert (Hil : (i < length l)%nat) by lia.
    assert (Hjl : (j < length l)%nat) by lia.
    destruct (lookup_lt_is_Some_2 l i Hil) as [a Ha].
    destruct (lookup_lt_is_Some_2 l j Hjl) as [b Hb].
    assert (Hvl : Forall (λ req, is_Some (h !! req)) l) by (by rewrite Hperm).
    destruct (queue_exchange_pair h i j l a b ltac:(lia) Ha Hb)
      as (l' & a' & b' & Hex & Hlen' & Hperm' & Hother & Ha' & Hb' & Hle & Hge & Hcase).
    { exact (Forall_lookup_1 (λ req, is_Some (h !! req)) l i a Hvl Ha). }
    { exact (Forall_lookup_1 (λ req, is_Some (h !! req)) l j b Hvl Hb). }
    exists l'. cbn. split; [done|]. split_and!.
    + by rewrite Hlen'.
    + by rewrite Hperm'.
    + intros k Hk. rewrite Hother by lia. by apply Hpre.
    + intros k c Hk Hc.
      destruct (decide (k = i)) as [->|Hki]; [|destruct (decide (k = j)) as [->|Hkj]].
      * rewrite Ha' in Hc. simplify_eq.
        destruct Hcase as [[-> _]|[-> _]]; [apply (Hsuf i)|apply (Hsuf j)];
          try done; lia.
      * rewrite Hb' in Hc. simplify_eq.
        destruct Hcase as [[_ ->]|[_ ->]]; [apply (Hsuf j)|apply (Hsuf i)];
          try done; lia.
      * rewrite Hother in Hc by done. by apply (Hsuf k).
    + intros k x y Hk Hx Hy. rewrite Ha' in Hx. simplify_eq.
      destruct (decide (k = j)) as [->|Hkj].
      * rewrite Hb' in Hy. by simplify_eq.
      * rewrite Hother in Hy by lia.
        etrans; [|exact Hge]. apply (Hmax k a y); [lia|done|done].
Qed.

Lemma queue_sortLoop_inv (h : heap) (l0 : list ptr) :
  Forall (λ req, is_Some (h !! req)) l0 →
  ∃ l, sortLoop h l0 = Some l ∧ outerInv h l0 (length l0 - 1) l.
Proof.
  intros Hv. unfold sortLoop.
  apply (fold_seq_inv (λ i y, ∃ l, y = Some l ∧ outerInv h l0 i l)
           (λ acc i, l ← acc; innerLoop h l i) 0 (length l0 - 1)).
  - exists l0. split; [done|]. split_and!; try done. intros k k' a b Hk. lia.
  - intros i y Hi (l & -> & Hlen & Hperm & Hdom).
    assert (Hvl : Forall (λ req, is_Some (h !! req)) l) by (by rewrite Hperm).
    destruct (queue_innerLoop_inv h i l Hvl ltac:(lia))
      as (l' & Hin & Hlen' & Hperm' & Hpre & Hsuf & Hmax).
    exists l'. cbn. split; [done|]. split_and!.
    + by rewrite Hlen'.
    + by rewrite Hperm'.
    + intros k k' a b Hk Hkk' Ha Hb.
      destruct (decide (k = i)) as [->|Hki].
      * apply (Hmax k' a b); [|done|done].
        apply lookup_lt_Some in Hb. lia.
      * rewrite Hpre in Ha by lia.
        destruct (decide (k' < i)%nat) as [Hlt|Hge].
        -- rewrite Hpre in Hb by lia. apply (Hdom k k' a b); [lia|lia|done|done].
        -- destruct (Hsuf k' b ltac:(lia) Hb) as (k'' & Hk'' & Hb'').
           apply (Hdom k k'' a b); [lia|lia|done|done].
Qed.

Lemma queue_sortLoop_sorts (h : heap) (l0 : list ptr) :
  Forall (λ req, is_Some (h !! req)) l0 →
  ∃ l, sortLoop h l0 = Some l ∧ l ≡ₚ l0 ∧ descending h l.
Proof.
  intros Hv. destruct (queue_sortLoop_inv h l0 Hv) as (l & Hs & Hlen & Hperm & Hdom).
  exists l. split; [done|]. split; [done|]. intros i j a b Hij Ha Hb.
  apply (Hdom i j a b); try done. apply lookup_lt_Some in Hb. lia.
Qed.

(** X26.  [GetTopScored] on a queue without nil requests: for [n <= 0]
    or an empty queue the result is nil (a negative [n] is tolerated);
    otherwise it returns [min(n, Len)] requests in descending order of
    their present scores, which together with the requests left out are
    the requests of the queue, and no request left out has a higher score
    than one returned.  The queue itself is not touched: the loops sort a
    copy. *)
Theorem GetTopScored_spec (h : heap) (wq : t) (n : Z) :
  valid h wq →
  ((n ≤ 0)%Z ∨ requests wq = [] → GetTopScored h wq n = Some []) ∧
  ((0 < n)%Z →
     ∃ l rest, GetTopScored h wq n = Some l ∧
       l ++ rest ≡ₚ requests wq ∧
       Z.of_nat (length l) = (n `min` Len wq)%Z ∧
       descending h l ∧
       ∀ a b, a ∈ l → b ∈ rest → (score h b <= score h a)%R).
Proof.
  intros Hv. split.
  - intros Hc. unfold GetTopScored. rewrite decide_True; [done|].
    destruct Hc as [?|He]; [by left|right; by rewrite He].
  - intros Hn. unfold GetTopScored.
    destruct (decide (requests wq = [])) as [He|Hne].
    { rewrite decide_True by (right; by rewrite He).
      exists [], []. unfold Len. rewrite He. split; [done|]. split; [done|].
      split; [simpl; lia|]. split; [intros i j a b _ Ha; done|].
      intros a b Ha. by apply elem_of_nil in Ha. }
    rewrite decide_False.
    2:{ intros [?|Hl]; [lia|]. by destruct (requests wq). }
    destruct (queue_sortLoop_sorts h (requests wq) Hv) as (l & -> & Hperm & Hdesc).
    cbn [mbind option_bind].
    set (m := Z.to_nat (if decide (Z.of_nat (length l) < n)%Z
                        then Z.of_nat (length l) else n)).
    assert (Hlen : length l = length (requests wq)) by (by rewrite Hperm).
    assert (Hm : m = (Z.to_nat n `min` length (requests wq))%nat).
    { unfold m. case_decide; lia. }
    exists (take m l), (drop m l). split_and!.
    + done.
    + by rewrite take_drop.
    + rewrite length_take. unfold Len. lia.
    + intros i j a b Hij Ha Hb.
      apply lookup_take_Some in Ha as [Ha _]. apply lookup_take_Some in Hb as [Hb _].
      by apply (Hdesc i j).
    + intros a b Ha Hb.
      apply list_elem_of_lookup in Ha as [i Ha]. apply list_elem_of_lookup in Hb as [j Hb].
      apply lookup_take_Some in Ha as [Ha Hi]. rewrite lookup_drop in Hb.
      apply (Hdesc i (m + j)%nat); [lia|done|done].
Qed.

Lemma sum_scores (h : heap) (l : list ptr) (acc : R) :
  Forall (λ req, is_Some (h !! req)) l →
  fold_left (λ acc req, total ← acc; r ← h !! req; Some (total + Score r)%R)
            l (Some acc) =
  Some (acc + Rsum (map (score h) l))%R.
Proof.
  revert acc. induction l as [|x l IH]; intros acc Hv.
  - simpl. f_equal. unfold Rsum. simpl. lra.
  - apply Forall_cons in Hv as [[r Hr] Hv]. cbn [fold_left mbind option_bind].
    rewrite Hr. cbn [mbind option_bind]. rewrite IH by done.
    f_equal. cbn [map]. unfold Rsum, score. rewrite Hr. simpl. lra.
Qed.

(** X27.  [GetAverageScore] on a queue without nil requests is the
    arithmetic mean of the present scores of its requests, 0 for an empty
    queue: it reads the scores as they are now, not the weights recorded
    when the requests were submitted. *)
Theorem GetAverageScore_spec (h : heap) (wq : t) :
  valid h wq →
  GetAverageScore h wq =
  Some (if decide (requests wq = []) then 0%R
        else MetricsRuns.mean (map (score h) (requests wq))).
Proof.
  intros Hv. unfold GetAverageScore.
  destruct (decide (requests wq = [])) as [He|Hne].
  - rewrite He. done.
  - rewrite decide_False by (by destruct (requests wq)).
    rewrite sum_scores by done. cbn [mbind option_bind].
    unfold MetricsRuns.mean. rewrite length_map, Rplus_0_l. done.
Qed.

End QueueFacts.

Section QueueWitnesses.
Import WeightedQueue QueueRuns QueueExamples.

Lemma queue2_wf : wf queue2.
Proof.
  unfold wf, queue2. cbn [requests weights totalWeight]. split; [done|]. split.
  - repeat constructor; lra.
  - unfold WeightedSelector.Rsum. simpl. lra.
Defined.

Lemma queue2_valid : valid heap2 queue2.
Proof.
  unfold valid, queue2, heap2. cbn [requests].
  repeat constructor; eexists; reflexivity.
Defined.

(** Submissions, a draw, a write and a clearing, for X22. *)
Lemma queue_calls_keep_invariant_witness :
  let calls := [CallSubmitScored 1; CallSubmitScored 2; CallNextWeighted 0.3;
                CallWrite 2 (NewScoringRequest 0 0.9 None 0);
                CallSubmitScored 2; CallClear] in
  Forall (known heap2) calls ∧
  ∃ h wq, run heap2 calls = Some (h, wq) ∧ wf wq.
Proof.
  intros calls.
  assert (Hk : Forall (known heap2) calls).
  { unfold calls, heap2. repeat constructor; cbn [known]; eexists; reflexivity. }
  split; [exact Hk|].
  destruct (queue_calls_keep_invariant heap2 calls Hk) as (h & wq & Hrun & Hwf & _).
  exists h, wq. split; [exact Hrun | exact Hwf].
Defined.

(** A draw from the queue of two, for X23. *)
Lemma NextWeighted_spec_witness :
  wf queue2 ∧ valid heap2 queue2 ∧
  (requests queue2 = [] → NextWeighted heap2 queue2 0.3 = Some (None, heap2, queue2)).
Proof.
  split; [exact queue2_wf|]. split; [exact queue2_valid|].
  exact (proj1 (NextWeighted_spec heap2 queue2 0.3 queue2_wf queue2_valid)).
Defined.

(** The share of the second request of the queue of two, for X24. *)
Lemma NextWeighted_share_witness :
  wf queue2 ∧ weights queue2 !! 1%nat = Some 0.01%R ∧
  ∃ lo hi, (0 <= lo)%R ∧ (hi <= 1)%R ∧
           (hi - lo = 0.01 / totalWeight queue2)%R.
Proof.
  assert (Hw : weights queue2 !! 1%nat = Some 0.01%R) by reflexivity.
  split; [exact queue2_wf|]. split; [exact Hw|].
  destruct (NextWeighted_share heap2 queue2 1 0.01 queue2_wf Hw)
    as (lo & hi & Hlo & Hhi & Hlen & _).
  exists lo, hi. split; [exact Hlo|]. split; [exact Hhi|exact Hlen].
Defined.

(** Two draws from the queue of two, for X25. *)
Lemma NextWeighted_drains_witness :
  wf queue2 ∧ valid heap2 queue2 ∧
  length [0.9%R; 0.1%R] = length (requests queue2) ∧
  ∃ got h' wq', drain heap2 queue2 [0.9%R; 0.1%R] = Some (got, h', wq') ∧
                got ≡ₚ Some <$> requests queue2.
Proof.
  assert (Hlen : length [0.9%R; 0.1%R] = length (requests queue2)) by reflexivity.
  split; [exact queue2_wf|]. split; [exact queue2_valid|]. split; [exact Hlen|].
  destruct (NextWeighted_drains [0.9%R; 0.1%R] heap2 queue2 queue2_wf queue2_valid Hlen)
    as (got & h' & wq' & Hd & Hp & _).
  exists got, h', wq'. split; [exact Hd | exact Hp].
Defined.

(** The best request of the queue of two and a negative [n], for X26. *)
Lemma GetTopScored_spec_witness :
  valid heap2 queue2 ∧
  ((-1 ≤ 0)%Z ∨ requests queue2 = [] → GetTopScored heap2 queue2 (-1) = Some []).
Proof.
  split; [exact queue2_valid|].
  exact (proj1 (GetTopScored_spec heap2 queue2 (-1) queue2_valid)).
Defined.

(** The average of the queue of two, for X27. *)
Lemma GetAverageScore_spec_witness :
  valid heap2 queue2 ∧
  GetAverageScore heap2 queue2 =
  Some (if decide (requests queue2 = []) then 0%R
        else MetricsRuns.mean (map (score heap2) (requests queue2))).
Proof.
  split; [exact queue2_valid|].
  exact (GetAverageScore_spec heap2 queue2 queue2_valid).
Defined.

End QueueWitnesses.

(** ** The log lines that the fuzzer hands to the matcher *)

Section FuzzerLogs.
Import Fuzzer.

Lemma collect_fold (lines logs : list string) :
  fold_left collectStep lines logs =
  logs ++ filter (λ l, isLogLine l = true) (map Strings.TrimSpace lines).
Proof.
  revert logs. induction lines as [|x lines IH]; intros logs.
  - simpl. by rewrite app_nil_r.
  - cbn [fold_left map]. rewrite IH. unfold collectStep.
    destruct (isLogLine (Strings.TrimSpace x)) eqn:Hx.
    + rewrite filter_cons_True by done. by rewrite <- app_assoc.
    + rewrite filter_cons_False; [done|]. by rewrite Hx.
Qed.

(** X28.  The lines that [calculateProgScore] hands to the scoring are
    trimmed lines of the output that are not empty and contain one of the
    words KASAN, WARNING, ERROR, Oops and panic, in this spelling.  A
    report without such a word does not reach the matcher: the output
    "kernel BUG at mm/slab.c:1", which the matcher scores 0.9, yields no
    line and so the score 0. *)
Theorem kernelLogs_keeps_keywords :
  (∀ info output line, line ∈ kernelLogs info output →
     line ≠ "" ∧
     (∃ raw, raw ∈ Strings.Split output (ascii_of_nat 10) ∧
             line = Strings.TrimSpace raw) ∧
     (∃ word, word ∈ ["KASAN"; "WARNING"; "ERROR"; "Oops"; "panic"] ∧
              Strings.Contains line word = true)) ∧
  (let output := "kernel BUG at mm/slab.c:1" in
   kernelLogs true output = [] ∧
   KernelLogMatcher.CalculateScore KernelLogMatcher.NewKernelLogMatcher [output]
     = 0.9%R ∧
   KernelLogMatcher.CalculateScore KernelLogMatcher.NewKernelLogMatcher
     (kernelLogs true output) = 0%R).
Proof.
  split.
  - intros info output line Hin. unfold kernelLogs in Hin.
    destruct (info && negb (String.eqb output "")); [|by apply elem_of_nil in Hin].
    rewrite collect_fold, app_nil_l in Hin.
    apply list_elem_of_filter in Hin as [Hlog Hin].
    apply list_elem_of_fmap in Hin as (raw & -> & Hraw).
    unfold isLogLine in Hlog. apply andb_true_iff in Hlog as [Hne Hword].
    split_and!.
    + intros He. rewrite He in Hne. done.
    + eauto.
    + repeat (apply orb_true_iff in Hword as [Hword|Hword]);
        eexists; (split; [|exact Hword]); set_solver.
  - split_and!; [reflexivity|eval_score|reflexivity].
Qed.

End FuzzerLogs.

(** ** The start of a smash job *)

Section SmashStart.
Import ScoreTracker TrackerRuns Sightings Fuzzer.
Context `{!Signal.Pkg}.

Lemma Int_part_between (x : R) (a b : Z) :
  (IZR a <= x <= IZR b)%R → (a ≤ Int_part x ≤ b)%Z.
Proof.
  intros [Ha Hb]. destruct (base_Int_part x) as [Hle Hgt]. split.
  - assert (IZR a < IZR (Int_part x + 1))%R by (rewrite plus_IZR; lra).
    apply lt_IZR in H0. lia.
  - apply le_IZR. lra.
Qed.

Lemma Int_part_mono (x y : R) : (x <= y)%R → (Int_part x ≤ Int_part y)%Z.
Proof.
  intros Hxy. destruct (base_Int_part x) as [Hx _].
  destruct (base_Int_part y) as [_ Hy].
  assert (IZR (Int_part x) < IZR (Int_part y + 1))%R by (rewrite plus_IZR; lra).
  apply lt_IZR in H0. lia.
Qed.

(** The cached totals of a tracker whose calls all came with weights that
    are not negative and sum to 1. *)
Lemma cached_totals (calls : list call) (hash : string) :
  Forall (λ c, validWeights (callConfig c)) calls →
  (Z.of_nat (length calls) < 2 ^ 63)%Z →
  (0 <= Total (GetScore (run calls) hash) <= 1)%R.
Proof.
  induction calls as [|c calls IH] using rev_ind; intros Hall Hlen.
  - unfold GetScore. cbn. rewrite lookup_empty. cbn. lra.
  - apply Forall_app in Hall as [Hall Hc]. rewrite Forall_singleton in Hc.
    rewrite length_app in Hlen. cbn [length] in Hlen.
    specialize (IH Hall ltac:(lia)).
    rewrite run_snoc. unfold step.
    destruct (Enabled (callConfig c)) eqn:Hen.
    + destruct (UpdateScore_enabled (with_config (run calls) (callConfig c))
                  (callHash c) (callNow c) (callResult c) Hen)
        as (_ & _ & _ & _ & _ & Hs).
      unfold GetScore. rewrite Hs.
      destruct (decide (hash = callHash c)) as [->|Hne].
      * rewrite lookup_insert_eq.
        by apply (UpdateScore_in_range calls c Hen ltac:(lia)).
      * rewrite lookup_insert_ne by done. exact IH.
    + by rewrite UpdateScore_off.
Qed.

(** X29.  How a smash job starts, for a tracker whose calls (fewer than
    2^63) all came with weights that are not negative and sum to 1: the
    base score of the program lies in [0, 1], the loop runs at least 15
    and at most 50 times (25 times when scoring is off), and a higher base
    score never gives fewer iterations. *)
Theorem smash_iterations (calls : list call) (hash : string) (enabled : bool) :
  Forall (λ c, validWeights (callConfig c)) calls →
  (Z.of_nat (length calls) < 2 ^ 63)%Z →
  let base := baseScore enabled (run calls) hash in
  (0 <= base <= 1)%R ∧
  (15 ≤ iters enabled base ≤ 50)%Z ∧
  (enabled = false → iters enabled base = 25%Z) ∧
  (∀ b1 b2, (0 <= b1 <= b2)%R → (iters true b1 ≤ iters true b2)%Z).
Proof.
  intros Hall Hlen base.
  assert (Hb : (0 <= base <= 1)%R).
  { unfold base, baseScore. destruct enabled; [by apply cached_totals|lra]. }
  split; [done|]. split; [|split].
  - unfold iters, Go.int. destruct enabled; [|lia]. rewrite decide_True by nra.
    apply Int_part_between. split; [|].
    + change (IZR 15) with 15%R. nra.
    + change (IZR 50) with 50%R. nra.
  - by intros ->.
  - intros b1 b2 Hb12. unfold iters, Go.int. rewrite !decide_True by nra.
    apply Int_part_mono. nra.
Qed.

End SmashStart.

Section SmashStartExamples.
Import ScoreTracker TrackerRuns Sightings Fuzzer Examples.

(** A tracker that has scored one program with the default weights, for
    X29. *)
Lemma smash_iterations_witness :
  let calls := [callOf "a" {[1%Z]}] in
  Forall (λ c, validWeights (callConfig c)) calls ∧
  (Z.of_nat (length calls) < 2 ^ 63)%Z ∧
  (15 ≤ iters true (baseScore true (run (H := Instances.signalDefault) calls) "a")
      ≤ 50)%Z.
Proof.
  intros calls.
  assert (Hall : Forall (λ c, validWeights (callConfig c)) calls).
  { unfold calls. apply Forall_singleton.
    unfold validWeights, callOf, DefaultScoreConfig.
    cbn [callConfig CoverageWeight RarityWeight KernelLogWeight TimeAnomalyWeight].
    repeat split; lra. }
  assert (Hlen : (Z.of_nat (length calls) < 2 ^ 63)%Z) by (simpl; lia).
  split; [exact Hall|]. split; [exact Hlen|].
  exact (proj1 (proj2 (smash_iterations (H := Instances.signalDefault)
                         calls "a" true Hall Hlen))).
Defined.

End SmashStartExamples.
